(** * SDfu: the latent-diffusion sampling engine of [src/core/sdsetup.py]

    A shallow embedding of class [SDfu] (schedule set-up, seeding, the
    configuration checks of [final_setup] and the sampling loop of
    [generate]) together with the properties of its specification.

    Conventions of the embedding.
    - Python [int] is [Z]; Python [float] is [Q], the rational a double
      equals.  The arithmetic on tensors and weights is exact: its
      rounding is not modelled, so a property stated with [==] is a
      property of the computed real value.  The product
      [steps * strength], whose truncation decides how many steps are
      kept, is rounded to the nearest double as Python rounds it.
    - A tensor is kept by its first two axes, the remaining axes being
      flattened: a list (axis 0) of rows, a row a list (axis 1) of
      channels, a channel a list of scalars.
    - The networks, the scheduler and the k-diffusion sampler are objects
      handed to the engine; they are the fields of the class [Backend].
    - Exceptions are values of [exn]; a computation that can raise
      returns a [result]. *)

From Stdlib Require Import String.
From Stdlib Require Import ZArith QArith Qround Qfield Qabs Qpower List Bool Lia Lqa.
From Stdlib Require Import Setoid Morphisms.
Import ListNotations.

Set Implicit Arguments.
Unset Strict Implicit.

(** ** Exceptions and results *)

Inductive exn : Type :=
| AssertionError (msg : string)
| ZeroDivisionError
| IndexError
| RuntimeError (msg : string).

Inductive result (A : Type) : Type :=
| Ok (a : A)
| Err (e : exn).

Arguments Ok {A} a.
Arguments Err {A} e.

(** ** Python built-ins used by the engine *)

Module Py.

(** [len(xs)] *)
Definition len {A} (xs : list A) : Z := Z.of_nat (length xs).

(** [int(x)] on a float: truncation toward zero. *)
Definition int (x : Q) : Z := Z.quot (Qnum x) (Z.pos (Qden x)).

(** [round(x)] on a float: to the nearest integer, ties to even. *)
Definition round (x : Q) : Z :=
  let f := Qfloor x in
  match Qcompare (x - inject_Z f) (1 # 2) with
  | Lt => f
  | Gt => (f + 1)%Z
  | Eq => if Z.even f then f else (f + 1)%Z
  end.

(** The binade of a positive rational [q]: the [e] with
    [2^e <= q < 2^(e+1)]. *)
Definition binade (q : Q) : Z :=
  let e := (Z.log2 (Qnum q) - Z.log2 (Z.pos (Qden q)))%Z in
  if Qle_bool (Qpower 2 e) q then e else (e - 1)%Z.

(** The double nearest to the rational [q], ties to even: a mantissa of
    53 bits, exponents down to -1022 and gradual underflow below.  From
    magnitude [2^53] on the value is kept as it is: every double there
    is an integer, and the model does not go into the rounding of
    integers of more than 53 bits nor into the overflow past the
    largest double (see [in_double_range]). *)
Definition double (q : Q) : Q :=
  if Qle_bool (Qpower 2 53) (Qabs q) then q
  else
    let ulp := Qpower 2 (Z.max (binade (Qabs q)) (-1022) - 52) in
    inject_Z (round (q / ulp)) * ulp.

(** [n * x] for an int [n] and a float [x]: [n] is converted to a
    float and the product is rounded to the nearest double.  A rational
    [x] that is no double stands for the double nearest to it, as the
    literal that denotes it does. *)
Definition mul_int_float (n : Z) (x : Q) : Q := double (inject_Z n * double x).

(** The int [n], the float [x] and their product are below [2^53] in
    magnitude: there the conversion of [n] is exact, the product is
    finite, and [mul_int_float n x] is the float Python computes. *)
Definition in_double_range (n : Z) (x : Q) : bool :=
  (Z.abs n <=? 2 ^ 53)%Z
  && negb (Qle_bool (Qpower 2 53) (Qabs x))
  && negb (Qle_bool (Qpower 2 53) (Qabs (inject_Z n * double x))).

(** [x % 1] on a float: the fractional part, in [[0, 1)]. *)
Definition mod1 (x : Q) : Q := x - inject_Z (Qfloor x).

(** The index a slice bound [k] denotes in a sequence of length [n]:
    negative bounds count from the end, and every bound is clamped
    to [[0, n]]. *)
Definition bound (n : nat) (k : Z) : nat :=
  Z.to_nat (Z.min (Z.of_nat n) (if (k <? 0)%Z then Z.max (Z.of_nat n + k) 0 else k)).

(** [xs[k:]] *)
Definition slice_from {A} (k : Z) (xs : list A) : list A :=
  skipn (bound (length xs) k) xs.

(** [xs[:k]] *)
Definition slice_to {A} (k : Z) (xs : list A) : list A :=
  firstn (bound (length xs) k) xs.

(** [xs * n] on lists: [n] copies of [xs] in a row, none when [n <= 0]. *)
Definition list_mul {A} (xs : list A) (n : Z) : list A :=
  concat (repeat xs (Z.to_nat n)).

(** [xs[i]] for [0 <= i]; [IndexError] past the end. *)
Definition getitem {A} (xs : list A) (i : nat) : result A :=
  match nth_error xs i with
  | Some x => Ok x
  | None => Err IndexError
  end.

(** [n // d] on ints: floor division, [ZeroDivisionError] when [d = 0]. *)
Definition floordiv (n d : Z) : result Z :=
  if (d =? 0)%Z then Err ZeroDivisionError else Ok (n / d)%Z.

(** [n % d] on ints: the remainder has the sign of [d]. *)
Definition mod_ (n d : Z) : result Z :=
  if (d =? 0)%Z then Err ZeroDivisionError else Ok (n mod d)%Z.

(** [n / d] on ints: true division, a float. *)
Definition truediv (n d : Z) : result Q :=
  if (d =? 0)%Z then Err ZeroDivisionError else Ok (inject_Z n / inject_Z d).

(** [range(n)] *)
Definition range (n : Z) : list nat := seq 0 (Z.to_nat n).

(** [x in [0, 1]] for a float [x]: membership compares with [==]. *)
Definition in_0_1 (x : Q) : bool := Qeq_bool x 0 || Qeq_bool x 1.

End Py.

(** ** Tensors *)

Module Torch.

Abbreviation chan := (list Q) (only parsing).
Abbreviation row := (list (list Q)) (only parsing).
Abbreviation tensor := (list (list (list Q))) (only parsing).

(** [len(t)]: the size of axis 0. *)
Definition len (t : tensor) : Z := Py.len t.

(** Element-wise combination of two lists of equal length; an axis of
    size one stretches over the other operand (broadcasting).  Where
    the sizes differ otherwise torch raises; the model keeps the
    common prefix. *)
Fixpoint map2 {A B C} (f : A -> B -> C) (xs : list A) (ys : list B) : list C :=
  match xs, ys with
  | x :: xs', y :: ys' => f x y :: map2 f xs' ys'
  | _, _ => []
  end.

Definition bmap2 {A} (f : A -> A -> A) (xs ys : list A) : list A :=
  match xs, ys with
  | [x], _ => map (f x) ys
  | _, [y] => map (fun x => f x y) xs
  | _, _ => map2 f xs ys
  end.

Definition lift2 (f : Q -> Q -> Q) (a b : tensor) : tensor :=
  bmap2 (bmap2 (bmap2 f)) a b.

(** [a + b], [a - b], [a * b] on tensors. *)
Definition add : tensor -> tensor -> tensor := lift2 Qplus.
Definition sub : tensor -> tensor -> tensor := lift2 Qminus.
Definition mul : tensor -> tensor -> tensor := lift2 Qmult.

Definition map_scalar (f : Q -> Q) (t : tensor) : tensor :=
  map (map (map f)) t.

(** [t * c], [c * t], [t / c] and [c - t] for a Python float [c]. *)
Definition muls (t : tensor) (c : Q) : tensor := map_scalar (fun x => x * c) t.
Definition smul (c : Q) (t : tensor) : tensor := map_scalar (fun x => c * x) t.
Definition divs (t : tensor) (c : Q) : tensor := map_scalar (fun x => x / c) t.
Definition rsub (c : Q) (t : tensor) : tensor := map_scalar (fun x => c - x) t.

(** [torch.cat(ts)]: concatenation along axis 0; an empty list of
    tensors is an error. *)
Definition cat (ts : list tensor) : result tensor :=
  match ts with
  | [] => Err (RuntimeError "torch.cat(): expected a non-empty list of Tensors")
  | _ => Ok (concat ts)
  end.

(** [torch.cat(ts, dim=1)]: row by row, the channels of the operands
    one after the other.  The operands must agree on the size of
    axis 0; the model keeps the common rows. *)
Fixpoint cat1 (ts : list tensor) : tensor :=
  match ts with
  | [] => []
  | [t] => t
  | t :: ts' => map2 (@app chan) t (cat1 ts')
  end.

(** [t.repeat(n, 1, 1)]: the rows of [t], [n] times over. *)
Definition repeat0 (t : tensor) (n : Z) : tensor :=
  concat (repeat t (Z.to_nat n)).

(** [t.repeat_interleave(n, 0)]: every row [n] times in a row. *)
Definition repeat_interleave (t : tensor) (n : Z) : tensor :=
  flat_map (fun r => repeat r (Z.to_nat n)) t.

(** Pieces of [size] rows each, the last one possibly shorter. *)
Fixpoint split (fuel : nat) (size : nat) (t : tensor) : list tensor :=
  match fuel, t with
  | _, [] => []
  | O, _ => []
  | S fuel', _ => firstn size t :: split fuel' size (skipn size t)
  end.

(** [t.chunk(n)]: pieces of [ceil(len(t) / n)] rows; [n] empty pieces
    for an empty tensor; an error unless [n > 0]. *)
Definition chunk (t : tensor) (n : Z) : result (list tensor) :=
  if (n <=? 0)%Z then Err (RuntimeError "chunk expects `chunks` to be greater than 0")
  else match t with
       | [] => Ok (repeat [] (Z.to_nat n))
       | _ => Ok (split (length t) (Z.to_nat ((Py.len t + n - 1) / n)) t)
       end.

(** The scalar at row [i], channel [j], offset [k] (zero outside). *)
Definition at3 (t : tensor) (i j k : nat) : Q :=
  nth k (nth j (nth i t []) []) 0.

(** The sizes of a tensor: for every row, the length of each channel. *)
Definition shape (t : tensor) : list (list nat) :=
  map (map (@length Q)) t.

(** Position [(i, j, k)] lies inside a tensor of shape [s]. *)
Definition inside (s : list (list nat)) (i j k : nat) : Prop :=
  (k < nth j (nth i s []) 0)%nat.

End Torch.

Import Torch.

(** ** Helpers of [src/core/utils.py] *)

Module Utils.

(** Modelled from the spec: [isset(a, name)] of [utils.py], which is not
    part of the sources at hand.  The spec speaks of an option that is
    "set" or "configured"; an attribute of the namespace [a] is kept as
    an [option], and it is set when it holds a value. *)
Definition isset {A} (attr : option A) : bool :=
  match attr with Some _ => true | None => false end.

(** Modelled from the spec: [isok(x, ...)] of [utils.py], which is not
    part of the sources at hand.  The spec reads it as "the tensors are
    present": every argument is given. *)
Definition isok (items : list (option tensor)) : bool :=
  forallb (fun x => match x with Some _ => true | None => false end) items.

End Utils.

Import Utils.

(** ** The engine's data *)

(** The argument namespace [a]; only the attributes the engine reads in
    the functions below.  Optional attributes are [None] when unset. *)
Record args : Type := {
  a_seed : option Z;
  a_mask : option string;
  a_img_scale : option Q;
  a_control_mod : option string;
  a_load_lora : option string;
  a_cfg_scale : Q;
  a_strength : Q;
  a_steps : Z;
  a_batch : Z;
  a_control_scale : Q;
  a_lowmem : bool
}.

Definition set_strength (a : args) (s : Q) : args :=
  {| a_seed := a.(a_seed); a_mask := a.(a_mask); a_img_scale := a.(a_img_scale);
     a_control_mod := a.(a_control_mod); a_load_lora := a.(a_load_lora);
     a_cfg_scale := a.(a_cfg_scale); a_strength := s; a_steps := a.(a_steps);
     a_batch := a.(a_batch); a_control_scale := a.(a_control_scale);
     a_lowmem := a.(a_lowmem) |}.

(** [torch.Generator]: the seed it was started from and how many draws
    it has served since. *)
Record generator : Type := {
  initial_seed : Z;
  draws : nat
}.

(** [torch.Generator("cuda").manual_seed(s)]: a new generator. *)
Definition manual_seed (s : Z) : generator :=
  {| initial_seed := s; draws := 0 |}.

(** The time argument of a denoiser call: a timestep of the scheduler
    (an int) or a batch of sigmas of the k-diffusion sampler. *)
Inductive tval : Type :=
| Timestep (t : Z)
| Sigmas (t : list Q).

(** The residuals of the control network, passed on as keyword
    arguments: [None] is the empty dictionary. *)
Definition ukwargs : Type := option (list tensor * tensor).

(** One call of the denoiser: the latent input, the time, the
    conditioning and the keyword arguments. *)
Record denoise_call : Type := {
  dc_x : tensor;
  dc_t : tval;
  dc_cond : tensor;
  dc_kw : ukwargs
}.

(** ** Computations: errors and the record of denoiser calls *)

Definition M (A : Type) : Type :=
  list denoise_call -> result (A * list denoise_call).

Definition ret {A} (a : A) : M A := fun log => Ok (a, log).

Definition bind {A B} (m : M A) (f : A -> M B) : M B :=
  fun log => match m log with
             | Ok (a, log') => f a log'
             | Err e => Err e
             end.

Definition lift {A} (r : result A) : M A :=
  fun log => match r with
             | Ok a => Ok (a, log)
             | Err e => Err e
             end.

Definition tell (c : denoise_call) : M unit := fun log => Ok (tt, log ++ [c]).

Declare Scope m_scope.
Delimit Scope m_scope with m.
Notation "x <- m ;; k" := (bind m (fun x => k))
  (at level 100, m at next level, right associativity) : m_scope.
Notation "' p <- m ;; k" := (bind m (fun x => match x with p => k end))
  (at level 100, p pattern, m at next level, right associativity) : m_scope.

(** Errors alone, for set-up code that calls no denoiser. *)
Definition rbind {A B} (r : result A) (f : A -> result B) : result B :=
  match r with
  | Ok a => f a
  | Err e => Err e
  end.

(** [assert c, msg] *)
Definition assert (c : bool) (msg : string) : result unit :=
  if c then Ok tt else Err (AssertionError msg).

(** [for x in xs: s = body(x, s)] *)
Fixpoint for_ {A S} (xs : list A) (body : A -> S -> M S) (s : S) : M S :=
  match xs with
  | [] => ret s
  | x :: xs' => bind (body x s) (for_ xs' body)
  end.

(** ** The objects handed to the engine *)

Class Backend : Type := {
  (** the scheduler object and its state *)
  sched : Type;
  set_timesteps : sched -> Z -> sched;
  sched_timesteps : sched -> list Z;
  sched_has_sigmas : bool;
  sched_sigmas : sched -> list Q;
  scale_model_input : sched -> tensor -> Z -> tensor;
  sched_step : sched -> tensor -> Z -> tensor -> sched * tensor;
  (** the denoiser, its k-diffusion wrapper and the control network *)
  unet : denoise_call -> tensor;
  kdiff_model : denoise_call -> tensor;
  cnet : tensor -> tval -> tensor -> tensor -> list tensor * tensor;
  (** the k-diffusion sampler chosen at load time *)
  sampling_fn : (tensor -> list Q -> M tensor) -> tensor -> list Q -> M tensor;
  (** the decoder and the configuration of the loaded models *)
  vae_decode : tensor -> tensor;
  vae_scaling_factor : Q;
  vae_block_out_channels : list Z;
  unet_sample_size : Z;
  unet_in_channels : Z;
  control_mod_exists : bool;
  accelerate_ok : bool;
  (** [x ** 0.5] on floats *)
  pow_half : Q -> Q
}.

(** ** Class [SDfu] *)

Section Engine.

Context {B : Backend}.

(** The attributes of an engine instance.  [a] is the namespace the
    engine was built from: [self.a] and the caller's [a] are one object,
    so a write to [a] in [final_setup] is a write to this field. *)
Record SDfu : Type := {
  a : args;
  scheduler : sched;
  use_kdiff : bool;
  use_cnet : bool;
  inpaintmod : bool;
  depthmod : bool;
  seed : Z;
  g_ : generator;
  vae_scale : Q;
  res : Q;
  sigmas : list Q;
  timesteps : list Z;
  lat_timestep : list Z;
  final_offload_hook : bool
}.

(** [setseed(self, seed=None)]; [now] is the value of [time.time()]. *)
Definition setseed (now : Q) (self : SDfu) (seed_arg : option Z) : SDfu :=
  let s := match seed_arg with
           | Some s => if (s =? 0)%Z then Py.int (Py.mod1 now * 69696) else s
           | None => Py.int (Py.mod1 now * 69696)
           end in
  {| a := self.(a); scheduler := self.(scheduler); use_kdiff := self.(use_kdiff);
     use_cnet := self.(use_cnet); inpaintmod := self.(inpaintmod);
     depthmod := self.(depthmod);
     seed := s;
     g_ := manual_seed s;
     vae_scale := self.(vae_scale); res := self.(res); sigmas := self.(sigmas);
     timesteps := self.(timesteps); lat_timestep := self.(lat_timestep);
     final_offload_hook := self.(final_offload_hook) |}.

(** [t.repeat(n)] on a one-axis tensor; a negative count is an error. *)
Definition repeat_1d (t : list Z) (n : Z) : result (list Z) :=
  if (n <? 0)%Z
  then Err (RuntimeError "Trying to create tensor with negative dimension")
  else Ok (concat (repeat t (Z.to_nat n))).

(** [set_steps(self, steps, strength=1., warmup=1)] *)
Definition set_steps (self : SDfu) (steps : Z) (strength : Q) (warmup : Z)
  : result SDfu :=
  let sch := set_timesteps self.(scheduler) steps in
  let steps := Z.min (Py.int (Py.mul_int_float steps strength)) steps in
  if self.(use_kdiff) then
    Ok {| a := self.(a); scheduler := sch; use_kdiff := self.(use_kdiff);
          use_cnet := self.(use_cnet); inpaintmod := self.(inpaintmod);
          depthmod := self.(depthmod); seed := self.(seed); g_ := self.(g_);
          vae_scale := self.(vae_scale); res := self.(res);
          sigmas := Py.slice_from (- steps - warmup) (sched_sigmas sch);
          timesteps := self.(timesteps); lat_timestep := self.(lat_timestep);
          final_offload_hook := self.(final_offload_hook) |}
  else
    let ts := Py.slice_from (- steps - warmup) (sched_timesteps sch) in
    rbind (repeat_1d (Py.slice_to 1 ts) self.(a).(a_batch)) (fun lt =>
    Ok {| a := self.(a); scheduler := sch; use_kdiff := self.(use_kdiff);
          use_cnet := self.(use_cnet); inpaintmod := self.(inpaintmod);
          depthmod := self.(depthmod); seed := self.(seed); g_ := self.(g_);
          vae_scale := self.(vae_scale); res := self.(res);
          sigmas := self.(sigmas);
          timesteps := ts; lat_timestep := lt;
          final_offload_hook := self.(final_offload_hook) |}).

(** The schedule of a run: the sigmas of the ODE family or the
    timesteps of the residual-scheduler family, by length. *)
Definition schedule_len (self : SDfu) : Z :=
  if self.(use_kdiff) then Py.len self.(sigmas) else Py.len self.(timesteps).

(** [final_setup(self, a)].  The depth estimator and the offload hooks
    it loads hold no value the functions below read, except whether a
    hook was allocated. *)
Definition final_setup (self : SDfu) : result SDfu :=
  let a0 := self.(a) in
  let scale := Qpower 2 (Py.len vae_block_out_channels - 1) in
  let size := inject_Z unet_sample_size * scale in
  let uchannels := unet_in_channels in
  let inpaint := (uchannels =? 9)%Z in
  rbind (assert (negb (inpaint && negb (isset a0.(a_mask))))
                "!! Inpainting model requires mask !!") (fun _ =>
  let depth := (uchannels =? 5)%Z in
  rbind (if isset a0.(a_img_scale)
         then rbind (assert (negb (self.(use_cnet) || Py.in_0_1 a0.(a_cfg_scale)))
                            "Use either Instruct-pix2pix or Controlnet guidance")
                    (fun _ => Ok (set_strength a0 1))
         else Ok a0) (fun a1 =>
  let self1 :=
    {| a := a1; scheduler := self.(scheduler); use_kdiff := self.(use_kdiff);
       use_cnet := self.(use_cnet); inpaintmod := inpaint;
       depthmod := depth; seed := self.(seed); g_ := self.(g_);
       vae_scale := scale; res := size; sigmas := self.(sigmas);
       timesteps := self.(timesteps); lat_timestep := self.(lat_timestep);
       final_offload_hook := self.(final_offload_hook) |} in
  rbind (set_steps self1 a1.(a_steps) a1.(a_strength) 1) (fun self2 =>
  if a1.(a_lowmem) then
    rbind (assert accelerate_ok " Install accelerate > 0.17 for model offloading")
          (fun _ =>
    Ok {| a := self2.(a); scheduler := self2.(scheduler);
          use_kdiff := self2.(use_kdiff); use_cnet := self2.(use_cnet);
          inpaintmod := self2.(inpaintmod); depthmod := self2.(depthmod);
          seed := self2.(seed); g_ := self2.(g_); vae_scale := self2.(vae_scale);
          res := self2.(res); sigmas := self2.(sigmas);
          timesteps := self2.(timesteps); lat_timestep := self2.(lat_timestep);
          final_offload_hook := true |})
  else Ok self2))).

(** [__init__(self, a, ...)], from the point where the models are
    loaded: the seed, the choice of the sampler family, the control
    network and the final set-up.  [sch0] is the scheduler as loaded. *)
Definition __init__ (now : Q) (a0 : args) (sch0 : sched) : result SDfu :=
  let self0 :=
    {| a := a0; scheduler := sch0; use_kdiff := false; use_cnet := false;
       inpaintmod := false; depthmod := false; seed := 0;
       g_ := manual_seed 0; vae_scale := 0; res := 0; sigmas := [];
       timesteps := []; lat_timestep := []; final_offload_hook := false |} in
  let self1 := setseed now self0 (if isset a0.(a_seed) then a0.(a_seed) else None) in
  rbind (if isset a0.(a_control_mod)
         then rbind (assert control_mod_exists "Not found ControlNet model")
                    (fun _ => Ok true)
         else Ok false) (fun has_cnet =>
  final_setup
    {| a := self1.(a); scheduler := self1.(scheduler);
       use_kdiff := sched_has_sigmas; use_cnet := has_cnet;
       inpaintmod := self1.(inpaintmod); depthmod := self1.(depthmod);
       seed := self1.(seed); g_ := self1.(g_); vae_scale := self1.(vae_scale);
       res := self1.(res); sigmas := self1.(sigmas);
       timesteps := self1.(timesteps); lat_timestep := self1.(lat_timestep);
       final_offload_hook := self1.(final_offload_hook) |}).

(** *** [generate] *)

Local Open Scope m_scope.

(** A call of [self.unet] or of [self.kdiff_model]: the call is put on
    record and the prediction returned. *)
Definition call_unet (c : denoise_call) : M tensor :=
  _ <- tell c ;; ret (unet c).

Definition call_kdiff_model (c : denoise_call) : M tensor :=
  _ <- tell c ;; ret (kdiff_model c).

(** [if cws is None or not len(cws) == len(cs): cws = [1 / len(cs)] * len(cs)] *)
Definition default_cws (cws : option (list Q)) (cs : tensor) : result (list Q) :=
  let uniform :=
    rbind (Py.truediv 1 (Torch.len cs)) (fun w =>
    Ok (Py.list_mul [w] (Torch.len cs))) in
  match cws with
  | None => uniform
  | Some w => if (Py.len w =? Torch.len cs)%Z then Ok w else uniform
  end.

(** The conditioning of a run:
    [uc if cfg_scale==0 else cs[:batch] if cfg_scale==1 else
     torch.cat([uc, cs]) if ilat is None else torch.cat([uc, uc, cs])],
    after [uc] and [cs] were repeated for a batch above one.  (The
    cast [conds.float()] that follows changes the type of the scalars,
    not their value.) *)
Definition conds_of (self : SDfu) (cfg_scale : Q) (uc cs : tensor)
    (ilat : option tensor) : tensor :=
  let batch := self.(a).(a_batch) in
  let uc := if (batch >? 1)%Z then repeat0 uc batch else uc in
  let cs := if (batch >? 1)%Z then repeat_interleave cs batch else cs in
  if Qeq_bool cfg_scale 0 then uc
  else if Qeq_bool cfg_scale 1 then Py.slice_to batch cs
  else match ilat with
       | None => uc ++ cs
       | Some _ => uc ++ uc ++ cs
       end.

(** [x.repeat_interleave(len(conds) // len(x), 0)] for an optional [x] *)
Definition expand_to (conds : tensor) (x : option tensor) : result (option tensor) :=
  match x with
  | None => Ok None
  | Some x => rbind (Py.floordiv (Torch.len conds) (Torch.len x)) (fun n =>
              Ok (Some (repeat_interleave x n)))
  end.

(** The side channels of the inpainting and of the depth model. *)
Definition inject (self : SDfu) (mask masked_lat depth : option tensor)
    (x : tensor) : tensor :=
  if isok [mask; masked_lat] && self.(inpaintmod) then
    match mask, masked_lat with
    | Some m, Some ml => cat1 [x; rsub 1 m; ml]
    | _, _ => x
    end
  else if isok [depth] && self.(depthmod) then
    match depth with
    | Some d => cat1 [x; d]
    | None => x
    end
  else x.

(** The residuals of the control network, scaled by [control_scale];
    without a control image the keyword arguments stay as they were. *)
Definition control (self : SDfu) (x : tensor) (t : tval) (conds : tensor)
    (cimg : option tensor) (kw : ukwargs) : ukwargs :=
  match cimg with
  | Some ci =>
      if self.(use_cnet) then
        let '(ctl_downs, ctl_mid) := cnet x t conds ci in
        Some (map (fun d => muls d self.(a).(a_control_scale)) ctl_downs,
              muls ctl_mid self.(a).(a_control_scale))
      else kw
  | None => kw
  end.

(** One pass of the guidance loop
    [for i in range(len(noises)-first):
       noise_pred = noise_pred + (noises[i+first] - noises[base]) * cfg_scale * cws[i % len(cws)]],
    which the source writes with [first = 1], [base = 0] for prompt
    guidance and with [first = 2], [base = 1] for pixel-edit guidance. *)
Definition guidance_body (noises : list tensor) (first base : nat)
    (cfg_scale : Q) (cws : list Q) (acc : result tensor) (i : nat)
  : result tensor :=
  rbind acc (fun noise_pred =>
  rbind (Py.getitem noises (i + first)) (fun ni =>
  rbind (Py.getitem noises base) (fun nb =>
  rbind (Py.mod_ (Z.of_nat i) (Py.len cws)) (fun j =>
  rbind (Py.getitem cws (Z.to_nat j)) (fun w =>
  Ok (add noise_pred (muls (muls (sub ni nb) cfg_scale) w))))))).

(** The loop over [range(len(noises) - first)]. *)
Definition guidance_loop (noises : list tensor) (first base : nat)
    (cfg_scale : Q) (cws : list Q) (noise_pred : tensor) : result tensor :=
  fold_left (guidance_body noises first base cfg_scale cws)
    (Py.range (Py.len noises - Z.of_nat first))
    (Ok noise_pred).

(** [noise_pred = noises[0]] and the loop over the prompts. *)
Definition prompt_guidance (noises : list tensor) (cfg_scale : Q) (cws : list Q)
  : result tensor :=
  rbind (Py.getitem noises 0) (fun n0 =>
  guidance_loop noises 1 0 cfg_scale cws n0).

(** [noise_pred = noises[0] + img_scale * (noises[1] - noises[0])] and
    the loop over the prompts. *)
Definition pix2pix_guidance (noises : list tensor) (img_scale cfg_scale : Q)
    (cws : list Q) : result tensor :=
  rbind (Py.getitem noises 0) (fun n0 =>
  rbind (Py.getitem noises 1) (fun n1 =>
  guidance_loop noises 2 1 cfg_scale cws (add n0 (smul img_scale (sub n1 n0))))).

(** The values a run keeps fixed over its steps. *)
Record run : Type := {
  r_cfg_scale : Q;
  r_cws : list Q;
  r_conds : tensor;
  r_bs : Z;
  r_cimg : option tensor;
  r_ilat : option tensor;
  r_mask : option tensor;
  r_masked_lat : option tensor;
  r_depth : option tensor
}.

(** The body of [for t in self.timesteps[offset:]]; the state is the
    latent, the keyword arguments and the scheduler. *)
Definition denoise_step (self : SDfu) (r : run) (t : Z)
    (st : tensor * ukwargs * sched) : M (tensor * ukwargs * sched) :=
  let '(lat, kw, sch) := st in
  let lat_in := scale_model_input sch lat t in
  let lat_in := inject self r.(r_mask) r.(r_masked_lat) r.(r_depth) lat_in in
  lat_in <- lift (Torch.cat (Py.list_mul [lat_in] r.(r_bs))) ;;
  let kw := control self lat_in (Timestep t) r.(r_conds) r.(r_cimg) kw in
  noise_pred <-
    (if Py.in_0_1 r.(r_cfg_scale) then
       call_unet {| dc_x := lat_in; dc_t := Timestep t;
                    dc_cond := r.(r_conds); dc_kw := kw |}
     else
       match r.(r_ilat), self.(a).(a_img_scale) with
       | Some ilat, Some img_scale =>
           out <- call_unet {| dc_x := cat1 [lat_in; ilat]; dc_t := Timestep t;
                               dc_cond := r.(r_conds); dc_kw := None |} ;;
           noises <- lift (chunk out r.(r_bs)) ;;
           lift (pix2pix_guidance noises img_scale r.(r_cfg_scale) r.(r_cws))
       | _, _ =>
           out <- call_unet {| dc_x := lat_in; dc_t := Timestep t;
                               dc_cond := r.(r_conds); dc_kw := kw |} ;;
           noises <- lift (chunk out r.(r_bs)) ;;
           lift (prompt_guidance noises r.(r_cfg_scale) r.(r_cws))
       end) ;;
  let '(sch', lat') := sched_step sch noise_pred t lat in
  ret (lat', kw, sch').

(** [self.sigmas[(self.sigmas == t0).nonzero().item()]]: the one sigma
    of the schedule equal to [t0]. *)
Definition sigma_at (sigmas : list Q) (t0 : Q) : result Q :=
  match filter (fun s => Qeq_bool s t0) sigmas with
  | [s] => Ok s
  | _ => Err (RuntimeError "only one element tensors can be converted to Python scalars")
  end.

(** [torch.cat([t] * bs)] on a one-axis tensor *)
Definition cat_1d (ts : list (list Q)) : result (list Q) :=
  match ts with
  | [] => Err (RuntimeError "torch.cat(): expected a non-empty list of Tensors")
  | _ => Ok (concat ts)
  end.

(** [model_fn(x, t)], the denoiser handed to the k-diffusion sampler.
    In the pixel-edit branch [noises] is the prediction itself, not
    its chunks: [noises[i]] is row [i] and [len(noises)] counts rows.
    (A row, a tensor of one rank less, is kept as the one-row tensor it
    broadcasts like.) *)
Definition model_fn (self : SDfu) (r : run) (x : tensor) (t : list Q) : M tensor :=
  let kw : ukwargs := None in
  let x := inject self r.(r_mask) r.(r_masked_lat) r.(r_depth) x in
  x <- lift (Torch.cat (Py.list_mul [x] r.(r_bs))) ;;
  t <- lift (cat_1d (Py.list_mul [t] r.(r_bs))) ;;
  let kw := control self x (Sigmas t) r.(r_conds) r.(r_cimg) kw in
  if Py.in_0_1 r.(r_cfg_scale) then
    call_kdiff_model {| dc_x := x; dc_t := Sigmas t;
                        dc_cond := r.(r_conds); dc_kw := kw |}
  else
    match r.(r_ilat), self.(a).(a_img_scale) with
    | Some ilat, Some img_scale =>
        t0 <- lift (Py.getitem t 0) ;;
        sigma <- lift (sigma_at self.(sigmas) t0) ;;
        let x_scaled := divs x (pow_half (sigma * sigma + 1)) in
        out <- call_kdiff_model {| dc_x := cat1 [x_scaled; ilat]; dc_t := Sigmas t;
                                   dc_cond := r.(r_conds); dc_kw := None |} ;;
        let noises := map (fun row => [row]) out in
        lift (pix2pix_guidance noises img_scale r.(r_cfg_scale) r.(r_cws))
    | _, _ =>
        out <- call_kdiff_model {| dc_x := x; dc_t := Sigmas t;
                                   dc_cond := r.(r_conds); dc_kw := kw |} ;;
        noises <- lift (chunk out r.(r_bs)) ;;
        lift (prompt_guidance noises r.(r_cfg_scale) r.(r_cws))
    end.

(** [masked_lat * mask + lat * (1.-mask)] *)
Definition composite (masked_lat mask lat : tensor) : tensor :=
  add (mul masked_lat mask) (mul lat (rsub 1 mask)).

(** The first lines of [generate]: the weights, the conditioning, the
    number of conditioning blocks and the expanded side inputs. *)
Definition prepare (self : SDfu) (cs uc : tensor) (cfg_scale : option Q)
    (mask masked_lat depth : option tensor) (cws : option (list Q))
    (cimg ilat : option tensor) : result run :=
  let cfg_scale := match cfg_scale with
                   | None => self.(a).(a_cfg_scale)
                   | Some c => c
                   end in
  rbind (default_cws cws cs) (fun cws =>
  let conds := conds_of self cfg_scale uc cs ilat in
  rbind (Py.floordiv (Torch.len conds) self.(a).(a_batch)) (fun bs =>
  rbind (expand_to conds cimg) (fun cimg =>
  rbind (expand_to conds ilat) (fun ilat =>
  Ok {| r_cfg_scale := cfg_scale; r_cws := cws; r_conds := conds; r_bs := bs;
        r_cimg := cimg; r_ilat := ilat; r_mask := mask;
        r_masked_lat := masked_lat; r_depth := depth |})))).

(** The sampling of [generate]: the k-diffusion sampler over
    [self.sigmas[offset:]], or the loop over [self.timesteps[offset:]]. *)
Definition sample (self : SDfu) (r : run) (lat : tensor) (offset : Z) : M tensor :=
  if self.(use_kdiff) then
    sampling_fn (model_fn self r) lat (Py.slice_from offset self.(sigmas))
  else
    st <- for_ (Py.slice_from offset self.(timesteps)) (denoise_step self r)
               (lat, None, self.(scheduler)) ;;
    ret (fst (fst st)).

(** The end of [generate]: the composite of inpainting with a standard
    model, the scaling and the decoder.  (A latent of five axes is a
    video; its frames go through the same decoder.) *)
Definition finish (self : SDfu) (r : run) (lat : tensor) : tensor :=
  let lat :=
    if isok [r.(r_mask); r.(r_masked_lat)] && negb self.(inpaintmod) then
      match r.(r_mask), r.(r_masked_lat) with
      | Some mask, Some masked_lat => composite masked_lat mask lat
      | _, _ => lat
      end
    else lat in
  let lat := divs lat vae_scaling_factor in
  vae_decode lat.

(** [generate(self, lat, cs, uc, cfg_scale=None, mask=None,
    masked_lat=None, depth=None, cws=None, cimg=None, ilat=None,
    offset=0)] *)
Definition generate (self : SDfu) (lat cs uc : tensor) (cfg_scale : option Q)
    (mask masked_lat depth : option tensor) (cws : option (list Q))
    (cimg ilat : option tensor) (offset : Z) : M tensor :=
  r <- lift (prepare self cs uc cfg_scale mask masked_lat depth cws cimg ilat) ;;
  lat <- sample self r lat offset ;;
  ret (finish self r lat).

End Engine.

(** ** The formulas of the specification

    The combination of the predictions as the specification writes it,
    for one scalar position of the tensors: [u] is the unconditional
    prediction there, [texts] the predictions of the prompts in their
    order. *)

(** The weight of prompt [i]: the index wraps modulo the number of weights. *)
Definition weight (cws : list Q) (i : nat) : Q :=
  nth (i mod length cws) cws 0.

(** [sum over i of cfg_scale * weight_i * (text_i - base)], from prompt [i] on. *)
Fixpoint guidance_sum (cfg_scale : Q) (cws : list Q) (base : Q) (i : nat)
    (texts : list Q) : Q :=
  match texts with
  | [] => 0
  | t :: texts' =>
      cfg_scale * weight cws i * (t - base)
      + guidance_sum cfg_scale cws base (S i) texts'
  end.

(** [uncond + sum over i of cfg_scale * weight_i * (text_i - uncond)] *)
Definition spec_prompt_guidance (cfg_scale : Q) (cws : list Q) (u : Q)
    (texts : list Q) : Q :=
  u + guidance_sum cfg_scale cws u 0 texts.

(** [uncond + image_scale * (image_guided - uncond)
     + sum over i of cfg_scale * weight_i * (text_i - image_guided)] *)
Definition spec_pix2pix_guidance (img_scale cfg_scale : Q) (cws : list Q)
    (u g : Q) (texts : list Q) : Q :=
  u + img_scale * (g - u) + guidance_sum cfg_scale cws g 0 texts.

(** The guidance loop over the indices [idxs] when no index is out of
    range: the tensor it leaves in [noise_pred]. *)
Definition guidance_fold (noises : list tensor) (first base : nat)
    (cfg_scale : Q) (cws : list Q) (idxs : list nat) (noise_pred : tensor)
  : tensor :=
  fold_left
    (fun acc i =>
       add acc (muls (muls (sub (nth (i + first) noises []) (nth base noises []))
                        cfg_scale)
                  (weight cws i)))
    idxs noise_pred.

(** The tensors of a list at one position. *)
Definition at_all (ts : list tensor) (i j k : nat) : list Q :=
  map (fun t => at3 t i j k) ts.

(** Every channel of the tensor has [n] scalars. *)
Definition channels_of_length (n : nat) (t : tensor) : Prop :=
  Forall (Forall (fun c : list Q => length c = n)) t.

(** Every tensor of the list has the shape [s]. *)
Definition all_shaped (s : list (list nat)) (ts : list tensor) : Prop :=
  Forall (fun t => shape t = s) ts.

(** The last [k] entries of a list (all of it when it has fewer). *)
Definition last_entries {A} (k : nat) (xs : list A) : list A :=
  skipn (length xs - k) xs.

(** The engine [self] built from the namespace [a'] instead of its own. *)
Definition with_args {B : Backend} (self : SDfu) (a' : args) : SDfu :=
  {| a := a'; scheduler := self.(scheduler); use_kdiff := self.(use_kdiff);
     use_cnet := self.(use_cnet); inpaintmod := self.(inpaintmod);
     depthmod := self.(depthmod); seed := self.(seed); g_ := self.(g_);
     vae_scale := self.(vae_scale); res := self.(res); sigmas := self.(sigmas);
     timesteps := self.(timesteps); lat_timestep := self.(lat_timestep);
     final_offload_hook := self.(final_offload_hook) |}.

(** The full schedule of the scheduler for [steps] steps, by family. *)
Definition full_timesteps {B : Backend} (self : SDfu) (steps : Z) : list Z :=
  sched_timesteps (set_timesteps self.(scheduler) steps).

Definition full_sigmas {B : Backend} (self : SDfu) (steps : Z) : list Q :=
  sched_sigmas (set_timesteps self.(scheduler) steps).

(** ** Stand-ins for the loaded objects

    A scheduler with [n] evenly spaced descending timesteps and [n + 1]
    descending sigmas, the Euler sampler of k-diffusion, and networks
    that return a fixed prediction. *)

Module Fixture.

Definition timesteps_for (n : Z) : list Z :=
  map (fun i => (n - 1 - Z.of_nat i) * (1000 / n))%Z (seq 0 (Z.to_nat n)).

Definition sigmas_for (n : Z) : list Q :=
  map (fun i => inject_Z (n - Z.of_nat i)) (seq 0 (Z.to_nat (n + 1))).

(** [sample_euler(model, x, sigmas)] with no churn:
    [denoised = model(x, sigma_i * s_in);
     d = (x - denoised) / sigma_i;
     x = x + d * (sigma_{i+1} - sigma_i)]. *)
Fixpoint sample_euler (model : tensor -> list Q -> M tensor) (x : tensor)
    (sigmas : list Q) : M tensor :=
  match sigmas with
  | s :: ((s' :: _) as rest) =>
      bind (model x (repeat s (length x))) (fun denoised =>
      sample_euler model (add x (muls (divs (sub x denoised) s) (s' - s))) rest)
  | _ => ret x
  end.

Definition stub (prediction : tensor) (kdiff : bool) (channels : Z) : Backend :=
  {| sched := Z;
     set_timesteps := fun _ n => n;
     sched_timesteps := timesteps_for;
     sched_has_sigmas := kdiff;
     sched_sigmas := sigmas_for;
     scale_model_input := fun _ x _ => x;
     sched_step := fun sch noise _ lat => (sch, sub lat noise);
     unet := fun _ => prediction;
     kdiff_model := fun _ => prediction;
     cnet := fun x _ _ _ => ([x], x);
     sampling_fn := sample_euler;
     vae_decode := fun x => x;
     vae_scaling_factor := 1;
     vae_block_out_channels := [128; 256; 512; 512]%Z;
     unet_sample_size := 64;
     unet_in_channels := channels;
     control_mod_exists := true;
     accelerate_ok := true;
     pow_half := fun x => x |}.

(** The namespace of the command line's defaults, with the given
    batch, guidance scale and strength. *)
Definition namespace (batch : Z) (cfg_scale strength : Q) : args :=
  {| a_seed := None; a_mask := None; a_img_scale := None;
     a_control_mod := None; a_load_lora := None;
     a_cfg_scale := cfg_scale; a_strength := strength; a_steps := 50;
     a_batch := batch; a_control_scale := 1; a_lowmem := false |}.

Definition with_img_scale (a : args) (s : Q) : args :=
  {| a_seed := a.(a_seed); a_mask := a.(a_mask); a_img_scale := Some s;
     a_control_mod := a.(a_control_mod); a_load_lora := a.(a_load_lora);
     a_cfg_scale := a.(a_cfg_scale); a_strength := a.(a_strength);
     a_steps := a.(a_steps); a_batch := a.(a_batch);
     a_control_scale := a.(a_control_scale); a_lowmem := a.(a_lowmem) |}.

Definition with_control_mod (a : args) (path : string) : args :=
  {| a_seed := a.(a_seed); a_mask := a.(a_mask); a_img_scale := a.(a_img_scale);
     a_control_mod := Some path; a_load_lora := a.(a_load_lora);
     a_cfg_scale := a.(a_cfg_scale); a_strength := a.(a_strength);
     a_steps := a.(a_steps); a_batch := a.(a_batch);
     a_control_scale := a.(a_control_scale); a_lowmem := a.(a_lowmem) |}.

(** An engine before [final_setup], as [__init__] hands it over. *)
Definition fresh {B : Backend} (a0 : args) (sch0 : sched) (cnet_loaded : bool)
  : SDfu :=
  {| a := a0; scheduler := sch0; use_kdiff := sched_has_sigmas;
     use_cnet := cnet_loaded; inpaintmod := false; depthmod := false;
     seed := 1; g_ := manual_seed 1; vae_scale := 0; res := 0;
     sigmas := []; timesteps := []; lat_timestep := [];
     final_offload_hook := false |}.

Definition with_mask (a : args) (path : string) : args :=
  {| a_seed := a.(a_seed); a_mask := Some path; a_img_scale := a.(a_img_scale);
     a_control_mod := a.(a_control_mod); a_load_lora := a.(a_load_lora);
     a_cfg_scale := a.(a_cfg_scale); a_strength := a.(a_strength);
     a_steps := a.(a_steps); a_batch := a.(a_batch);
     a_control_scale := a.(a_control_scale); a_lowmem := a.(a_lowmem) |}.

(** A standard model on a residual scheduler, the same on a
    k-diffusion sampler, and an inpainting model. *)
Definition ddim : Backend := stub [[[1]]] false 4.
Definition euler : Backend := stub [[[1]]] true 4.
Definition inpaint9 : Backend := stub [[[1]]] false 9.

(** Half a second past a whole second. *)
Definition half_past : Q := 3400000001 # 2.

(** Engines before [final_setup], built from the defaults of the
    command line with the given strength. *)
Definition ddim_engine (strength : Q) : @SDfu ddim :=
  @fresh ddim (namespace 1 7 strength) 0%Z false.
Definition euler_engine (strength : Q) : @SDfu euler :=
  @fresh euler (namespace 1 7 strength) 0%Z false.
Definition inpaint9_engine : @SDfu inpaint9 :=
  @fresh inpaint9 (namespace 1 7 (3 # 4)) 0%Z false.

(** Pixel-edit guidance asked for, without and with a control network. *)
Definition pix2pix_engine (strength : Q) : @SDfu ddim :=
  @fresh ddim (with_img_scale (namespace 1 7 strength) (3 # 2)) 0%Z false.
Definition pix2pix_cnet_engine : @SDfu ddim :=
  @fresh ddim (with_control_mod (with_img_scale (namespace 1 7 (3 # 4)) (3 # 2))
                 "canny") 0%Z true.

(** An inpainting model with a mask configured, and a run of it on a
    latent of two positions. *)
Definition inpaint_mask_engine : @SDfu inpaint9 :=
  @fresh inpaint9 (with_mask (namespace 1 7 (3 # 4)) "mask.png") 0%Z false.
Definition inpaint_ready : @SDfu inpaint9 :=
  @Build_SDfu inpaint9 (with_mask (namespace 1 7 (3 # 4)) "mask.png") 50%Z
    false false true false 1%Z (manual_seed 1) 8 512 []
    (Py.slice_from (-38) (timesteps_for 50)) [740%Z] false.
Definition mask01 : tensor := [[[0; 1]]].
Definition masked56 : tensor := [[[5; 6]]].
Definition inpaint_run : run :=
  {| r_cfg_scale := 7; r_cws := [1]; r_conds := [[[0]]; [[1]]]; r_bs := 2;
     r_cimg := None; r_ilat := None; r_mask := Some mask01;
     r_masked_lat := Some masked56; r_depth := None |}.

(** A standard model inpainting the latent [[9, 10]] over the last two
    timesteps of its schedule: the output with the mask and the masked
    latent, and the output of the same run without them (the decoder of
    the stand-in is the identity and its scaling factor is one). *)
Definition inpaint_standard_output : result tensor :=
  rbind (final_setup (ddim_engine (3 # 4))) (fun self =>
  match generate self [[[9; 10]]] [[[1]]] [[[0]]] None (Some mask01)
          (Some masked56) None None None None 36 [] with
  | Ok (out, _) => Ok out
  | Err e => Err e
  end).

Definition plain_output : result tensor :=
  rbind (final_setup (ddim_engine (3 # 4))) (fun self =>
  match generate self [[[9; 10]]] [[[1]]] [[[0]]] None None None None None None
          None 36 [] with
  | Ok (out, _) => Ok out
  | Err e => Err e
  end).

(** The schedule of the k-diffusion family for 50 steps at strength
    0.375, and the number of denoiser calls of a run over its last three
    sigmas (offset 16) with the Euler sampler, which calls the model
    once for every interval between two sigmas. *)
Definition euler_schedule : result (list Q) :=
  rbind (set_steps (euler_engine (3 # 8)) 50 (3 # 8) 1) (fun self =>
  Ok (sigmas self)).

Definition euler_calls : result Z :=
  rbind (set_steps (euler_engine (3 # 8)) 50 (3 # 8) 1) (fun self =>
  match generate self [[[9; 10]]] [[[1]]] [[[0]]] None None None None None None
          None 16 [] with
  | Ok (_, log) => Ok (Py.len log)
  | Err e => Err e
  end).

(** A standard model with a batch of two. *)
Definition batch2_engine : @SDfu ddim :=
  @fresh ddim (namespace 2 7 (3 # 4)) 0%Z false.

(** Pixel-edit guidance on the k-diffusion family with a batch of two:
    the denoiser returns six rows, the predictions [uncond, image-guided,
    text] for the two samples of the batch. *)
Definition six_rows : tensor :=
  [[[1]]; [[2]]; [[10]]; [[20]]; [[100]]; [[200]]].
Definition euler_six : Backend := stub six_rows true 4.
Definition pix2pix_euler_engine : @SDfu euler_six :=
  @fresh euler_six (with_img_scale (namespace 2 7 1) (3 # 2)) 0%Z false.

(** The same predictions on the residual-scheduler family. *)
Definition ddim_six : Backend := stub six_rows false 4.
Definition pix2pix_ddim_engine : @SDfu ddim_six :=
  @fresh ddim_six (with_img_scale (namespace 2 7 1) (3 # 2)) 0%Z false.

(** One prompt, an edit latent, a latent of two samples: what [model_fn]
    returns at sigma 50, and the latent after one pass of the loop over
    the timesteps at timestep 980. *)
Definition pix2pix_model_fn_prediction : result tensor :=
  rbind (final_setup pix2pix_euler_engine) (fun self =>
  rbind (prepare self [[[1]]] [[[0]]] None None None None None None (Some [[[5]]]))
        (fun r =>
  match model_fn self r [[[1]]; [[1]]] [50; 50] [] with
  | Ok (noise_pred, _) => Ok noise_pred
  | Err e => Err e
  end)).

Definition pix2pix_loop_latent : result tensor :=
  rbind (final_setup pix2pix_ddim_engine) (fun self =>
  rbind (prepare self [[[1]]] [[[0]]] None None None None None None (Some [[[5]]]))
        (fun r =>
  match denoise_step self r 980 ([[[1]]; [[1]]], None, scheduler self) [] with
  | Ok (st, _) => Ok (fst (fst st))
  | Err e => Err e
  end)).

End Fixture.

(** ** Runs that differ in the prompt weights only *)

Definition same_but_weights (r1 r2 : run) : Prop :=
  r_cfg_scale r1 = r_cfg_scale r2
  /\ r_conds r1 = r_conds r2
  /\ r_bs r1 = r_bs r2
  /\ r_cimg r1 = r_cimg r2
  /\ r_ilat r1 = r_ilat r2
  /\ r_mask r1 = r_mask r2
  /\ r_masked_lat r1 = r_masked_lat r2
  /\ r_depth r1 = r_depth r2.

(** ** DDIM inversion *)

(** The attributes of the scheduler that [next_step_ddim] reads:
    [config.num_train_timesteps], [num_inference_steps] (an int once
    [set_timesteps] has run, as it has in every engine that was set up),
    [alphas_cumprod] and [final_alpha_cumprod]. *)
Record ddim_tables : Type := {
  num_train_timesteps : Z;
  num_inference_steps : Z;
  alphas_cumprod : list Q;
  final_alpha_cumprod : Q
}.

(** [xs[i]] on a one-axis tensor for an int [i] of either sign: a
    negative index counts from the end, [IndexError] outside. *)
Definition tensor_index (xs : list Q) (i : Z) : result Q :=
  if (i <? - Py.len xs)%Z || (Py.len xs <=? i)%Z then Err IndexError
  else Py.getitem xs (Z.to_nat (if (i <? 0)%Z then Py.len xs + i else i)).

Section Inversion.

Context {B : Backend}.

(** The scheduler's tables, read off its state. *)
Variable tables : sched -> ddim_tables.

(** Lines 240-243 of [next_step_ddim], for the two cumulative alphas
    looked up before.  (Where [alpha_prod_t ** 0.5] is zero torch
    divides to infinities; the properties below are stated where it is
    not.) *)
Definition ddim_update (alpha_prod_t alpha_prod_t_next : Q) (noise sample : tensor)
  : tensor :=
  let beta_prod_t := 1 - alpha_prod_t in
  let next_original_sample :=
    divs (sub sample (smul (pow_half beta_prod_t) noise)) (pow_half alpha_prod_t) in
  let next_sample_direction := smul (pow_half (1 - alpha_prod_t_next)) noise in
  add (smul (pow_half alpha_prod_t_next) next_original_sample) next_sample_direction.

(** [next_step_ddim(self, noise, t, sample)] *)
Definition next_step_ddim (self : SDfu) (noise : tensor) (t : Z) (sample : tensor)
  : result tensor :=
  let tb := tables self.(scheduler) in
  rbind (Py.floordiv tb.(num_train_timesteps) tb.(num_inference_steps)) (fun k =>
  let next_t := t in
  let t := Z.min (t - k) 999 in
  rbind (if (t >=? 0)%Z then tensor_index tb.(alphas_cumprod) t
         else Ok tb.(final_alpha_cumprod)) (fun alpha_prod_t =>
  rbind (tensor_index tb.(alphas_cumprod) next_t) (fun alpha_prod_t_next =>
  Ok (ddim_update alpha_prod_t alpha_prod_t_next noise sample)))).

Local Open Scope m_scope.

(** The body of [for t in reversed(self.scheduler.timesteps)]; the
    state is the latent and the keyword arguments. *)
Definition ddim_inv_step (self : SDfu) (cond : tensor) (cimg : option tensor) (t : Z)
    (st : tensor * ukwargs) : M (tensor * ukwargs) :=
  let '(lat, kw) := st in
  let kw := control self lat (Timestep t) cond cimg kw in
  noise_pred <- call_unet {| dc_x := lat; dc_t := Timestep t;
                             dc_cond := cond; dc_kw := kw |} ;;
  lat <- lift (next_step_ddim self noise_pred t lat) ;;
  ret (lat, kw).

(** [ddim_inv(self, lat, cond, cimg=None)].  (The cast [cond.float()]
    changes the type of the scalars, not their value.) *)
Definition ddim_inv (self : SDfu) (lat cond : tensor) (cimg : option tensor)
  : M tensor :=
  st <- for_ (rev (sched_timesteps self.(scheduler))) (ddim_inv_step self cond cimg)
             (lat, None) ;;
  ret (fst st).

End Inversion.

(** ** Encoding an image: [img_lat] *)

Section Encoding.

Context {B : Backend}.

(** The encoder of the VAE: the mean of the posterior it returns, and a
    draw from it, which advances the global random state [rng]. *)
Variable rng : Type.
Variable encode_mean : tensor -> tensor.
Variable encode_sample : tensor -> rng -> tensor * rng.

(** [img_lat(self, image, deterministic=False)].  (The cast
    [image.half()] changes the type of the scalars.) *)
Definition img_lat (self : SDfu) (image : tensor) (deterministic : bool) (g : rng)
  : result (tensor * rng) :=
  let '(lats, g) := if deterministic then (encode_mean image, g)
                    else encode_sample image g in
  let lats := muls lats vae_scaling_factor in
  rbind (Torch.cat (Py.list_mul [lats] self.(a).(a_batch))) (fun out =>
  Ok (out, g)).

End Encoding.

(** ** The depth map: [prep_depth] *)

Definition qmin (x y : Q) : Q := if Qle_bool x y then x else y.
Definition qmax (x y : Q) : Q := if Qle_bool x y then y else x.

(** [torch.amin(dd, dim=[1,2,3])] and [torch.amax] for one row of the
    batch: the least and the greatest of its scalars, an error when it
    has none. *)
Definition amin (r : list (list Q)) : result Q :=
  match concat r with
  | [] => Err (RuntimeError "amin(): Expected reduction dim to have non-zero size")
  | x :: xs => Ok (fold_left qmin xs x)
  end.

Definition amax (r : list (list Q)) : result Q :=
  match concat r with
  | [] => Err (RuntimeError "amax(): Expected reduction dim to have non-zero size")
  | x :: xs => Ok (fold_left qmax xs x)
  end.

(** [2. * (dd - depth_min) / (depth_max - depth_min) - 1.] for one row
    of the batch.  Where the row is constant the division is [0 / 0] at
    every position and torch fills the row with nan: [None] stands for
    such a row. *)
Definition normalize_depth (r : list (list Q)) : result (option (list (list Q))) :=
  rbind (amin r) (fun depth_min =>
  rbind (amax r) (fun depth_max =>
  if Qeq_bool (depth_max - depth_min) 0 then Ok None
  else Ok (Some (map (map (fun x => 2 * (x - depth_min) / (depth_max - depth_min) - 1))
                   r)))).

Fixpoint collect {A} (rs : list (result A)) : result (list A) :=
  match rs with
  | [] => Ok []
  | r :: rs' => rbind r (fun x => rbind (collect rs') (fun xs => Ok (x :: xs)))
  end.

(** [prep_depth(self, init_image)]; [estimate] is the depth estimator
    with the resizing before and after it (lines 298-301). *)
Definition prep_depth (estimate : tensor -> tensor) (init_image : tensor)
  : result (list (option (list (list Q)))) :=
  let dd := estimate init_image in
  collect (map normalize_depth dd).

(** ** Class [ModelWrapper] *)

Module ModelWrapper.

Inductive error : Type :=
| UnboundLocalError
| TypeError.

Section Wrapper.

(** The values passed around; an argument is [None] when it is
    Python's [None]. *)
Variable V : Type.

(** The keyword arguments, a dictionary in insertion order. *)
Definition kwargs : Type := list (string * option V).

(** The call of [self.model] with the positional arguments [args], with
    [encoder_hidden_states=conds] and with the keyword arguments [kwargs]. *)
Record model_call : Type := {
  mc_args : list (option V);
  mc_encoder_hidden_states : option V;
  mc_kwargs : kwargs
}.

(** [kwargs.get(key, None)]: [None] for a key that is absent and for a
    key that holds [None]. *)
Definition get (kw : kwargs) (key : string) : option V :=
  match find (fun e => String.eqb (fst e) key) kw with
  | Some (_, v) => v
  | None => None
  end.

(** The dictionary after [kwargs.pop(key)]. *)
Definition pop (kw : kwargs) (key : string) : kwargs :=
  filter (fun e => negb (String.eqb (fst e) key)) kw.

Definition has_key (kw : kwargs) (key : string) : bool :=
  existsb (fun e => String.eqb (fst e) key) kw.

(** [apply_model(self, *args, **kwargs)]; [model] is the wrapped model
    followed by [.sample].  [conds] is a local name that is bound only
    in the two branches; a keyword repeated in the call of the model is
    a [TypeError]. *)
Definition apply_model (model : model_call -> V) (args : list (option V))
    (kw : kwargs) : error + V :=
  let conds := if (length args =? 3)%nat then Some (nth 2 args None) else None in
  let args := if (length args =? 3)%nat then firstn 2 args else args in
  let '(conds, kw) := match get kw "cond" with
                      | Some v => (Some (Some v), pop kw "cond")
                      | None => (conds, kw)
                      end in
  match conds with
  | None => inl UnboundLocalError
  | Some conds =>
      if has_key kw "encoder_hidden_states" then inl TypeError
      else inr (model {| mc_args := args; mc_encoder_hidden_states := conds;
                         mc_kwargs := kw |})
  end.

End Wrapper.

End ModelWrapper.

(** ** Loading a model of the table: [load_model_custom] *)

Module Loader.

Import Ascii.
Local Open Scope string_scope.

(** [samplers] and [models] of [args.py] *)
Definition samplers : list string :=
  ["klms"; "pndm"; "dpm"; "euler_a"; "dpm2_a"; "ddim"; "euler"].
Definition models : list string := ["15"; "15i"; "2i"; "2d"; "21"; "21v"].

(** [s[0]], [s[-1]] and [s[2:]] on a string. *)
Definition first_char (s : string) : result ascii :=
  match String.get 0 s with
  | Some c => Ok c
  | None => Err IndexError
  end.

Definition last_char (s : string) : result ascii :=
  match String.get (String.length s - 1) s with
  | Some c => Ok c
  | None => Err IndexError
  end.

Definition from_2 (s : string) : string :=
  String.substring 2 (String.length s - 2) s.

Inductive scheduler_class : Type :=
| PNDMScheduler
| DPMSolverMultistepScheduler
| UniPCMultistepScheduler
| DDIMScheduler
| LMSDiscreteScheduler.

Inductive k_denoiser : Type :=
| CompVisDenoiser
| CompVisVDenoiser.

Inductive k_sampling : Type :=
| sample_lms
| sample_euler
| sample_euler_ancestral
| sample_dpm_2_ancestral.

(** How a call ends: it returns, raises, or leaves through [exit()]. *)
Inductive outcome (A : Type) : Type :=
| Returns (x : A)
| Raises (e : exn)
| Exits.

Arguments Returns {A} x.
Arguments Raises {A} e.
Arguments Exits {A}.

(** What [load_model_custom] loads when it is handed no component: the
    directories below [maindir], the class of the denoiser and of the
    scheduler, and on the k-diffusion family the wrapper and the
    sampler. *)
Record custom_model : Type := {
  subdir : string;
  txtenc_dir : string;
  unet_dir : string;
  unet_3d : bool;
  vae_dir : string;
  vae_slicing : bool;
  sched_class : scheduler_class;
  sched_eta : bool;
  kdiff : option (k_denoiser * k_sampling)
}.

(** The scheduler and the sampler for [a.sampler] (lines 157-182);
    [None] is the [exit()] of an unknown sampler. *)
Definition choose_sampler (sampler : string) (vtype : bool)
  : option (scheduler_class * bool * option (k_denoiser * k_sampling)) :=
  if sampler =? "pndm" then Some (PNDMScheduler, false, None)
  else if sampler =? "dpm" then Some (DPMSolverMultistepScheduler, false, None)
  else if sampler =? "uni" then Some (UniPCMultistepScheduler, false, None)
  else if sampler =? "ddim" then Some (DDIMScheduler, true, None)
  else
    let denoiser := if vtype then CompVisVDenoiser else CompVisDenoiser in
    if sampler =? "klms" then Some (LMSDiscreteScheduler, false, Some (denoiser, sample_lms))
    else if sampler =? "euler"
    then Some (LMSDiscreteScheduler, false, Some (denoiser, sample_euler))
    else if sampler =? "euler_a"
    then Some (LMSDiscreteScheduler, false, Some (denoiser, sample_euler_ancestral))
    else if sampler =? "dpm2_a"
    then Some (LMSDiscreteScheduler, false, Some (denoiser, sample_dpm_2_ancestral))
    else None.

(** [load_model_custom(self, a)] for the attributes [a.model], [a.vae]
    and [a.sampler]; [isxf] tells whether xformers could be imported. *)
Definition load_model_custom (model vae sampler : string) (isxf : bool)
  : outcome custom_model :=
  match last_char model with
  | Err e => Raises e
  | Ok last =>
  match first_char model with
  | Err e => Raises e
  | Ok first =>
      let vtype := Ascii.eqb last "v"%char in
      let vidtype := Ascii.eqb first "v"%char in
      let subdir := if vtype then "v2v"
                    else if vidtype || Ascii.eqb first "2"%char then "v2" else "v1" in
      if vtype && negb isxf then Exits
      else
        let txtenc := if from_2 model =? "drm" then "text-" ++ from_2 model
                      else "text" in
        let vae_path := if Ascii.eqb first "1"%char && negb (vae =? "orig")
                        then if vae =? "mse" then "vae-ft-mse" else "vae-ft-ema"
                        else "vae" in
        match choose_sampler sampler vtype with
        | None => Exits
        | Some (cls, eta, k) =>
            Returns {| subdir := subdir; txtenc_dir := txtenc;
                       unet_dir := "unet" ++ model; unet_3d := vidtype;
                       vae_dir := vae_path; vae_slicing := vidtype || negb isxf;
                       sched_class := cls; sched_eta := eta; kdiff := k |}
        end
  end
  end.

End Loader.

(** ** More stand-ins *)

Module Example.

(** The standard model of [Fixture] on a machine without the offloading
    library, and an engine that asks for the low-memory mode. *)
Definition no_accelerate : Backend :=
  {| sched := Z;
     set_timesteps := fun _ n => n;
     sched_timesteps := Fixture.timesteps_for;
     sched_has_sigmas := false;
     sched_sigmas := Fixture.sigmas_for;
     scale_model_input := fun _ x _ => x;
     sched_step := fun sch noise _ lat => (sch, sub lat noise);
     unet := fun _ => [[[1]]];
     kdiff_model := fun _ => [[[1]]];
     cnet := fun x _ _ _ => ([x], x);
     sampling_fn := Fixture.sample_euler;
     vae_decode := fun x => x;
     vae_scaling_factor := 1;
     vae_block_out_channels := [128; 256; 512; 512]%Z;
     unet_sample_size := 64;
     unet_in_channels := 4;
     control_mod_exists := false;
     accelerate_ok := false;
     pow_half := fun x => x |}.

Definition with_lowmem (a : args) : args :=
  {| a_seed := a.(a_seed); a_mask := a.(a_mask); a_img_scale := a.(a_img_scale);
     a_control_mod := a.(a_control_mod); a_load_lora := a.(a_load_lora);
     a_cfg_scale := a.(a_cfg_scale); a_strength := a.(a_strength);
     a_steps := a.(a_steps); a_batch := a.(a_batch);
     a_control_scale := a.(a_control_scale); a_lowmem := true |}.

Definition with_seed (a : args) (s : Z) : args :=
  {| a_seed := Some s; a_mask := a.(a_mask); a_img_scale := a.(a_img_scale);
     a_control_mod := a.(a_control_mod); a_load_lora := a.(a_load_lora);
     a_cfg_scale := a.(a_cfg_scale); a_strength := a.(a_strength);
     a_steps := a.(a_steps); a_batch := a.(a_batch);
     a_control_scale := a.(a_control_scale); a_lowmem := a.(a_lowmem) |}.

Definition lowmem_engine : @SDfu no_accelerate :=
  @Fixture.fresh no_accelerate (with_lowmem (Fixture.namespace 1 7 (3 # 4))) 0%Z false.

(** A scheduler of four training timesteps, its cumulative alphas, and
    a square root that is exact on the squares of rationals. *)
Definition sqrt_q (x : Q) : Q := Z.sqrt (Qnum x) # Pos.sqrt (Qden x).

Definition ddim4 : Backend :=
  {| sched := Z;
     set_timesteps := fun _ n => n;
     sched_timesteps := fun n => map (fun i => n - 1 - Z.of_nat i)%Z (seq 0 (Z.to_nat n));
     sched_has_sigmas := false;
     sched_sigmas := Fixture.sigmas_for;
     scale_model_input := fun _ x _ => x;
     sched_step := fun sch noise _ lat => (sch, sub lat noise);
     unet := fun c => dc_x c;
     kdiff_model := fun c => dc_x c;
     cnet := fun x _ _ _ => ([x], x);
     sampling_fn := Fixture.sample_euler;
     vae_decode := fun x => x;
     vae_scaling_factor := 1;
     vae_block_out_channels := [128; 256; 512; 512]%Z;
     unet_sample_size := 64;
     unet_in_channels := 4;
     control_mod_exists := true;
     accelerate_ok := true;
     pow_half := sqrt_q |}.

Definition tables4 (n : Z) : ddim_tables :=
  {| num_train_timesteps := 4;
     num_inference_steps := n;
     alphas_cumprod := [144 # 169; 16 # 25; 9 # 25; 25 # 169];
     final_alpha_cumprod := 1 |}.

(** An engine set up for four steps, of which strength 0.5 keeps three. *)
Definition ddim4_engine : @SDfu ddim4 :=
  @Build_SDfu ddim4 (Fixture.namespace 1 7 (1 # 2)) 4%Z false false false false 1%Z
    (manual_seed 1) 8 512 [] [2; 1; 0]%Z [2%Z] false.

(** Pixel-edit guidance on the k-diffusion family with the stored sigmas
    2, 1 and 0, and a run of it with one prompt and a batch of two. *)
Definition pix2pix_k_engine : @SDfu Fixture.euler_six :=
  @Build_SDfu Fixture.euler_six
    (Fixture.with_img_scale (Fixture.namespace 2 7 1) (3 # 2)) 2%Z true false false
    false 1%Z (manual_seed 1) 8 512 [2; 1; 0] [] [] false.

Definition pix2pix_run : run :=
  {| r_cfg_scale := 7; r_cws := [1];
     r_conds := [[[0]]; [[0]]; [[0]]; [[0]]; [[1]]; [[1]]]; r_bs := 3;
     r_cimg := None; r_ilat := Some [[[5]]; [[5]]; [[5]]; [[5]]; [[5]]; [[5]]];
     r_mask := None; r_masked_lat := None; r_depth := None |}.

End Example.

(** * Properties *)

(** ** Python built-ins *)

Lemma int_floor (x : Q) : 0 <= x -> Py.int x = Qfloor x.
Proof.
  destruct x as [n d]. unfold Qle, Py.int, Qfloor. simpl. intros H.
  apply Z.quot_div_nonneg; lia.
Qed.

(** *** The rounding of [steps * strength] *)

Lemma two_nz : ~ 2 == 0.
Proof. intros E. discriminate E. Qed.

Lemma pow2_pos (e : Z) : 0 < Qpower 2 e.
Proof. apply Qpower_0_lt. reflexivity. Qed.

Lemma pow2_succ (e : Z) : Qpower 2 (e + 1) == 2 * Qpower 2 e.
Proof. rewrite Qpower_plus by exact two_nz. rewrite Qpower_1_r. ring. Qed.

Lemma pow2_le (a b : Z) : (a <= b)%Z -> Qpower 2 a <= Qpower 2 b.
Proof. intros H. apply Qpower_le_compat_l; [exact H | discriminate]. Qed.

Lemma pow2_lt_inv (a b : Z) : Qpower 2 a < Qpower 2 b -> (a < b)%Z.
Proof. intros H. apply (Qpower_lt_compat_l_inv 2); [exact H | reflexivity]. Qed.

Lemma pow2_Z (k : Z) : (0 <= k)%Z -> inject_Z (2 ^ k) == Qpower 2 k.
Proof. intros H. rewrite Zpower_Qpower by exact H. reflexivity. Qed.

Lemma round_floor_cases (x : Q) : Py.round x = Qfloor x \/ Py.round x = (Qfloor x + 1)%Z.
Proof.
  unfold Py.round. destruct (Qcompare _ _); [destruct (Z.even _) | |]; auto.
Qed.

Lemma round_inject_Z (q : Q) (m : Z) : q == inject_Z m -> Py.round q = m.
Proof.
  intros H. unfold Py.round.
  assert (Hf : Qfloor q = m) by (rewrite H; apply Qfloor_Z).
  rewrite Hf.
  assert (Hc : (q - inject_Z m ?= 1 # 2) = Lt).
  { rewrite <- Qlt_alt. rewrite H. lra. }
  rewrite Hc. reflexivity.
Qed.

Lemma round_le (x y : Q) : x <= y -> (Py.round x <= Py.round y)%Z.
Proof.
  intros Hxy. pose proof (Qfloor_resp_le _ _ Hxy) as Hf.
  destruct (Z.eq_dec (Qfloor x) (Qfloor y)) as [E | Hne].
  - unfold Py.round. rewrite <- E.
    destruct (Qcompare (x - inject_Z (Qfloor x)) (1 # 2)) eqn:Hx;
      destruct (Qcompare (y - inject_Z (Qfloor x)) (1 # 2)) eqn:Hy;
      try (destruct (Z.even (Qfloor x))); try lia;
      try (rewrite <- Qeq_alt in Hx); try (rewrite <- Qlt_alt in Hx);
      try (rewrite <- Qgt_alt in Hx);
      try (rewrite <- Qeq_alt in Hy); try (rewrite <- Qlt_alt in Hy);
      try (rewrite <- Qgt_alt in Hy); exfalso; lra.
  - destruct (round_floor_cases x) as [-> | ->];
      destruct (round_floor_cases y) as [-> | ->]; lia.
Qed.

Lemma binade_spec (q : Q) :
  0 < q -> Qpower 2 (Py.binade q) <= q /\ q < Qpower 2 (Py.binade q + 1).
Proof.
  destruct q as [a b]. intros Hq.
  assert (Ha : (0 < a)%Z) by (unfold Qlt in Hq; simpl in Hq; lia).
  unfold Py.binade. simpl Qnum. simpl Qden.
  set (la := Z.log2 a). set (lb := Z.log2 (Z.pos b)).
  destruct (Z.log2_spec a Ha) as [Ha1 Ha2]. fold la in Ha1, Ha2.
  destruct (Z.log2_spec (Z.pos b) (Pos2Z.is_pos b)) as [Hb1 Hb2]. fold lb in Hb1, Hb2.
  assert (Hla : (0 <= la)%Z) by apply Z.log2_nonneg.
  assert (Hlb : (0 <= lb)%Z) by apply Z.log2_nonneg.
  assert (Qa1 : Qpower 2 la <= inject_Z a)
    by (rewrite <- pow2_Z by exact Hla; rewrite <- Zle_Qle; exact Ha1).
  assert (Qa2 : inject_Z a < Qpower 2 (la + 1))
    by (rewrite <- pow2_Z by lia; rewrite <- Zlt_Qlt; exact Ha2).
  assert (Qb1 : Qpower 2 lb <= inject_Z (Z.pos b))
    by (rewrite <- pow2_Z by exact Hlb; rewrite <- Zle_Qle; exact Hb1).
  assert (Qb2 : inject_Z (Z.pos b) < Qpower 2 (lb + 1))
    by (rewrite <- pow2_Z by lia; rewrite <- Zlt_Qlt; exact Hb2).
  assert (Hq' : a # b == inject_Z a / inject_Z (Z.pos b)) by apply Qmake_Qdiv.
  assert (Hbpos : 0 < inject_Z (Z.pos b)) by (rewrite <- (Zlt_Qlt 0); lia).
  assert (Hmul : forall e, Qpower 2 (la - lb + e) * Qpower 2 lb == Qpower 2 (la + e)).
  { intros e. rewrite <- Qpower_plus by exact two_nz. f_equiv. lia. }
  pose proof (pow2_pos lb) as Plb. pose proof (pow2_pos (la - lb - 1)) as P1.
  pose proof (pow2_pos (la - lb + 1)) as P2.
  assert (Hup : a # b < Qpower 2 (la - lb + 1)).
  { rewrite Hq'. apply Qlt_shift_div_r; [exact Hbpos |].
    apply Qlt_le_trans with (Qpower 2 (la + 1)); [exact Qa2 |].
    rewrite <- (Hmul 1%Z). apply Qmult_le_l; [exact P2 | exact Qb1]. }
  assert (Hlo : Qpower 2 (la - lb - 1) <= a # b).
  { rewrite Hq'. apply Qle_shift_div_l; [exact Hbpos |].
    apply Qle_trans with (Qpower 2 la); [| exact Qa1].
    assert (E : Qpower 2 (la - lb - 1) * Qpower 2 (lb + 1) == Qpower 2 la).
    { rewrite <- Qpower_plus by exact two_nz. f_equiv. lia. }
    rewrite <- E. apply Qmult_le_l; [exact P1 |]. apply Qlt_le_weak. exact Qb2. }
  destruct (Qle_bool (Qpower 2 (la - lb)) (a # b)) eqn:Hc.
  - apply Qle_bool_iff in Hc. split; assumption.
  - split; [exact Hlo |].
    replace (la - lb - 1 + 1)%Z with (la - lb)%Z by lia.
    destruct (Qlt_le_dec (a # b) (Qpower 2 (la - lb))) as [H | H]; [exact H |].
    apply Qle_bool_iff in H. congruence.
Qed.

Lemma Qabs_nonneg_eq (q : Q) : 0 <= q -> Qabs q = q.
Proof.
  destruct q as [a b]. unfold Qle. simpl. intros H.
  unfold Qabs. f_equal. apply Z.abs_eq. lia.
Qed.

Lemma int_inject_Z (n : Z) (x : Q) : x == inject_Z n -> Py.int x = n.
Proof.
  destruct x as [p q]. unfold Qeq, Py.int. simpl. intros H.
  rewrite Z.mul_1_r in H. rewrite H. apply Z.quot_mul. discriminate.
Qed.

Lemma round_nonneg (q : Q) : 0 <= q -> (0 <= Py.round q)%Z.
Proof.
  intros H. rewrite <- (@round_inject_Z 0 0%Z) by reflexivity.
  apply round_le. exact H.
Qed.

Lemma double_nonneg (q : Q) : 0 <= q -> 0 <= Py.double q.
Proof.
  intros Hq. unfold Py.double.
  destruct (Qle_bool _ _); [exact Hq |].
  set (u := Qpower 2 _). assert (Hu : 0 < u) by apply pow2_pos.
  apply Qmult_le_0_compat; [| apply Qlt_le_weak; exact Hu].
  rewrite <- (Zle_Qle 0). apply round_nonneg.
  apply Qle_shift_div_l; [exact Hu |]. lra.
Qed.

Lemma double_below (q : Q) :
  0 <= q -> Qle_bool (Qpower 2 53) (Qabs q) = false ->
  q < Qpower 2 53
  /\ Py.double q
     = inject_Z (Py.round (q / Qpower 2 (Z.max (Py.binade q) (-1022) - 52)))
       * Qpower 2 (Z.max (Py.binade q) (-1022) - 52).
Proof.
  intros Hq Hc. split.
  - rewrite (Qabs_nonneg_eq Hq) in Hc.
    destruct (Qlt_le_dec q (Qpower 2 53)) as [H | H]; [exact H |].
    apply Qle_bool_iff in H. congruence.
  - unfold Py.double. rewrite Hc. rewrite (Qabs_nonneg_eq Hq). reflexivity.
Qed.

Lemma pow2_scale (e k : Z) : (0 <= k)%Z ->
  Qpower 2 e / Qpower 2 (e - k) == inject_Z (2 ^ k).
Proof.
  intros Hk. rewrite pow2_Z by exact Hk.
  rewrite Qpower_minus by exact two_nz.
  pose proof (pow2_pos e). pose proof (pow2_pos k). field.
  split; intros E; rewrite E in *; eapply Qlt_irrefl; eassumption.
Qed.

(** Bounds of the Py.double of a positive rational below 2^53. *)
Lemma double_bounds (q : Q) :
  0 < q -> Qle_bool (Qpower 2 53) (Qabs q) = false ->
  Py.double q <= Qpower 2 (Z.max (Py.binade q) (-1022) + 1)
  /\ ((-1022 <= Py.binade q)%Z -> Qpower 2 (Py.binade q) <= Py.double q).
Proof.
  intros Hq Hc.
  destruct (double_below (Qlt_le_weak _ _ Hq) Hc) as [_ ->].
  destruct (binade_spec Hq) as [Hlo Hup].
  set (e := Py.binade q) in *. set (ec := Z.max e (-1022)).
  set (u := Qpower 2 (ec - 52)). assert (Hu : 0 < u) by apply pow2_pos.
  split.
  - assert (Hr : (Py.round (q / u) <= 2 ^ 53)%Z).
    { rewrite <- (@round_inject_Z (inject_Z (2 ^ 53)) (2 ^ 53)%Z) by reflexivity.
      apply round_le. apply Qle_shift_div_r; [exact Hu |].
      assert (E : inject_Z (2 ^ 53) * u == Qpower 2 (ec + 1)).
      { unfold u. rewrite pow2_Z by lia.
        rewrite <- Qpower_plus by exact two_nz. f_equiv. lia. }
      rewrite E. apply Qlt_le_weak. apply Qlt_le_trans with (Qpower 2 (e + 1));
        [exact Hup | apply pow2_le; unfold ec; lia]. }
    apply Qle_trans with (inject_Z (2 ^ 53) * u).
    + apply Qmult_le_compat_r; [| apply Qlt_le_weak; exact Hu].
      rewrite <- Zle_Qle. exact Hr.
    + unfold u. rewrite pow2_Z by lia.
      rewrite <- Qpower_plus by exact two_nz.
      apply pow2_le. lia.
  - intros He. assert (Eec : ec = e) by (unfold ec; lia).
    assert (Hr : (2 ^ 52 <= Py.round (q / u))%Z).
    { rewrite <- (@round_inject_Z (inject_Z (2 ^ 52)) (2 ^ 52)%Z) by reflexivity.
      apply round_le. apply Qle_shift_div_l; [exact Hu |].
      assert (E : inject_Z (2 ^ 52) * u == Qpower 2 e).
      { unfold u. rewrite Eec. rewrite pow2_Z by lia.
        rewrite <- Qpower_plus by exact two_nz. f_equiv. lia. }
      rewrite E. exact Hlo. }
    apply Qle_trans with (inject_Z (2 ^ 52) * u).
    + unfold u. rewrite Eec. rewrite pow2_Z by lia.
      rewrite <- Qpower_plus by exact two_nz.
      apply pow2_le. lia.
    + apply Qmult_le_compat_r; [| apply Qlt_le_weak; exact Hu].
      rewrite <- Zle_Qle. exact Hr.
Qed.

Lemma binade_le (x y : Q) : 0 < x -> x <= y -> (Py.binade x <= Py.binade y)%Z.
Proof.
  intros Hx Hxy. assert (Hy : 0 < y) by lra.
  destruct (binade_spec Hx) as [Hx1 _]. destruct (binade_spec Hy) as [_ Hy2].
  assert (H : Qpower 2 (Py.binade x) < Qpower 2 (Py.binade y + 1)) by lra.
  apply pow2_lt_inv in H. lia.
Qed.

Lemma double_le_pos (x y : Q) : 0 < x -> x <= y -> Py.double x <= Py.double y.
Proof.
  intros Hx Hxy. assert (Hy : 0 < y) by lra.
  destruct (Qle_bool (Qpower 2 53) (Qabs y)) eqn:Hcy.
  - assert (Ey : Py.double y = y) by (unfold Py.double; rewrite Hcy; reflexivity).
    rewrite Ey.
    destruct (Qle_bool (Qpower 2 53) (Qabs x)) eqn:Hcx.
    + unfold Py.double. rewrite Hcx. exact Hxy.
    + destruct (double_bounds Hx Hcx) as [Hub _].
      destruct (double_below (Qlt_le_weak _ _ Hx) Hcx) as [Hlt _].
      destruct (binade_spec Hx) as [Hx1 _].
      assert (He : (Py.binade x < 53)%Z) by (apply pow2_lt_inv; lra).
      apply Qle_bool_iff in Hcy. rewrite (Qabs_nonneg_eq (Qlt_le_weak _ _ Hy)) in Hcy.
      apply Qle_trans with (Qpower 2 53); [| exact Hcy].
      eapply Qle_trans; [exact Hub |]. apply pow2_le. lia.
  - destruct (double_below (Qlt_le_weak _ _ Hy) Hcy) as [Hylt Ey].
    assert (Hcx : Qle_bool (Qpower 2 53) (Qabs x) = false).
    { destruct (Qle_bool _ (Qabs x)) eqn:E; [| reflexivity].
      apply Qle_bool_iff in E. rewrite (Qabs_nonneg_eq (Qlt_le_weak _ _ Hx)) in E. lra. }
    destruct (double_below (Qlt_le_weak _ _ Hx) Hcx) as [_ Ex].
    pose proof (binade_le Hx Hxy) as Hb.
    destruct (Z.eq_dec (Z.max (Py.binade x) (-1022)) (Z.max (Py.binade y) (-1022)))
      as [E | Hne].
    + rewrite Ex, Ey, E. set (u := Qpower 2 _). assert (Hu : 0 < u) by apply pow2_pos.
      apply Qmult_le_compat_r; [| apply Qlt_le_weak; exact Hu].
      rewrite <- Zle_Qle. apply round_le.
      apply Qmult_le_compat_r; [exact Hxy |].
      apply Qlt_le_weak. apply Qinv_lt_0_compat. exact Hu.
    + destruct (double_bounds Hx Hcx) as [Hub _].
      destruct (double_bounds Hy Hcy) as [_ Hlb].
      assert (Hy22 : (-1022 <= Py.binade y)%Z) by lia.
      eapply Qle_trans; [exact Hub |].
      eapply Qle_trans; [| exact (Hlb Hy22)].
      apply pow2_le. lia.
Qed.

Lemma double_zero (x : Q) : x == 0 -> Py.double x == 0.
Proof.
  intros Hx. unfold Py.double.
  destruct (Qle_bool _ _); [exact Hx |].
  set (u := Qpower 2 _). assert (Hu : 0 < u) by apply pow2_pos.
  assert (E : Py.round (x / u) = 0%Z).
  { apply round_inject_Z. rewrite Hx. unfold Qdiv. ring. }
  rewrite E. ring.
Qed.

Lemma double_le (x y : Q) : 0 <= x -> x <= y -> Py.double x <= Py.double y.
Proof.
  intros Hx Hxy.
  destruct (Qlt_le_dec 0 x) as [Hpos | Hneg].
  - apply double_le_pos; assumption.
  - assert (E : x == 0) by lra. rewrite (double_zero E).
    apply double_nonneg. lra.
Qed.

Lemma double_Z (q : Q) (n : Z) : q == inject_Z n -> Py.double q == inject_Z n.
Proof.
  intros Hq. unfold Py.double.
  destruct (Qle_bool (Qpower 2 53) (Qabs q)) eqn:Hc; [exact Hq |].
  destruct (Z.eq_dec n 0) as [-> | Hn].
  - set (u := Qpower 2 _).
    assert (E : Py.round (q / u) = 0%Z).
    { apply round_inject_Z. rewrite Hq. unfold Qdiv. ring. }
    rewrite E. ring.
  - assert (Habs : Qabs q == inject_Z (Z.abs n)).
    { rewrite Hq. reflexivity. }
    assert (Hlt : Qabs q < Qpower 2 53).
    { destruct (Qlt_le_dec (Qabs q) (Qpower 2 53)) as [H | H]; [exact H |].
      apply Qle_bool_iff in H. congruence. }
    assert (H1 : 1 <= Qabs q).
    { rewrite Habs. change 1 with (inject_Z 1). rewrite <- Zle_Qle. lia. }
    assert (Hpos : 0 < Qabs q) by lra.
    destruct (binade_spec Hpos) as [Hlo Hup].
    set (e := Py.binade (Qabs q)) in *.
    assert (He0 : (0 <= e)%Z).
    { assert (H : Qpower 2 0 < Qpower 2 (e + 1)) by (change (Qpower 2 0) with 1; lra).
      apply pow2_lt_inv in H. lia. }
    assert (He52 : (e < 53)%Z) by (apply pow2_lt_inv; lra).
    replace (Z.max e (-1022)) with e by lia.
    assert (Eu : Qpower 2 (e - 52) == / inject_Z (2 ^ (52 - e))).
    { rewrite pow2_Z by lia. rewrite <- Qpower_opp. f_equiv. lia. }
    assert (Hk : 0 < inject_Z (2 ^ (52 - e))).
    { rewrite pow2_Z by lia. apply pow2_pos. }
    assert (E : Py.round (q / Qpower 2 (e - 52)) = (n * 2 ^ (52 - e))%Z).
    { apply round_inject_Z. rewrite Eu, Hq, inject_Z_mult. field.
      intros E0. rewrite E0 in Hk. exact (Qlt_irrefl _ Hk). }
    rewrite E, Eu, inject_Z_mult. field.
    intros E0. rewrite E0 in Hk. exact (Qlt_irrefl _ Hk).
Qed.

Lemma int_mul_one (n : Z) : Py.int (Py.mul_int_float n 1) = n.
Proof.
  apply int_inject_Z. unfold Py.mul_int_float.
  apply double_Z. rewrite (@double_Z 1 1%Z) by reflexivity. ring.
Qed.

Lemma mul_int_float_nonneg (n : Z) (x : Q) :
  (0 <= n)%Z -> 0 <= x -> 0 <= Py.mul_int_float n x.
Proof.
  intros Hn Hx. unfold Py.mul_int_float. apply double_nonneg.
  apply Qmult_le_0_compat; [| apply double_nonneg; exact Hx].
  change 0 with (inject_Z 0). rewrite <- Zle_Qle. exact Hn.
Qed.

Lemma mul_int_float_le (n : Z) (x y : Q) :
  (0 <= n)%Z -> 0 <= x -> x <= y -> Py.mul_int_float n x <= Py.mul_int_float n y.
Proof.
  intros Hn Hx Hxy. unfold Py.mul_int_float.
  assert (Qn : 0 <= inject_Z n)
    by (change 0 with (inject_Z 0); rewrite <- Zle_Qle; exact Hn).
  apply double_le.
  - apply Qmult_le_0_compat; [exact Qn | apply double_nonneg; exact Hx].
  - rewrite !(Qmult_comm (inject_Z n)).
    apply Qmult_le_compat_r; [apply double_le; assumption | exact Qn].
Qed.

Lemma mul_int_float_zero (n : Z) (x : Q) : x == 0 -> Py.mul_int_float n x == 0.
Proof.
  intros Hx. unfold Py.mul_int_float. apply double_zero.
  rewrite (double_zero Hx). ring.
Qed.

(** The doubles nearest to 0.6 and to 0.58, and what the truncation of
    the product with 50 gives: [50 * 0.6] is rounded up to 30.0 (the
    exact product of 50 and the double truncates to 29), [50 * 0.58]
    stays below 29, and [50 * 0.375] is exact. *)
Lemma mul_int_float_examples :
  Py.double (3 # 5) == 5404319552844595 # 9007199254740992
  /\ Py.double (58 # 100) == 5224175567749775 # 9007199254740992
  /\ Py.int (Py.mul_int_float 50 (3 # 5)) = 30%Z
  /\ Py.int (inject_Z 50 * Py.double (3 # 5)) = 29%Z
  /\ Py.int (Py.mul_int_float 50 (58 # 100)) = 28%Z
  /\ Py.int (Py.mul_int_float 50 (- (3 # 5))) = (-30)%Z
  /\ Py.int (Py.mul_int_float 50 (3 # 8)) = 18%Z
  /\ Py.in_double_range 50 (3 # 5) = true.
Proof. vm_compute. repeat split; reflexivity. Qed.

Lemma mod1_range (x : Q) : 0 <= Py.mod1 x /\ Py.mod1 x < 1.
Proof.
  unfold Py.mod1. pose proof (Qfloor_le x) as Hl. pose proof (Qlt_floor x) as Hu.
  rewrite inject_Z_plus in Hu. change (inject_Z 1) with 1 in Hu. lra.
Qed.

Lemma time_seed_range (now : Q) :
  (0 <= Py.int (Py.mod1 now * 69696) < 69696)%Z.
Proof.
  destruct (mod1_range now) as [H0 H1].
  assert (Hx0 : 0 <= Py.mod1 now * 69696) by lra.
  assert (Hx1 : Py.mod1 now * 69696 < 69696) by lra.
  rewrite (int_floor Hx0). split.
  - change 0%Z with (Qfloor 0). apply Qfloor_resp_le. exact Hx0.
  - apply Z.lt_nge. intros Hge.
    apply (Qlt_not_le _ _ Hx1).
    eapply Qle_trans; [| apply Qfloor_le].
    change (69696 : Q) with (inject_Z 69696).
    rewrite <- Zle_Qle. exact Hge.
Qed.

Lemma time_seed_zero (now : Q) :
  Py.int (Py.mod1 now * 69696) = 0%Z <-> Py.mod1 now * 69696 < 1.
Proof.
  destruct (mod1_range now) as [H0 _].
  assert (Hx0 : 0 <= Py.mod1 now * 69696) by lra.
  rewrite (int_floor Hx0). split.
  - intros Hz. pose proof (Qlt_floor (Py.mod1 now * 69696)) as Hlt.
    rewrite Hz in Hlt. exact Hlt.
  - intros Hlt.
    assert (Hge : (0 <= Qfloor (Py.mod1 now * 69696))%Z).
    { change 0%Z with (Qfloor 0). apply Qfloor_resp_le. exact Hx0. }
    assert (Hlt1 : (Qfloor (Py.mod1 now * 69696) < 1)%Z).
    { rewrite Zlt_Qlt. eapply Qle_lt_trans; [apply Qfloor_le | exact Hlt]. }
    lia.
Qed.

(** ** Seeding *)

(** C10.  A falsy seed argument ([None] or [0]) is not used as the seed:
    the stored seed is the time-derived value [int((time % 1) * 69696)],
    which lies in [[0, 69696)] (and is itself 0 only in the first
    1/69696 of a second), the same value as with no seed at all; and
    every call, whatever the argument and whatever generator the engine
    held before, leaves a new generator started from the stored seed,
    with no draw served yet. *)
Theorem setseed_falsy_seed_is_time_derived :
  forall (B : Backend) (now : Q) (self : SDfu) (seed_arg : option Z),
    (g_ (setseed now self seed_arg) = manual_seed (seed (setseed now self seed_arg))
     /\ draws (g_ (setseed now self seed_arg)) = 0%nat
     /\ forall other : SDfu,
          g_ (setseed now other seed_arg) = g_ (setseed now self seed_arg))
    /\ (forall s : Z, seed_arg = Some s -> s <> 0%Z ->
         seed (setseed now self seed_arg) = s)
    /\ (seed_arg = None \/ seed_arg = Some 0%Z ->
         seed (setseed now self seed_arg) = Py.int (Py.mod1 now * 69696)
         /\ (0 <= seed (setseed now self seed_arg) < 69696)%Z
         /\ (seed (setseed now self seed_arg) = 0%Z <-> Py.mod1 now * 69696 < 1)
         /\ setseed now self seed_arg = setseed now self None).
Proof.
  intros B now self seed_arg. split; [repeat split |]. split.
  - intros s -> Hs. simpl. apply Z.eqb_neq in Hs. now rewrite Hs.
  - intros H.
    assert (Hseed : seed (setseed now self seed_arg) = Py.int (Py.mod1 now * 69696))
      by (destruct H as [-> | ->]; reflexivity).
    split; [exact Hseed |]. rewrite Hseed.
    split; [apply time_seed_range |].
    split; [apply time_seed_zero |].
    destruct H as [-> | ->]; reflexivity.
Qed.

Lemma setseed_falsy_seed_is_time_derived_witness :
  seed (setseed Fixture.half_past (Fixture.ddim_engine (3 # 4)) (Some 0%Z))
  = 34848%Z.
Proof.
  destruct (@setseed_falsy_seed_is_time_derived Fixture.ddim Fixture.half_past
              (Fixture.ddim_engine (3 # 4)) (Some 0%Z))
    as [_ [_ H]].
  destruct (H (or_intror eq_refl)) as [Hseed _].
  rewrite Hseed. reflexivity.
Defined.

(** ** Slices *)

Lemma slice_from_neg {A} (k : Z) (xs : list A) :
  (0 < k)%Z -> Py.slice_from (- k) xs = last_entries (Z.to_nat k) xs.
Proof.
  intros Hk. unfold Py.slice_from, last_entries, Py.bound.
  destruct (Z.ltb_spec (- k) 0) as [_ | H]; [| lia].
  f_equal. lia.
Qed.

Lemma slice_from_all {A} (k : Z) (xs : list A) :
  (Py.len xs <= k)%Z -> Py.slice_from (- k) xs = xs.
Proof.
  unfold Py.len, Py.slice_from, Py.bound. intros Hk.
  destruct (Z.ltb_spec (- k) 0) as [H | H].
  - replace (Z.to_nat _) with 0%nat by lia. reflexivity.
  - replace (Z.to_nat _) with 0%nat by lia. reflexivity.
Qed.

Lemma length_last_entries {A} (k : nat) (xs : list A) :
  length (last_entries k xs) = Nat.min k (length xs).
Proof. unfold last_entries. rewrite length_skipn. lia. Qed.

Lemma length_slice_from {A} (k : Z) (xs : list A) :
  (0 <= k <= Py.len xs)%Z -> Py.len (Py.slice_from k xs) = (Py.len xs - k)%Z.
Proof.
  unfold Py.len, Py.slice_from, Py.bound. intros Hk. rewrite length_skipn.
  destruct (Z.ltb_spec k 0); lia.
Qed.

(** ** Set-up *)

Lemma set_steps_ok {B : Backend} (self : SDfu) (steps : Z) (strength : Q) (warmup : Z) :
  use_kdiff self = true \/ (0 <= a_batch (a self))%Z ->
  exists self',
    set_steps self steps strength warmup = Ok self'
    /\ a self' = a self
    /\ use_kdiff self' = use_kdiff self
    /\ inpaintmod self' = inpaintmod self
    /\ depthmod self' = depthmod self
    /\ final_offload_hook self' = final_offload_hook self.
Proof.
  intros H. unfold set_steps.
  destruct (use_kdiff self) eqn:Hk.
  - eexists. repeat split; simpl; assumption.
  - destruct H as [H | H]; [discriminate |].
    unfold repeat_1d. destruct (Z.ltb_spec (a_batch (a self)) 0) as [Hn | _]; [lia |].
    simpl. eexists. repeat split; simpl; assumption.
Qed.

Lemma set_steps_schedule_eq {B : Backend} (self self' : SDfu) (steps : Z)
    (strength : Q) (warmup : Z) :
  set_steps self steps strength warmup = Ok self' ->
  let n := Z.min (Py.int (Py.mul_int_float steps strength)) steps in
  a self' = a self
  /\ use_kdiff self' = use_kdiff self
  /\ inpaintmod self' = inpaintmod self
  /\ depthmod self' = depthmod self
  /\ (use_kdiff self = true ->
      sigmas self' = Py.slice_from (- n - warmup) (full_sigmas self steps))
  /\ (use_kdiff self = false ->
      timesteps self' = Py.slice_from (- n - warmup) (full_timesteps self steps)).
Proof.
  unfold set_steps, full_sigmas, full_timesteps.
  destruct (use_kdiff self) eqn:Hk.
  - intros [= <-]. simpl. repeat split; try assumption; try reflexivity; discriminate.
  - destruct (repeat_1d _ _) as [lt |]; simpl; [| discriminate].
    intros [= <-]. simpl. repeat split; try assumption; try reflexivity; discriminate.
Qed.

(** C7.  With a denoiser of nine input channels (the inpainting
    architecture) and no mask configured, [final_setup] raises its
    inpainting assertion, and so the constructor [__init__] ends in an
    assertion error (this one, or the one of a control network whose
    files are not found, which is checked earlier): no engine is
    returned, hence no sampling step can run. *)
Theorem inpaint_model_requires_mask :
  forall (B : Backend) (self : SDfu),
    unet_in_channels = 9%Z ->
    a_mask (a self) = None ->
    final_setup self = Err (AssertionError "!! Inpainting model requires mask !!")
    /\ forall (now : Q) (sch0 : sched),
         __init__ now (a self) sch0
         = Err (AssertionError
                  (if isset (a_control_mod (a self)) && negb control_mod_exists
                   then "Not found ControlNet model"
                   else "!! Inpainting model requires mask !!")).
Proof.
  intros B self H9 Hmask. split.
  - unfold final_setup. rewrite H9, Hmask. reflexivity.
  - intros now sch0. unfold __init__.
    destruct (isset (a_control_mod (a self))); simpl.
    + destruct control_mod_exists; simpl; [| reflexivity].
      unfold final_setup. simpl. rewrite H9, Hmask. reflexivity.
    + unfold final_setup. simpl. rewrite H9, Hmask. reflexivity.
Qed.

Lemma inpaint_model_requires_mask_witness :
  final_setup Fixture.inpaint9_engine
  = Err (AssertionError "!! Inpainting model requires mask !!").
Proof.
  apply (@inpaint_model_requires_mask Fixture.inpaint9 Fixture.inpaint9_engine);
    reflexivity.
Defined.

(** C8.  With the image-guidance scale set and a control network loaded,
    [final_setup] raises an assertion error: the one of pixel-edit
    guidance, unless the inpainting assertion before it has fired
    already.  The constructor, called with both options set, ends in an
    assertion error as well and returns no engine. *)
Theorem pix2pix_with_controlnet_rejected :
  forall (B : Backend) (self : SDfu) (s : Q),
    a_img_scale (a self) = Some s ->
    (use_cnet self = true ->
     final_setup self
     = Err (AssertionError
              (if (unet_in_channels =? 9)%Z && negb (isset (a_mask (a self)))
               then "!! Inpainting model requires mask !!"
               else "Use either Instruct-pix2pix or Controlnet guidance")))
    /\ (isset (a_control_mod (a self)) = true ->
        forall (now : Q) (sch0 : sched),
        exists msg, __init__ now (a self) sch0 = Err (AssertionError msg)).
Proof.
  intros B self s Himg. split.
  - intros Hc. unfold final_setup. rewrite Himg, Hc.
    destruct ((unet_in_channels =? 9)%Z && negb (isset (a_mask (a self)))); reflexivity.
  - intros Hctl now sch0. unfold __init__. rewrite Hctl.
    destruct control_mod_exists; simpl; [| eexists; reflexivity].
    unfold final_setup. simpl. rewrite Himg.
    destruct ((unet_in_channels =? 9)%Z && negb (isset (a_mask (a self))));
      simpl; eexists; reflexivity.
Qed.

Lemma pix2pix_with_controlnet_rejected_witness :
  final_setup Fixture.pix2pix_cnet_engine
  = Err (AssertionError "Use either Instruct-pix2pix or Controlnet guidance")
  /\ exists msg,
       __init__ (B := Fixture.ddim) Fixture.half_past
         (a Fixture.pix2pix_cnet_engine) 0%Z
       = Err (AssertionError msg).
Proof.
  destruct (@pix2pix_with_controlnet_rejected Fixture.ddim
              Fixture.pix2pix_cnet_engine (3 # 2) eq_refl) as [H1 H2].
  split.
  - exact (H1 eq_refl).
  - exact (H2 eq_refl Fixture.half_past 0%Z).
Defined.

Lemma final_setup_pix2pix_inv {B : Backend} (self self' : SDfu) (s : Q) :
  a_img_scale (a self) = Some s ->
  final_setup self = Ok self' ->
  exists self2,
    set_steps
      {| a := set_strength (a self) 1; scheduler := scheduler self;
         use_kdiff := use_kdiff self; use_cnet := use_cnet self;
         inpaintmod := (unet_in_channels =? 9)%Z;
         depthmod := (unet_in_channels =? 5)%Z; seed := seed self; g_ := g_ self;
         vae_scale := Qpower 2 (Py.len vae_block_out_channels - 1);
         res := inject_Z unet_sample_size
                * Qpower 2 (Py.len vae_block_out_channels - 1);
         sigmas := sigmas self; timesteps := timesteps self;
         lat_timestep := lat_timestep self;
         final_offload_hook := final_offload_hook self |}
      (a_steps (a self)) 1 1 = Ok self2
    /\ a self' = a self2 /\ use_kdiff self' = use_kdiff self2
    /\ sigmas self' = sigmas self2 /\ timesteps self' = timesteps self2.
Proof.
  intros Himg. unfold final_setup. rewrite Himg.
  destruct (assert (negb ((unet_in_channels =? 9)%Z && negb (isset (a_mask (a self))))) _);
    simpl; [| discriminate].
  destruct (assert (negb (use_cnet self || Py.in_0_1 (a_cfg_scale (a self)))) _);
    simpl; [| discriminate].
  destruct (set_steps _ _ _ _) as [self2 |] eqn:Hs; simpl; [| discriminate].
  destruct (a_lowmem (a self)).
  - destruct (assert accelerate_ok _); simpl; [| discriminate].
    intros [= <-]. exists self2. simpl. repeat split.
  - intros [= <-]. exists self2. repeat split.
Qed.

(** C9.  With the image-guidance scale set, [final_setup]
    - raises an assertion error when [cfg_scale] is 0 or 1;
    - when it returns, has overwritten the strength of the namespace
      with 1 and stored the schedule [set_steps] cuts at strength 1, the
      last [steps + 1] entries of the scheduler's schedule, which is
      all of it when the scheduler makes at most [steps + 1] entries
      for [steps] steps;
    - gives the same result whatever strength was configured;
    - returns an engine when neither assertion fires and the batch size
      is not negative (and, in low-memory mode, offloading is there). *)
Theorem pix2pix_setup_forces_full_strength :
  forall (B : Backend) (self : SDfu) (s : Q),
    a_img_scale (a self) = Some s ->
    (Py.in_0_1 (a_cfg_scale (a self)) = true ->
     exists msg, final_setup self = Err (AssertionError msg))
    /\ (forall self', final_setup self = Ok self' ->
        a_strength (a self') = 1
        /\ (use_kdiff self = true ->
            sigmas self'
            = Py.slice_from (- a_steps (a self) - 1) (full_sigmas self (a_steps (a self)))
            /\ ((Py.len (full_sigmas self (a_steps (a self))) <= a_steps (a self) + 1)%Z ->
                sigmas self' = full_sigmas self (a_steps (a self))))
        /\ (use_kdiff self = false ->
            timesteps self'
            = Py.slice_from (- a_steps (a self) - 1)
                (full_timesteps self (a_steps (a self)))
            /\ ((Py.len (full_timesteps self (a_steps (a self))) <= a_steps (a self) + 1)%Z ->
                timesteps self' = full_timesteps self (a_steps (a self)))))
    /\ (forall strength' : Q,
        final_setup (with_args self (set_strength (a self) strength'))
        = final_setup self)
    /\ (Py.in_0_1 (a_cfg_scale (a self)) = false ->
        use_cnet self = false ->
        (unet_in_channels =? 9)%Z && negb (isset (a_mask (a self))) = false ->
        use_kdiff self = true \/ (0 <= a_batch (a self))%Z ->
        (a_lowmem (a self) = true -> accelerate_ok = true) ->
        exists self', final_setup self = Ok self').
Proof.
  intros B self s Himg. repeat apply conj.
  - intros Hcfg. unfold final_setup. rewrite Himg, Hcfg, orb_true_r.
    destruct ((unet_in_channels =? 9)%Z && negb (isset (a_mask (a self))));
      simpl; eexists; reflexivity.
  - intros self' Hok.
    destruct (final_setup_pix2pix_inv Himg Hok) as (self2 & Hs & Ha & Hk & Hsig & Hts).
    pose proof (set_steps_schedule_eq Hs) as Hsched. simpl in Hsched.
    rewrite int_mul_one, Z.min_id in Hsched.
    destruct Hsched as (Ha2 & _ & _ & _ & Hsg & Htm).
    split; [rewrite Ha, Ha2; reflexivity |].
    split; intros Hkd.
    + specialize (Hsg Hkd). rewrite Hsig, Hsg.
      unfold full_sigmas. simpl. split; [reflexivity |].
      intros Hlen. replace (- a_steps (a self) - 1)%Z with (- (a_steps (a self) + 1))%Z by lia.
      apply slice_from_all. exact Hlen.
    + specialize (Htm Hkd). rewrite Hts, Htm.
      unfold full_timesteps. simpl. split; [reflexivity |].
      intros Hlen. replace (- a_steps (a self) - 1)%Z with (- (a_steps (a self) + 1))%Z by lia.
      apply slice_from_all. exact Hlen.
  - intros strength'. unfold final_setup, with_args. simpl. rewrite Himg. reflexivity.
  - intros Hcfg Hc Hinp Hb Hlow. unfold final_setup.
    rewrite Himg, Hcfg, Hc, Hinp. simpl.
    match goal with
    | |- context [set_steps ?e ?n ?st ?w] =>
        destruct (@set_steps_ok B e n st w) as (self2 & Hs & Ha & _)
    end.
    { simpl. exact Hb. }
    rewrite Hs. simpl. simpl in Ha. rewrite Ha. simpl.
    destruct (a_lowmem (a self)).
    + rewrite (Hlow eq_refl). simpl. eexists. reflexivity.
    + eexists. reflexivity.
Qed.

Lemma pix2pix_setup_forces_full_strength_witness :
  exists self',
    final_setup (Fixture.pix2pix_engine (3 # 8)) = Ok self'
    /\ a_strength (a self') = 1
    /\ timesteps self' = Fixture.timesteps_for 50.
Proof.
  destruct (@pix2pix_setup_forces_full_strength Fixture.ddim
              (Fixture.pix2pix_engine (3 # 8)) (3 # 2) eq_refl)
    as (_ & Hok & _ & Hex).
  destruct (Hex eq_refl eq_refl eq_refl (or_intror (Z.le_0_1)) (fun H => eq_refl))
    as [self' Hs].
  exists self'. split; [exact Hs |].
  destruct (Hok self' Hs) as (Hstr & _ & Hts).
  split; [exact Hstr |].
  destruct (Hts eq_refl) as [_ Hfull].
  apply Hfull. vm_compute. discriminate.
Defined.

(** ** The record of denoiser calls *)

Ltac munfold :=
  cbv beta iota delta [bind lift ret tell call_unet call_kdiff_model] in *.

Lemma for_calls {A S} (P : denoise_call -> Prop) (body : A -> S -> M S) :
  (forall x s log s' log',
      body x s log = Ok (s', log') -> exists c, log' = log ++ [c] /\ P c) ->
  forall xs s log s' log',
    for_ xs body s log = Ok (s', log') ->
    exists calls,
      log' = log ++ calls /\ length calls = length xs /\ Forall P calls.
Proof.
  intros Hbody. induction xs as [| x xs IH]; intros s log s' log' H; simpl in H.
  - munfold. injection H as <- <-. exists []. rewrite app_nil_r. auto.
  - unfold bind in H. destruct (body x s log) as [[s1 log1] |] eqn:Hb; [| discriminate].
    destruct (Hbody _ _ _ _ _ Hb) as (c & -> & Hc).
    destruct (IH _ _ _ _ H) as (calls & -> & Hlen & Hall).
    exists (c :: calls). rewrite <- app_assoc. simpl.
    repeat split; [congruence | constructor; assumption].
Qed.

(** What one pass through the loop body does. *)
Lemma denoise_step_inv {B : Backend} (self : SDfu) (r : run) (t : Z)
    (lat : tensor) (kw : ukwargs) (sch : sched) (log : list denoise_call)
    (st' : tensor * ukwargs * sched) (log' : list denoise_call) :
  denoise_step self r t (lat, kw, sch) log = Ok (st', log') ->
  exists lat_in c noise_pred,
    Torch.cat (Py.list_mul
                 [inject self (r_mask r) (r_masked_lat r) (r_depth r)
                    (scale_model_input sch lat t)] (r_bs r)) = Ok lat_in
    /\ log' = log ++ [c]
    /\ dc_cond c = r_conds r
    /\ dc_t c = Timestep t
    /\ st' = (snd (sched_step sch noise_pred t lat),
              control self lat_in (Timestep t) (r_conds r) (r_cimg r) kw,
              fst (sched_step sch noise_pred t lat))
    /\ ((Py.in_0_1 (r_cfg_scale r) = true
         /\ dc_x c = lat_in /\ noise_pred = unet c)
        \/ (Py.in_0_1 (r_cfg_scale r) = false
            /\ exists ilat img_scale noises,
                r_ilat r = Some ilat /\ a_img_scale (a self) = Some img_scale
                /\ dc_x c = cat1 [lat_in; ilat]
                /\ chunk (unet c) (r_bs r) = Ok noises
                /\ pix2pix_guidance noises img_scale (r_cfg_scale r) (r_cws r)
                   = Ok noise_pred)
        \/ (Py.in_0_1 (r_cfg_scale r) = false
            /\ (r_ilat r = None \/ a_img_scale (a self) = None)
            /\ dc_x c = lat_in
            /\ exists noises,
                chunk (unet c) (r_bs r) = Ok noises
                /\ prompt_guidance noises (r_cfg_scale r) (r_cws r) = Ok noise_pred)).
Proof.
  intros H. unfold denoise_step in H. munfold.
  destruct (Torch.cat _) as [lat_in |] eqn:Hcat; [| discriminate].
  exists lat_in.
  destruct (Py.in_0_1 (r_cfg_scale r)) eqn:Hcfg.
  - destruct (sched_step _ _ _ _) as [sch' lat'] eqn:Hstep.
    injection H as <- <-. do 2 eexists. split; [reflexivity |].
    split; [reflexivity |]. split; [reflexivity |]. split; [reflexivity |].
    split; [rewrite Hstep; reflexivity |].
    left. auto.
  - destruct (r_ilat r) as [ilat |] eqn:Hilat;
      [destruct (a_img_scale (a self)) as [img_scale |] eqn:Himg |].
    + destruct (chunk _ _) as [noises |] eqn:Hchunk; [| discriminate].
      destruct (pix2pix_guidance _ _ _ _) as [noise_pred |] eqn:Hg; [| discriminate].
      destruct (sched_step _ _ _ _) as [sch' lat'] eqn:Hstep.
      injection H as <- <-. do 2 eexists. split; [reflexivity |].
      split; [reflexivity |]. split; [reflexivity |]. split; [reflexivity |].
      split; [rewrite Hstep; reflexivity |].
      right. left. split; [reflexivity |]. do 3 eexists. eauto.
    + destruct (chunk _ _) as [noises |] eqn:Hchunk; [| discriminate].
      destruct (prompt_guidance _ _ _) as [noise_pred |] eqn:Hg; [| discriminate].
      destruct (sched_step _ _ _ _) as [sch' lat'] eqn:Hstep.
      injection H as <- <-. do 2 eexists. split; [reflexivity |].
      split; [reflexivity |]. split; [reflexivity |]. split; [reflexivity |].
      split; [rewrite Hstep; reflexivity |].
      right. right. split; [reflexivity |]. split; [right; reflexivity |].
      split; [reflexivity |]. eauto.
    + destruct (chunk _ _) as [noises |] eqn:Hchunk; [| discriminate].
      destruct (prompt_guidance _ _ _) as [noise_pred |] eqn:Hg; [| discriminate].
      destruct (sched_step _ _ _ _) as [sch' lat'] eqn:Hstep.
      injection H as <- <-. do 2 eexists. split; [reflexivity |].
      split; [reflexivity |]. split; [reflexivity |]. split; [reflexivity |].
      split; [rewrite Hstep; reflexivity |].
      right. right. split; [reflexivity |]. split; [left; reflexivity |].
      split; [reflexivity |]. eauto.
Qed.

(** What one call of [model_fn] does. *)
Lemma model_fn_inv {B : Backend} (self : SDfu) (r : run) (x : tensor) (t : list Q)
    (log : list denoise_call) (noise_pred : tensor) (log' : list denoise_call) :
  model_fn self r x t log = Ok (noise_pred, log') ->
  exists x_in t_in c,
    Torch.cat (Py.list_mul
                 [inject self (r_mask r) (r_masked_lat r) (r_depth r) x] (r_bs r))
    = Ok x_in
    /\ cat_1d (Py.list_mul [t] (r_bs r)) = Ok t_in
    /\ log' = log ++ [c]
    /\ dc_cond c = r_conds r
    /\ dc_t c = Sigmas t_in
    /\ ((Py.in_0_1 (r_cfg_scale r) = true
         /\ dc_x c = x_in /\ noise_pred = kdiff_model c)
        \/ (Py.in_0_1 (r_cfg_scale r) = false
            /\ exists ilat img_scale t0 sigma,
                r_ilat r = Some ilat /\ a_img_scale (a self) = Some img_scale
                /\ Py.getitem t_in 0 = Ok t0
                /\ sigma_at (sigmas self) t0 = Ok sigma
                /\ dc_x c = cat1 [divs x_in (pow_half (sigma * sigma + 1)); ilat]
                /\ pix2pix_guidance (map (fun row => [row]) (kdiff_model c))
                     img_scale (r_cfg_scale r) (r_cws r) = Ok noise_pred)
        \/ (Py.in_0_1 (r_cfg_scale r) = false
            /\ (r_ilat r = None \/ a_img_scale (a self) = None)
            /\ dc_x c = x_in
            /\ exists noises,
                chunk (kdiff_model c) (r_bs r) = Ok noises
                /\ prompt_guidance noises (r_cfg_scale r) (r_cws r) = Ok noise_pred)).
Proof.
  intros H. unfold model_fn in H. munfold.
  destruct (Torch.cat _) as [x_in |] eqn:Hcat; [| discriminate].
  destruct (cat_1d _) as [t_in |] eqn:Hcat_t; [| discriminate].
  exists x_in, t_in.
  destruct (Py.in_0_1 (r_cfg_scale r)) eqn:Hcfg.
  - injection H as <- <-. eexists. do 5 (split; [reflexivity |]).
    left. auto.
  - destruct (r_ilat r) as [ilat |] eqn:Hilat;
      [destruct (a_img_scale (a self)) as [img_scale |] eqn:Himg |].
    + destruct (Py.getitem t_in 0) as [t0 |] eqn:Ht0; [| discriminate].
      destruct (sigma_at _ _) as [sigma |] eqn:Hsig; [| discriminate].
      destruct (pix2pix_guidance _ _ _ _) as [np |] eqn:Hg; [| discriminate].
      injection H as <- <-. eexists. do 5 (split; [reflexivity |]).
      right. left. split; [reflexivity |]. exists ilat, img_scale, t0, sigma.
      repeat split; assumption.
    + destruct (chunk _ _) as [noises |] eqn:Hchunk; [| discriminate].
      destruct (prompt_guidance _ _ _) as [np |] eqn:Hg; [| discriminate].
      injection H as <- <-. eexists. do 5 (split; [reflexivity |]).
      right. right. split; [reflexivity |]. split; [right; reflexivity |].
      split; [reflexivity |]. eauto.
    + destruct (chunk _ _) as [noises |] eqn:Hchunk; [| discriminate].
      destruct (prompt_guidance _ _ _) as [np |] eqn:Hg; [| discriminate].
      injection H as <- <-. eexists. do 5 (split; [reflexivity |]).
      right. right. split; [reflexivity |]. split; [left; reflexivity |].
      split; [reflexivity |]. eauto.
Qed.

(** A run of [generate] on the residual-scheduler family. *)
Lemma generate_inv {B : Backend} (self : SDfu) (lat cs uc : tensor)
    (cfg_scale : option Q) (mask masked_lat depth : option tensor)
    (cws : option (list Q)) (cimg ilat : option tensor) (offset : Z)
    (log : list denoise_call) (out : tensor) (log' : list denoise_call) :
  generate self lat cs uc cfg_scale mask masked_lat depth cws cimg ilat offset log
  = Ok (out, log') ->
  exists r lat',
    prepare self cs uc cfg_scale mask masked_lat depth cws cimg ilat = Ok r
    /\ sample self r lat offset log = Ok (lat', log')
    /\ out = finish self r lat'.
Proof.
  intros H. unfold generate in H. munfold.
  destruct (prepare _ _ _ _ _ _ _ _ _ _) as [r |]; [| discriminate].
  destruct (sample _ _ _ _ _) as [[lat' log1] |] eqn:Hs; [| discriminate].
  injection H as <- <-. exists r, lat'. auto.
Qed.

Lemma prepare_inv {B : Backend} (self : SDfu) (cs uc : tensor)
    (cfg_scale : option Q) (mask masked_lat depth : option tensor)
    (cws : option (list Q)) (cimg ilat : option tensor) (r : run) :
  prepare self cs uc cfg_scale mask masked_lat depth cws cimg ilat = Ok r ->
  let cfg := match cfg_scale with
             | None => a_cfg_scale (a self)
             | Some c => c
             end in
  r_cfg_scale r = cfg
  /\ r_conds r = conds_of self cfg uc cs ilat
  /\ default_cws cws cs = Ok (r_cws r)
  /\ Py.floordiv (Torch.len (r_conds r)) (a_batch (a self)) = Ok (r_bs r)
  /\ expand_to (r_conds r) cimg = Ok (r_cimg r)
  /\ expand_to (r_conds r) ilat = Ok (r_ilat r)
  /\ r_mask r = mask /\ r_masked_lat r = masked_lat /\ r_depth r = depth.
Proof.
  unfold prepare. intros H.
  destruct (default_cws cws cs) as [w |] eqn:Hw; simpl in H; [| discriminate].
  destruct (Py.floordiv _ _) as [bs |] eqn:Hbs; simpl in H; [| discriminate].
  destruct (expand_to _ cimg) as [ci |] eqn:Hci; simpl in H; [| discriminate].
  destruct (expand_to _ ilat) as [il |] eqn:Hil; simpl in H; [| discriminate].
  injection H as <-. simpl. repeat split; assumption.
Qed.

Lemma sample_residual_calls {B : Backend} (self : SDfu) (r : run) (lat : tensor)
    (offset : Z) (log : list denoise_call) (lat' : tensor)
    (log' : list denoise_call) :
  use_kdiff self = false ->
  sample self r lat offset log = Ok (lat', log') ->
  exists calls,
    log' = log ++ calls
    /\ length calls = length (Py.slice_from offset (timesteps self))
    /\ Forall (fun c => dc_cond c = r_conds r) calls.
Proof.
  intros Hk H. unfold sample in H. rewrite Hk in H. munfold.
  destruct (for_ _ _ _ _) as [[st log1] |] eqn:Hfor; [| discriminate].
  injection H as <- <-.
  eapply for_calls; [| exact Hfor].
  intros t [[l kw] sch] lg s' lg' Hstep.
  destruct (denoise_step_inv Hstep) as (lat_in & c & np & _ & Hlog & Hcond & _).
  exists c. auto.
Qed.

(** ** Runs that return *)

Lemma length_concat_repeat {A} (xs : list A) (n : nat) :
  length (concat (repeat xs n)) = (n * length xs)%nat.
Proof.
  induction n as [| n IH]; simpl; [reflexivity |].
  rewrite length_app, IH. reflexivity.
Qed.

Lemma length_repeat_interleave (t : tensor) (n : Z) :
  length (repeat_interleave t n) = (length t * Z.to_nat n)%nat.
Proof.
  unfold repeat_interleave. induction t as [| r t IH]; simpl; [reflexivity |].
  rewrite length_app, repeat_length, IH. reflexivity.
Qed.

Lemma length_slice_to {A} (k : Z) (xs : list A) :
  (0 <= k)%Z -> length (Py.slice_to k xs) = Nat.min (Z.to_nat k) (length xs).
Proof.
  intros Hk. unfold Py.slice_to, Py.bound. rewrite length_firstn.
  destruct (Z.ltb_spec k 0); lia.
Qed.

Lemma len_conds_ge_batch {B : Backend} (self : SDfu) (cfg : Q) (uc cs : tensor) :
  (1 <= a_batch (a self))%Z -> uc <> [] -> cs <> [] ->
  (a_batch (a self) <= Torch.len (conds_of self cfg uc cs None))%Z.
Proof.
  intros Hb Huc Hcs. unfold conds_of, Torch.len, Py.len. cbv zeta.
  assert (Hu : (1 <= length uc)%nat) by (destruct uc; [congruence | simpl; lia]).
  assert (Hc : (1 <= length cs)%nat) by (destruct cs; [congruence | simpl; lia]).
  destruct (Z.gtb_spec (a_batch (a self)) 1) as [Hgt | Hle].
  - destruct (Qeq_bool cfg 0); [| destruct (Qeq_bool cfg 1)].
    + unfold repeat0. rewrite (@length_concat_repeat row). nia.
    + rewrite length_slice_to by lia. rewrite length_repeat_interleave. nia.
    + rewrite length_app. unfold repeat0. rewrite (@length_concat_repeat row). nia.
  - assert (Hb1 : a_batch (a self) = 1%Z) by lia. rewrite Hb1.
    destruct (Qeq_bool cfg 0); [| destruct (Qeq_bool cfg 1)].
    + lia.
    + rewrite length_slice_to by lia. lia.
    + rewrite length_app. lia.
Qed.

Lemma default_cws_ok (cws : option (list Q)) (cs : tensor) :
  cs <> [] -> exists w, default_cws cws cs = Ok w /\ w <> [].
Proof.
  intros Hcs.
  assert (Hc : (1 <= Torch.len cs)%Z).
  { unfold Torch.len, Py.len. destruct cs; [congruence | simpl; lia]. }
  assert (Hu : exists w,
             rbind (Py.truediv 1 (Torch.len cs))
               (fun w => Ok (Py.list_mul [w] (Torch.len cs))) = Ok w /\ w <> []).
  { unfold Py.truediv. destruct (Z.eqb_spec (Torch.len cs) 0) as [H0 | _]; [lia |].
    simpl. eexists. split; [reflexivity |].
    unfold Py.list_mul. intros Hnil. apply (f_equal (@length Q)) in Hnil.
    rewrite length_concat_repeat in Hnil. simpl in Hnil. lia. }
  unfold default_cws. destruct cws as [w |]; [| exact Hu].
  destruct (Z.eqb_spec (Py.len w) (Torch.len cs)) as [Heq | _]; [| exact Hu].
  exists w. split; [reflexivity |]. intros ->. unfold Py.len in Heq. simpl in Heq. lia.
Qed.

Lemma prepare_ok {B : Backend} (self : SDfu) (cs uc : tensor)
    (cfg_scale : option Q) (mask masked_lat depth : option tensor)
    (cws : option (list Q)) (cimg : option tensor) :
  (1 <= a_batch (a self))%Z -> uc <> [] -> cs <> [] ->
  (forall ci, cimg = Some ci -> ci <> []) ->
  exists r,
    prepare self cs uc cfg_scale mask masked_lat depth cws cimg None = Ok r
    /\ (1 <= r_bs r)%Z /\ r_cws r <> [] /\ r_ilat r = None.
Proof.
  intros Hb Huc Hcs Hci. unfold prepare.
  destruct (default_cws_ok cws Hcs) as (w & -> & Hw). simpl.
  set (cfg := match cfg_scale with None => a_cfg_scale (a self) | Some c => c end).
  pose proof (@len_conds_ge_batch B self cfg uc cs Hb Huc Hcs) as Hlen.
  unfold Py.floordiv. destruct (Z.eqb_spec (a_batch (a self)) 0) as [H0 | _]; [lia |].
  simpl.
  assert (Hex : exists ci', expand_to (conds_of self cfg uc cs None) cimg = Ok ci').
  { unfold expand_to. destruct cimg as [ci |]; [| eexists; reflexivity].
    unfold Py.floordiv. destruct (Z.eqb_spec (Torch.len ci) 0) as [H0 | _].
    - exfalso. apply (Hci ci eq_refl). unfold Torch.len, Py.len in H0.
      destruct ci; [reflexivity | simpl in H0; lia].
    - simpl. eexists. reflexivity. }
  destruct Hex as [ci' ->]. simpl. eexists. split; [reflexivity |]. simpl.
  split; [| auto].
  apply Z.div_le_lower_bound; lia.
Qed.

Lemma getitem_nth {A} (xs : list A) (i : nat) (d : A) :
  (i < length xs)%nat -> Py.getitem xs i = Ok (nth i xs d).
Proof.
  intros Hi. unfold Py.getitem.
  rewrite (nth_error_nth' xs d Hi). reflexivity.
Qed.

Lemma mod_len {A} (xs : list A) (i : nat) :
  xs <> [] -> Py.mod_ (Z.of_nat i) (Py.len xs) = Ok (Z.of_nat (i mod length xs)).
Proof.
  intros Hxs. unfold Py.mod_, Py.len.
  destruct (Z.eqb_spec (Z.of_nat (length xs)) 0) as [H0 | _].
  - destruct xs; [congruence | simpl in H0; lia].
  - rewrite Nat2Z.inj_mod. reflexivity.
Qed.

Lemma guidance_body_ok (noises : list tensor) (first base : nat) (cfg_scale : Q)
    (cws : list Q) (noise_pred : tensor) (i : nat) :
  cws <> [] -> (base < length noises)%nat -> (i + first < length noises)%nat ->
  guidance_body noises first base cfg_scale cws (Ok noise_pred) i
  = Ok (add noise_pred
          (muls (muls (sub (nth (i + first) noises []) (nth base noises []))
                   cfg_scale)
             (weight cws i))).
Proof.
  intros Hcws Hbase Hi. unfold guidance_body. cbn [rbind].
  assert (Hlen : (0 < length cws)%nat) by (destruct cws; [congruence | simpl; lia]).
  rewrite (@getitem_nth tensor noises _ [] Hi). cbn [rbind].
  rewrite (@getitem_nth tensor noises _ [] Hbase). cbn [rbind].
  rewrite (mod_len i Hcws). cbn [rbind]. rewrite Nat2Z.id.
  rewrite (@getitem_nth Q cws _ 0) by (apply Nat.mod_upper_bound; lia).
  reflexivity.
Qed.

Lemma guidance_loop_fold (noises : list tensor) (first base : nat) (cfg_scale : Q)
    (cws : list Q) (idxs : list nat) (noise_pred : tensor) :
  cws <> [] -> (base < length noises)%nat ->
  Forall (fun i => (i + first < length noises)%nat) idxs ->
  fold_left (guidance_body noises first base cfg_scale cws) idxs (Ok noise_pred)
  = Ok (guidance_fold noises first base cfg_scale cws idxs noise_pred).
Proof.
  intros Hcws Hbase. revert noise_pred.
  induction idxs as [| i idxs IH]; intros noise_pred Hall; [reflexivity |].
  inversion Hall as [| ? ? Hi Hall']; subst.
  cbn [fold_left]. rewrite guidance_body_ok by assumption.
  exact (IH _ Hall').
Qed.

Lemma range_in_bounds (n first : nat) :
  Forall (fun i => (i + first < n)%nat)
    (Py.range (Z.of_nat n - Z.of_nat first)).
Proof.
  unfold Py.range. apply Forall_forall. intros i Hi. apply in_seq in Hi. lia.
Qed.

Lemma guidance_loop_eq (noises : list tensor) (first base : nat) (cfg_scale : Q)
    (cws : list Q) (noise_pred : tensor) :
  cws <> [] -> (base < length noises)%nat ->
  guidance_loop noises first base cfg_scale cws noise_pred
  = Ok (guidance_fold noises first base cfg_scale cws
          (Py.range (Py.len noises - Z.of_nat first)) noise_pred).
Proof.
  intros Hcws Hbase. unfold guidance_loop.
  apply guidance_loop_fold; [assumption | assumption |].
  apply range_in_bounds.
Qed.

Lemma prompt_guidance_eq (u : tensor) (texts : list tensor) (cfg_scale : Q)
    (cws : list Q) :
  cws <> [] ->
  prompt_guidance (u :: texts) cfg_scale cws
  = Ok (guidance_fold (u :: texts) 1 0 cfg_scale cws (seq 0 (length texts)) u).
Proof.
  intros Hcws. unfold prompt_guidance. simpl.
  rewrite guidance_loop_eq by (simpl; auto; lia).
  unfold Py.range, Py.len. simpl length.
  replace (Z.to_nat (Z.of_nat (S (length texts)) - Z.of_nat 1)) with (length texts) by lia.
  reflexivity.
Qed.

Lemma pix2pix_guidance_eq (u g : tensor) (texts : list tensor)
    (img_scale cfg_scale : Q) (cws : list Q) :
  cws <> [] ->
  pix2pix_guidance (u :: g :: texts) img_scale cfg_scale cws
  = Ok (guidance_fold (u :: g :: texts) 2 1 cfg_scale cws (seq 0 (length texts))
          (add u (smul img_scale (sub g u)))).
Proof.
  intros Hcws. unfold pix2pix_guidance. simpl.
  rewrite guidance_loop_eq by (simpl; auto; lia).
  unfold Py.range, Py.len. simpl length.
  replace (Z.to_nat (Z.of_nat (S (S (length texts))) - Z.of_nat 2))
    with (length texts) by lia.
  reflexivity.
Qed.

Lemma chunk_ok (t : tensor) (n : Z) :
  (1 <= n)%Z -> exists noises, chunk t n = Ok noises /\ noises <> [].
Proof.
  intros Hn. unfold chunk. destruct (Z.leb_spec n 0) as [H0 | _]; [lia |].
  destruct t as [| r t].
  - eexists. split; [reflexivity |].
    destruct (Z.to_nat n) eqn:Hz; [lia | simpl; discriminate].
  - eexists. split; [reflexivity |]. simpl. discriminate.
Qed.

Lemma cat_list_mul_ok (x : tensor) (n : Z) :
  (1 <= n)%Z -> exists y, Torch.cat (Py.list_mul [x] n) = Ok y.
Proof.
  intros Hn. unfold Py.list_mul.
  destruct (Z.to_nat n) as [| k] eqn:Hz; [lia |].
  simpl. eexists. reflexivity.
Qed.

Lemma prompt_guidance_ok (noises : list tensor) (cfg_scale : Q) (cws : list Q) :
  noises <> [] -> cws <> [] ->
  exists noise_pred, prompt_guidance noises cfg_scale cws = Ok noise_pred.
Proof.
  intros Hn Hcws. destruct noises as [| u texts]; [congruence |].
  rewrite prompt_guidance_eq by assumption. eexists. reflexivity.
Qed.

Lemma denoise_step_ok {B : Backend} (self : SDfu) (r : run) :
  (1 <= r_bs r)%Z -> r_cws r <> [] -> r_ilat r = None ->
  forall t st log, exists st' log', denoise_step self r t st log = Ok (st', log').
Proof.
  intros Hbs Hcws Hilat t [[lat kw] sch] log. unfold denoise_step. munfold.
  destruct (cat_list_mul_ok
              (inject self (r_mask r) (r_masked_lat r) (r_depth r)
                 (scale_model_input sch lat t)) Hbs) as [lat_in ->].
  rewrite Hilat.
  destruct (Py.in_0_1 (r_cfg_scale r)).
  - destruct (sched_step _ _ _ _). do 2 eexists. reflexivity.
  - match goal with
    | |- context [chunk ?o (r_bs r)] =>
        destruct (chunk_ok o Hbs) as (noises & -> & Hne)
    end.
    destruct (prompt_guidance_ok (r_cfg_scale r) Hne Hcws) as [np ->].
    destruct (sched_step _ _ _ _). do 2 eexists. reflexivity.
Qed.

Lemma for_ok {A S} (body : A -> S -> M S) :
  (forall x s log, exists s' log', body x s log = Ok (s', log')) ->
  forall xs s log, exists s' log', for_ xs body s log = Ok (s', log').
Proof.
  intros Hbody. induction xs as [| x xs IH]; intros s log; simpl.
  - do 2 eexists. reflexivity.
  - unfold bind. destruct (Hbody x s log) as (s1 & log1 & ->). apply IH.
Qed.

Lemma generate_residual_ok {B : Backend} (self : SDfu) (lat cs uc : tensor)
    (cfg_scale : option Q) (mask masked_lat depth : option tensor)
    (cws : option (list Q)) (cimg : option tensor) (offset : Z)
    (log : list denoise_call) :
  use_kdiff self = false ->
  (1 <= a_batch (a self))%Z -> uc <> [] -> cs <> [] ->
  (forall ci, cimg = Some ci -> ci <> []) ->
  exists out log',
    generate self lat cs uc cfg_scale mask masked_lat depth cws cimg None offset log
    = Ok (out, log').
Proof.
  intros Hk Hb Huc Hcs Hci. unfold generate.
  destruct (@prepare_ok B self cs uc cfg_scale mask masked_lat depth cws cimg
              Hb Huc Hcs Hci) as (r & Hr & Hbs & Hcws & Hilat).
  munfold. rewrite Hr. unfold sample. rewrite Hk. munfold.
  destruct (for_ok (denoise_step_ok self Hbs Hcws Hilat)
              (Py.slice_from offset (timesteps self)) (lat, None, scheduler self) log)
    as (st & log' & ->).
  do 2 eexists. reflexivity.
Qed.

(** ** The schedule and the number of denoiser calls *)




(** ** Element-wise arithmetic on tensors of one shape *)

Lemma bmap2_same_length {A} (f : A -> A -> A) (xs ys : list A) :
  length xs = length ys -> bmap2 f xs ys = map2 f xs ys.
Proof.
  destruct xs as [| x [| x' xs]]; destruct ys as [| y [| y' ys]];
    simpl; try discriminate; reflexivity.
Qed.

Lemma bmap2_singleton_r {A} (f : A -> A -> A) (xs : list A) (y : A) :
  bmap2 f xs [y] = map (fun x => f x y) xs.
Proof. destruct xs as [| x [| x' xs]]; reflexivity. Qed.

Lemma length_map2 {A B C} (f : A -> B -> C) (xs : list A) (ys : list B) :
  length xs = length ys -> length (map2 f xs ys) = length xs.
Proof.
  revert ys. induction xs as [| x xs IH]; intros [| y ys] H; simpl in *;
    try discriminate; [reflexivity |].
  f_equal. apply IH. congruence.
Qed.

Lemma nth_map2 {A B C} (f : A -> B -> C) (xs : list A) (ys : list B) (i : nat)
    (da : A) (db : B) (dc : C) :
  length xs = length ys -> (i < length xs)%nat ->
  nth i (map2 f xs ys) dc = f (nth i xs da) (nth i ys db).
Proof.
  revert ys i. induction xs as [| x xs IH]; intros [| y ys] i H Hi; simpl in *;
    try discriminate; [lia |].
  destruct i as [| i]; [reflexivity |].
  apply IH; [congruence | lia].
Qed.

Lemma map2_ext_nth {A B C} (f g : A -> B -> C) (xs : list A) (ys : list B)
    (da : A) (db : B) :
  (forall i, (i < length xs)%nat -> f (nth i xs da) (nth i ys db)
                                    = g (nth i xs da) (nth i ys db)) ->
  map2 f xs ys = map2 g xs ys.
Proof.
  revert ys. induction xs as [| x xs IH]; intros [| y ys] H; simpl; try reflexivity.
  f_equal.
  - apply (H 0%nat). simpl. lia.
  - apply IH. intros i Hi. apply (H (S i)). simpl. lia.
Qed.

Lemma nth_nil {A} (i : nat) (d : A) : nth i [] d = d.
Proof. destruct i; reflexivity. Qed.

Lemma at3_nil (i j k : nat) : at3 [] i j k = 0.
Proof. unfold at3. rewrite !nth_nil. reflexivity. Qed.

Lemma shape_nth (t : tensor) (i j : nat) :
  nth j (nth i (shape t) []) 0%nat = length (nth j (nth i t []) []).
Proof.
  unfold shape.
  change (@nil nat) with (map (@length Q) (@nil chan)).
  rewrite map_nth.
  change 0%nat with (@length Q []).
  rewrite map_nth. reflexivity.
Qed.

Lemma inside_lengths (t : tensor) (i j k : nat) :
  inside (shape t) i j k ->
  (i < length t)%nat /\ (j < length (nth i t []))%nat
  /\ (k < length (nth j (nth i t []) []))%nat.
Proof.
  unfold inside. rewrite shape_nth. intros Hk.
  assert (Hj : (j < length (nth i t []))%nat).
  { destruct (Nat.lt_ge_cases j (length (nth i t []))) as [H | H]; [exact H |].
    rewrite (nth_overflow _ _ H) in Hk. simpl in Hk. lia. }
  assert (Hi : (i < length t)%nat).
  { destruct (Nat.lt_ge_cases i (length t)) as [H | H]; [exact H |].
    rewrite (nth_overflow _ _ H) in Hj. simpl in Hj. lia. }
  auto.
Qed.

Lemma shape_eq_lengths (a b : tensor) (i j : nat) :
  shape a = shape b ->
  length a = length b
  /\ length (nth i a []) = length (nth i b [])
  /\ length (nth j (nth i a []) []) = length (nth j (nth i b []) []).
Proof.
  intros H. repeat split.
  - apply (f_equal (@length _)) in H. unfold shape in H.
    rewrite !length_map in H. exact H.
  - apply (f_equal (fun s => length (nth i s []))) in H. unfold shape in H.
    change (@nil nat) with (map (@length Q) (@nil chan)) in H.
    rewrite !map_nth, !length_map in H. exact H.
  - rewrite <- !shape_nth. rewrite H. reflexivity.
Qed.

Lemma at3_lift2 (f : Q -> Q -> Q) (a b : tensor) (i j k : nat) :
  shape a = shape b -> inside (shape a) i j k ->
  at3 (lift2 f a b) i j k = f (at3 a i j k) (at3 b i j k).
Proof.
  intros Hs Hin.
  destruct (inside_lengths Hin) as (Hi & Hj & Hk).
  destruct (shape_eq_lengths i j Hs) as (Hl0 & Hl1 & Hl2).
  unfold at3, lift2. rewrite bmap2_same_length by exact Hl0.
  rewrite (nth_map2 _ [] [] [] Hl0 Hi).
  rewrite bmap2_same_length by exact Hl1.
  rewrite (nth_map2 _ [] [] [] Hl1 Hj).
  rewrite bmap2_same_length by exact Hl2.
  rewrite (nth_map2 _ 0 0 0 Hl2 Hk). reflexivity.
Qed.

Lemma shape_lift2 (f : Q -> Q -> Q) (a b : tensor) :
  shape a = shape b -> shape (lift2 f a b) = shape a.
Proof.
  unfold lift2. revert b. induction a as [| ra a IH]; intros [| rb b] H;
    simpl in H; try discriminate; [reflexivity |].
  injection H as Hr Hs.
  assert (Hlen : length (ra :: a) = length (rb :: b)).
  { simpl. f_equal. apply (f_equal (@length _)) in Hs. unfold shape in Hs.
    rewrite !length_map in Hs. exact Hs. }
  rewrite bmap2_same_length by exact Hlen. simpl. f_equal.
  - clear IH Hs Hlen. revert rb Hr.
    induction ra as [| ca ra IH]; intros [| cb rb] H; simpl in H; try discriminate;
      [reflexivity |].
    injection H as Hc Hr.
    assert (Hlen : length (ca :: ra) = length (cb :: rb)).
    { simpl. f_equal. apply (f_equal (@length _)) in Hr.
      rewrite !length_map in Hr. exact Hr. }
    rewrite bmap2_same_length by exact Hlen. simpl. f_equal.
    + rewrite bmap2_same_length by exact Hc. apply length_map2. exact Hc.
    + specialize (IH rb Hr).
      rewrite bmap2_same_length in IH by (simpl in Hlen; congruence). exact IH.
  - specialize (IH b Hs).
    rewrite bmap2_same_length in IH by (simpl in Hlen; congruence). exact IH.
Qed.

Lemma shape_map_scalar (f : Q -> Q) (t : tensor) :
  shape (map_scalar f t) = shape t.
Proof.
  unfold shape, map_scalar. rewrite map_map. apply map_ext. intros r.
  rewrite map_map. apply map_ext. intros c. apply length_map.
Qed.

Lemma at3_map_scalar (f : Q -> Q) (t : tensor) (i j k : nat) :
  inside (shape t) i j k -> at3 (map_scalar f t) i j k = f (at3 t i j k).
Proof.
  intros Hin. destruct (inside_lengths Hin) as (Hi & Hj & Hk).
  unfold at3, map_scalar.
  change (@nil chan) with (map (map f) (@nil chan)) at 1.
  rewrite map_nth.
  change (@nil Q) with (map f (@nil Q)) at 1.
  rewrite map_nth.
  rewrite (nth_indep _ 0 (f 0)) by (rewrite length_map; exact Hk).
  apply map_nth.
Qed.

(** ** The guidance loop, position by position *)

(** Every pass of the loop keeps the shape. *)
Lemma guidance_fold_shape (noises : list tensor) (first base : nat) (cfg_scale : Q)
    (cws : list Q) (s : list (list nat)) (idxs : list nat) :
  all_shaped s noises -> (base < length noises)%nat ->
  Forall (fun n => (n + first < length noises)%nat) idxs ->
  forall noise_pred, shape noise_pred = s ->
    shape (guidance_fold noises first base cfg_scale cws idxs noise_pred) = s.
Proof.
  intros Hall Hbase Hidx.
  assert (Hshape : forall n, (n < length noises)%nat -> shape (nth n noises []) = s).
  { intros n Hn. unfold all_shaped in Hall. rewrite Forall_forall in Hall.
    apply Hall. apply nth_In. exact Hn. }
  induction idxs as [| n idxs IH]; intros noise_pred Hnp; [exact Hnp |].
  inversion Hidx as [| ? ? Hn Hidx']; subst.
  unfold guidance_fold. cbn [fold_left]. apply (IH Hidx').
  unfold add, muls, sub. rewrite shape_lift2; [reflexivity |].
  rewrite !shape_map_scalar, shape_lift2; rewrite !Hshape by assumption; reflexivity.
Qed.

(** The loop on scalars: what it leaves at one position. *)
Lemma guidance_fold_at (noises : list tensor) (first base : nat) (cfg_scale : Q)
    (cws : list Q) (s : list (list nat)) (idxs : list nat) (i j k : nat) :
  all_shaped s noises -> (base < length noises)%nat ->
  Forall (fun n => (n + first < length noises)%nat) idxs ->
  inside s i j k ->
  forall noise_pred, shape noise_pred = s ->
    at3 (guidance_fold noises first base cfg_scale cws idxs noise_pred) i j k
    = fold_left
        (fun acc n =>
           acc + (at3 (nth (n + first) noises []) i j k
                  - at3 (nth base noises []) i j k) * cfg_scale * weight cws n)
        idxs (at3 noise_pred i j k).
Proof.
  intros Hall Hbase Hidx Hin.
  assert (Hshape : forall n, (n < length noises)%nat -> shape (nth n noises []) = s).
  { intros n Hn. unfold all_shaped in Hall. rewrite Forall_forall in Hall.
    apply Hall. apply nth_In. exact Hn. }
  induction idxs as [| n idxs IH]; intros noise_pred Hnp; [reflexivity |].
  inversion Hidx as [| ? ? Hn Hidx']; subst.
  unfold guidance_fold. cbn [fold_left].
  set (term := muls (muls (sub (nth (n + first) noises []) (nth base noises []))
                       cfg_scale) (weight cws n)).
  assert (Hsub : shape (sub (nth (n + first) noises []) (nth base noises []))
                 = shape noise_pred).
  { unfold sub. rewrite shape_lift2; rewrite !Hshape by assumption; reflexivity. }
  assert (Hterm : shape term = shape noise_pred).
  { unfold term, muls. rewrite !shape_map_scalar. exact Hsub. }
  assert (Hin' : inside (shape noise_pred) i j k) by exact Hin.
  pose proof (IH Hidx' (add noise_pred term)) as IHv.
  unfold guidance_fold in IHv. rewrite IHv.
  2:{ unfold add. rewrite shape_lift2 by (symmetry; exact Hterm). reflexivity. }
  f_equal.
  unfold add. rewrite at3_lift2 by (auto; symmetry; exact Hterm). f_equal.
  unfold term, muls.
  rewrite at3_map_scalar
    by (rewrite shape_map_scalar, Hsub; exact Hin').
  rewrite at3_map_scalar by (rewrite Hsub; exact Hin').
  unfold sub. rewrite at3_lift2; [reflexivity | |].
  - rewrite !Hshape by assumption. reflexivity.
  - rewrite Hshape by assumption. exact Hin.
Qed.

Lemma fold_left_ext_in {A B} (f g : A -> B -> A) (xs : list B) (acc : A) :
  (forall a x, In x xs -> f a x = g a x) ->
  fold_left f xs acc = fold_left g xs acc.
Proof.
  revert acc. induction xs as [| x xs IH]; intros acc H; simpl; [reflexivity |].
  rewrite (H acc x) by (left; reflexivity).
  apply IH. intros a y Hy. apply H. right. exact Hy.
Qed.

(** The scalar loop over [texts], from prompt [m] on, is the sum of the
    specification. *)
Lemma scalar_fold_sum (cfg_scale : Q) (cws : list Q) (b : Q) (texts : list Q) :
  forall (m : nat) (acc : Q),
    fold_left
      (fun acc n => acc + (nth (n - m) texts 0 - b) * cfg_scale * weight cws n)
      (seq m (length texts)) acc
    == acc + guidance_sum cfg_scale cws b m texts.
Proof.
  induction texts as [| t texts IH]; intros m acc; simpl.
  - ring.
  - rewrite Nat.sub_diag.
    rewrite (fold_left_ext_in
               (g := fun acc n => acc + (nth (n - S m) texts 0 - b) * cfg_scale
                                        * weight cws n)).
    + rewrite IH. ring.
    + intros a n Hn. apply in_seq in Hn.
      replace (n - m)%nat with (S (n - S m)) by lia. reflexivity.
Qed.

Lemma nth_at_all (ts : list tensor) (n i j k : nat) :
  nth n (at_all ts i j k) 0 = at3 (nth n ts []) i j k.
Proof.
  revert n. induction ts as [| t ts IH]; intros n.
  - destruct n; simpl; rewrite at3_nil; reflexivity.
  - destruct n as [| n]; [reflexivity | apply IH].
Qed.

Lemma prompt_guidance_pointwise (u : tensor) (texts : list tensor) (cfg_scale : Q)
    (cws : list Q) :
  cws <> [] -> all_shaped (shape u) texts ->
  exists noise_pred,
    prompt_guidance (u :: texts) cfg_scale cws = Ok noise_pred
    /\ shape noise_pred = shape u
    /\ forall i j k, inside (shape u) i j k ->
         at3 noise_pred i j k
         == spec_prompt_guidance cfg_scale cws (at3 u i j k) (at_all texts i j k).
Proof.
  intros Hcws Hall. rewrite prompt_guidance_eq by exact Hcws.
  eexists. split; [reflexivity |].
  assert (Hall' : all_shaped (shape u) (u :: texts)) by (constructor; auto).
  assert (Hidx : Forall (fun n => (n + 1 < length (u :: texts))%nat)
                   (seq 0 (length texts))).
  { apply Forall_forall. intros n Hn. apply in_seq in Hn. simpl. lia. }
  assert (Hbase : (0 < length (u :: texts))%nat) by (simpl; lia).
  split.
  - apply guidance_fold_shape; auto.
  - intros i j k Hin.
    rewrite (@guidance_fold_at (u :: texts) 1 0 cfg_scale cws (shape u)
               (seq 0 (length texts)) i j k Hall' Hbase Hidx Hin u eq_refl).
    unfold spec_prompt_guidance.
    rewrite <- (scalar_fold_sum cfg_scale cws (at3 u i j k) (at_all texts i j k) 0
                  (at3 u i j k)).
    unfold at_all at 2. rewrite length_map.
    rewrite (fold_left_ext_in
               (g := fun acc n =>
                       acc + (nth (n - 0) (at_all texts i j k) 0 - at3 u i j k)
                             * cfg_scale * weight cws n)).
    + reflexivity.
    + intros acc n _. rewrite Nat.sub_0_r, nth_at_all.
      replace (n + 1)%nat with (S n) by lia. reflexivity.
Qed.

(** C2.  Standard multi-prompt guidance ([cfg_scale] neither 0 nor 1, no
    edit latent).  On both sampler families the noise estimate of a
    step is [prompt_guidance] of the chunks of the denoiser's output,
    taken in their order [uncond, text1, text2, ...]; and at every
    position of the tensors this is
    [uncond + sum over i of cfg_scale * weight_i * (text_i - uncond)],
    the weight of prompt [i] being [cws[i mod len(cws)]].  For two
    prompts, weights [0.3, 0.7] and [cfg_scale = 7] it is
    [uncond + 7 * (0.3 * (text1 - uncond) + 0.7 * (text2 - uncond))]. *)
Theorem multi_prompt_guidance :
  (forall (u : tensor) (texts : list tensor) (cfg_scale : Q) (cws : list Q),
      cws <> [] -> all_shaped (shape u) texts ->
      exists noise_pred,
        prompt_guidance (u :: texts) cfg_scale cws = Ok noise_pred
        /\ shape noise_pred = shape u
        /\ forall i j k, inside (shape u) i j k ->
             at3 noise_pred i j k
             == spec_prompt_guidance cfg_scale cws (at3 u i j k) (at_all texts i j k))
  /\ (forall (u t1 t2 : tensor),
         shape t1 = shape u -> shape t2 = shape u ->
         exists noise_pred,
           prompt_guidance [u; t1; t2] 7 [3 # 10; 7 # 10] = Ok noise_pred
           /\ forall i j k, inside (shape u) i j k ->
                at3 noise_pred i j k
                == at3 u i j k
                   + 7 * ((3 # 10) * (at3 t1 i j k - at3 u i j k)
                          + (7 # 10) * (at3 t2 i j k - at3 u i j k)))
  /\ (forall (B : Backend) (self : SDfu) (r : run) (t : Z) (lat : tensor)
             (kw : ukwargs) (sch : sched) (log : list denoise_call)
             (st' : tensor * ukwargs * sched) (log' : list denoise_call),
         Py.in_0_1 (r_cfg_scale r) = false -> r_ilat r = None ->
         denoise_step self r t (lat, kw, sch) log = Ok (st', log') ->
         exists c noises noise_pred,
           log' = log ++ [c]
           /\ chunk (unet c) (r_bs r) = Ok noises
           /\ prompt_guidance noises (r_cfg_scale r) (r_cws r) = Ok noise_pred
           /\ fst (fst st') = snd (sched_step sch noise_pred t lat))
  /\ (forall (B : Backend) (self : SDfu) (r : run) (x : tensor) (t : list Q)
             (log : list denoise_call) (noise_pred : tensor)
             (log' : list denoise_call),
         Py.in_0_1 (r_cfg_scale r) = false -> r_ilat r = None ->
         model_fn self r x t log = Ok (noise_pred, log') ->
         exists c noises,
           log' = log ++ [c]
           /\ chunk (kdiff_model c) (r_bs r) = Ok noises
           /\ prompt_guidance noises (r_cfg_scale r) (r_cws r) = Ok noise_pred).
Proof.
  split; [exact prompt_guidance_pointwise |]. split; [| split].
  - intros u t1 t2 H1 H2.
    destruct (@prompt_guidance_pointwise u [t1; t2] 7 [3 # 10; 7 # 10])
      as (np & Hnp & _ & Hat).
    + discriminate.
    + repeat constructor; assumption.
    + exists np. split; [exact Hnp |]. intros i j k Hin.
      rewrite (Hat i j k Hin).
      unfold spec_prompt_guidance, at_all, guidance_sum, weight. simpl.
      lra.
  - intros B self r t lat kw sch log st' log' Hcfg Hilat Hstep.
    destruct (denoise_step_inv Hstep)
      as (lat_in & c & np & _ & Hlog & _ & _ & Hst & Hcase).
    destruct Hcase as [(Hc & _) | [(_ & il & s & ns & Hil & _) | (_ & _ & _ & ns & Hch & Hg)]].
    + congruence.
    + congruence.
    + exists c, ns, np. rewrite Hst. auto.
  - intros B self r x t log noise_pred log' Hcfg Hilat Hm.
    destruct (model_fn_inv Hm)
      as (x_in & t_in & c & _ & _ & Hlog & _ & _ & Hcase).
    destruct Hcase as [(Hc & _) | [(_ & il & s & t0 & sg & Hil & _) | (_ & _ & _ & ns & Hch & Hg)]].
    + congruence.
    + congruence.
    + exists c, ns. auto.
Qed.

Lemma multi_prompt_guidance_witness :
  exists noise_pred,
    prompt_guidance [[[[1; 2]]]; [[[3; 5]]]; [[[10; 20]]]] 7 [3 # 10; 7 # 10]
    = Ok noise_pred
    /\ at3 noise_pred 0 0 1 == 193 # 2.
Proof.
  destruct multi_prompt_guidance as (_ & H & _).
  destruct (H [[[1; 2]]] [[[3; 5]]] [[[10; 20]]] eq_refl eq_refl) as (np & Hnp & Hat).
  exists np. split; [exact Hnp |].
  rewrite (Hat 0%nat 0%nat 1%nat (Nat.lt_succ_diag_r 1)). reflexivity.
Defined.

(** ** Pixel-edit guidance *)

(** On the chunks [uncond, image-guided, text1, ...] the pixel-edit
    combination is, at every position,
    [uncond + image_scale * (image_guided - uncond)
     + sum over i of cfg_scale * weight_i * (text_i - image_guided)];
    this is what the loop over the timesteps computes. *)
Lemma pix2pix_guidance_pointwise (u g : tensor) (texts : list tensor)
    (img_scale cfg_scale : Q) (cws : list Q) :
  cws <> [] -> shape g = shape u -> all_shaped (shape u) texts ->
  exists noise_pred,
    pix2pix_guidance (u :: g :: texts) img_scale cfg_scale cws = Ok noise_pred
    /\ shape noise_pred = shape u
    /\ forall i j k, inside (shape u) i j k ->
         at3 noise_pred i j k
         == spec_pix2pix_guidance img_scale cfg_scale cws
              (at3 u i j k) (at3 g i j k) (at_all texts i j k).
Proof.
  intros Hcws Hg Hall. rewrite pix2pix_guidance_eq by exact Hcws.
  eexists. split; [reflexivity |].
  assert (Hall' : all_shaped (shape u) (u :: g :: texts))
    by (repeat constructor; auto).
  assert (Hidx : Forall (fun n => (n + 2 < length (u :: g :: texts))%nat)
                   (seq 0 (length texts))).
  { apply Forall_forall. intros n Hn. apply in_seq in Hn. simpl. lia. }
  assert (Hbase : (1 < length (u :: g :: texts))%nat) by (simpl; lia).
  assert (Hsub : shape (smul img_scale (sub g u)) = shape u).
  { unfold smul, sub. rewrite shape_map_scalar, shape_lift2; assumption. }
  assert (Hstart : shape (add u (smul img_scale (sub g u))) = shape u).
  { unfold add. apply shape_lift2. symmetry. exact Hsub. }
  split.
  - apply guidance_fold_shape; auto.
  - intros i j k Hin.
    rewrite (@guidance_fold_at (u :: g :: texts) 2 1 cfg_scale cws (shape u)
               (seq 0 (length texts)) i j k Hall' Hbase Hidx Hin _ Hstart).
    unfold spec_pix2pix_guidance.
    rewrite <- (scalar_fold_sum cfg_scale cws (at3 g i j k) (at_all texts i j k) 0
                  (at3 u i j k + img_scale * (at3 g i j k - at3 u i j k))).
    unfold at_all at 2. rewrite length_map.
    assert (Hat0 : at3 (add u (smul img_scale (sub g u))) i j k
                   = at3 u i j k + img_scale * (at3 g i j k - at3 u i j k)).
    { unfold add. rewrite at3_lift2 by (auto; symmetry; exact Hsub).
      unfold smul. rewrite at3_map_scalar
        by (unfold sub; rewrite shape_lift2, Hg by assumption; exact Hin).
      unfold sub. rewrite at3_lift2 by (first [exact Hg | rewrite Hg; exact Hin]).
      reflexivity. }
    rewrite Hat0.
    rewrite (fold_left_ext_in
               (g := fun acc n =>
                       acc + (nth (n - 0) (at_all texts i j k) 0 - at3 g i j k)
                             * cfg_scale * weight cws n)).
    + reflexivity.
    + intros acc n _. rewrite Nat.sub_0_r, nth_at_all.
      replace (n + 2)%nat with (S (S n)) by lia. reflexivity.
Qed.

(** C5, on the k-diffusion family with a batch of two.  The denoiser
    returns the six rows [uncond_a, uncond_b, image_a, image_b, text_a,
    text_b].  The loop over the timesteps chunks them into [uncond,
    image-guided, text] and combines these by the formula of the
    specification, giving [644.5] and [1289] for the two samples.
    [model_fn] does not chunk: it takes row 0 for the unconditional and
    row 1 (the unconditional prediction of the second sample) for the
    image-guided prediction, sums over the four rows left, and returns
    the single row [2256.5]. *)
Lemma pix2pix_model_fn_skips_chunk :
  Fixture.pix2pix_model_fn_prediction = Ok [[[4513 # 2]]]
  /\ chunk Fixture.six_rows 3
     = Ok [[[[1]]; [[2]]]; [[[10]]; [[20]]]; [[[100]]; [[200]]]]
  /\ pix2pix_guidance [[[[1]]; [[2]]]; [[[10]]; [[20]]]; [[[100]]; [[200]]]]
       (3 # 2) 7 [1]
     = Ok [[[1289 # 2]]; [[2578 # 2]]]
  /\ Fixture.pix2pix_loop_latent = Ok [[[1 - (1289 # 2)]]; [[1 - (2578 # 2)]]]
  /\ spec_pix2pix_guidance (3 # 2) 7 [1] 1 10 [100] == 1289 # 2
  /\ spec_pix2pix_guidance (3 # 2) 7 [1] 2 20 [200] == 2578 # 2.
Proof.
  split; [vm_compute; reflexivity |].
  split; [reflexivity |]. split; [reflexivity |].
  split; [vm_compute; reflexivity |].
  split; reflexivity.
Qed.

(** ** The conditioning of a run *)

Lemma nth_repeat0 (t : tensor) (n : Z) (i : nat) :
  (i < Z.to_nat n * length t)%nat ->
  nth i (repeat0 t n) [] = nth (i mod length t) t [].
Proof.
  unfold repeat0. generalize (Z.to_nat n). clear n. intros n. revert i.
  induction n as [| n IH]; intros i Hi; [simpl in Hi; lia |].
  simpl. destruct (Nat.lt_ge_cases i (length t)) as [Hlt | Hge].
  - rewrite app_nth1 by exact Hlt. rewrite Nat.mod_small by exact Hlt. reflexivity.
  - rewrite app_nth2 by exact Hge. rewrite IH by (simpl in Hi; lia).
    f_equal. assert (Hpos : length t <> 0%nat) by (simpl in Hi; lia).
    replace i with ((i - length t) + 1 * length t)%nat at 2 by lia.
    rewrite Nat.Div0.mod_add. reflexivity.
Qed.

Lemma nth_repeat_interleave (t : tensor) (n : Z) (i : nat) :
  (i < length t * Z.to_nat n)%nat ->
  nth i (repeat_interleave t n) [] = nth (i / Z.to_nat n) t [].
Proof.
  unfold repeat_interleave. generalize (Z.to_nat n). clear n. intros n. revert i.
  induction t as [| r t IH]; intros i Hi; [simpl in Hi; lia |].
  assert (Hn : n <> 0%nat) by (intros ->; lia).
  simpl flat_map. destruct (Nat.lt_ge_cases i n) as [Hlt | Hge].
  - rewrite app_nth1 by (rewrite repeat_length; exact Hlt).
    rewrite Nat.div_small by exact Hlt. simpl.
    apply nth_repeat_lt. exact Hlt.
  - rewrite app_nth2 by (rewrite repeat_length; exact Hge).
    rewrite repeat_length. rewrite IH by (simpl in Hi; lia).
    replace i with ((i - n) + 1 * n)%nat at 2 by lia.
    rewrite Nat.div_add by exact Hn.
    replace ((i - n) / n + 1)%nat with (S ((i - n) / n)) by lia. reflexivity.
Qed.

Lemma slice_to_firstn {A} (k : Z) (xs : list A) :
  (0 <= k)%Z -> Py.slice_to k xs = firstn (Z.to_nat k) xs.
Proof.
  intros Hk. unfold Py.slice_to, Py.bound.
  destruct (Z.ltb_spec k 0) as [H | _]; [lia |].
  destruct (Z.le_gt_cases k (Z.of_nat (length xs))) as [Hle | Hgt].
  - f_equal. lia.
  - rewrite Z.min_l by lia. rewrite Nat2Z.id.
    rewrite firstn_all. symmetry. apply firstn_all2. lia.
Qed.

Lemma conds_of_cases {B : Backend} (self : SDfu) (cfg_scale : Q) (uc cs : tensor)
    (ilat : option tensor) :
  let batch := a_batch (a self) in
  let uc' := if (batch >? 1)%Z then repeat0 uc batch else uc in
  let cs' := if (batch >? 1)%Z then repeat_interleave cs batch else cs in
  (cfg_scale == 0 -> conds_of self cfg_scale uc cs ilat = uc')
  /\ (cfg_scale == 1 ->
      conds_of self cfg_scale uc cs ilat = Py.slice_to batch cs'
      /\ ((0 <= batch)%Z ->
          conds_of self cfg_scale uc cs ilat = firstn (Z.to_nat batch) cs'))
  /\ (~ cfg_scale == 0 -> ~ cfg_scale == 1 ->
      (ilat = None -> conds_of self cfg_scale uc cs ilat = uc' ++ cs')
      /\ (forall il, ilat = Some il ->
          conds_of self cfg_scale uc cs ilat = uc' ++ uc' ++ cs')).
Proof.
  intros batch uc' cs'. unfold conds_of. fold batch. fold uc'. fold cs'.
  cbv zeta. fold uc'. fold cs'. repeat split.
  - intros H0. apply Qeq_eq_bool in H0. rewrite H0. reflexivity.
  - assert (Hn0 : Qeq_bool cfg_scale 0 = false).
    { destruct (Qeq_bool cfg_scale 0) eqn:E; [| reflexivity].
      apply Qeq_bool_eq in E. rewrite E in H. discriminate H. }
    rewrite Hn0. apply Qeq_eq_bool in H. rewrite H. reflexivity.
  - intros Hb.
    assert (Hn0 : Qeq_bool cfg_scale 0 = false).
    { destruct (Qeq_bool cfg_scale 0) eqn:E; [| reflexivity].
      apply Qeq_bool_eq in E. rewrite E in H. discriminate H. }
    rewrite Hn0. apply Qeq_eq_bool in H. rewrite H.
    apply slice_to_firstn. exact Hb.
  - intros ->.
    destruct (Qeq_bool cfg_scale 0) eqn:E0; [apply Qeq_bool_eq in E0; contradiction |].
    destruct (Qeq_bool cfg_scale 1) eqn:E1; [apply Qeq_bool_eq in E1; contradiction |].
    reflexivity.
  - intros il ->.
    destruct (Qeq_bool cfg_scale 0) eqn:E0; [apply Qeq_bool_eq in E0; contradiction |].
    destruct (Qeq_bool cfg_scale 1) eqn:E1; [apply Qeq_bool_eq in E1; contradiction |].
    reflexivity.
Qed.

(** C3.  The conditioning of a run, [conds_of], is
    - the unconditional embedding when [cfg_scale == 0];
    - the first [batch] rows of the conditional embeddings when
      [cfg_scale == 1];
    - otherwise [uncond ++ cond] without an edit latent and
      [uncond ++ uncond ++ cond] with one;
    where, for a batch above one, the unconditional block is first
    repeated [batch] times over and every row of the conditional block
    [batch] times in a row.  Every denoiser call of a run of [generate]
    on the residual-scheduler family, and every denoiser call made by
    [model_fn] on the ODE family, receives this tensor. *)
Theorem conditioning_of_each_call :
  forall (B : Backend) (self : SDfu) (cfg_scale : option Q) (uc cs : tensor)
         (ilat : option tensor),
    let cfg := match cfg_scale with
               | None => a_cfg_scale (a self)
               | Some c => c
               end in
    let batch := a_batch (a self) in
    let uc' := if (batch >? 1)%Z then repeat0 uc batch else uc in
    let cs' := if (batch >? 1)%Z then repeat_interleave cs batch else cs in
    ((cfg == 0 -> conds_of self cfg uc cs ilat = uc')
     /\ (cfg == 1 ->
         conds_of self cfg uc cs ilat = Py.slice_to batch cs'
         /\ ((0 <= batch)%Z ->
             conds_of self cfg uc cs ilat = firstn (Z.to_nat batch) cs'))
     /\ (~ cfg == 0 -> ~ cfg == 1 ->
         (ilat = None -> conds_of self cfg uc cs ilat = uc' ++ cs')
         /\ (forall il, ilat = Some il ->
             conds_of self cfg uc cs ilat = uc' ++ uc' ++ cs')))
    /\ ((1 < batch)%Z ->
        length uc' = (Z.to_nat batch * length uc)%nat
        /\ length cs' = (length cs * Z.to_nat batch)%nat
        /\ (forall i, (i < length uc')%nat -> nth i uc' [] = nth (i mod length uc) uc [])
        /\ (forall i, (i < length cs')%nat ->
            nth i cs' [] = nth (i / Z.to_nat batch) cs []))
    /\ ((batch <= 1)%Z -> uc' = uc /\ cs' = cs)
    /\ (forall lat mask masked_lat depth cws cimg offset log out log',
        use_kdiff self = false ->
        generate self lat cs uc cfg_scale mask masked_lat depth cws cimg ilat
          offset log = Ok (out, log') ->
        exists calls,
          log' = log ++ calls
          /\ Forall (fun c => dc_cond c = conds_of self cfg uc cs ilat) calls)
    /\ (forall mask masked_lat depth cws cimg r x t log noise_pred log',
        prepare self cs uc cfg_scale mask masked_lat depth cws cimg ilat = Ok r ->
        model_fn self r x t log = Ok (noise_pred, log') ->
        exists c, log' = log ++ [c] /\ dc_cond c = conds_of self cfg uc cs ilat).
Proof.
  intros B self cfg_scale uc cs ilat cfg batch uc' cs'.
  split; [exact (conds_of_cases self cfg uc cs ilat) |].
  split; [| split; [| split]].
  - intros Hb. unfold uc', cs'.
    destruct (Z.gtb_spec batch 1) as [_ | Hle]; [| lia].
    split; [apply (@length_concat_repeat (list (list Q))) |].
    split; [apply length_repeat_interleave |].
    split.
    + intros i Hi. apply nth_repeat0.
      unfold repeat0 in Hi. rewrite (@length_concat_repeat (list (list Q))) in Hi.
      exact Hi.
    + intros i Hi. apply nth_repeat_interleave.
      rewrite length_repeat_interleave in Hi. exact Hi.
  - intros Hb. unfold uc', cs'.
    destruct (Z.gtb_spec batch 1) as [Hgt | _]; [lia | auto].
  - intros lat mask masked_lat depth cws cimg offset log out log' Hk Hgen.
    destruct (generate_inv Hgen) as (r & lat' & Hprep & Hsample & _).
    destruct (prepare_inv Hprep) as (_ & Hconds & _).
    destruct (sample_residual_calls Hk Hsample) as (calls & Hlog & _ & Hall).
    exists calls. split; [exact Hlog |].
    fold cfg in Hconds. rewrite <- Hconds. exact Hall.
  - intros mask masked_lat depth cws cimg r x t log noise_pred log' Hprep Hm.
    destruct (prepare_inv Hprep) as (_ & Hconds & _).
    destruct (model_fn_inv Hm) as (x_in & t_in & c & _ & _ & Hlog & Hcond & _).
    exists c. split; [exact Hlog |].
    fold cfg in Hconds. rewrite <- Hconds. exact Hcond.
Qed.

Lemma conditioning_of_each_call_witness :
  conds_of Fixture.batch2_engine 7 [[[0]]] [[[1]]; [[2]]] None
  = [[[0]]; [[0]]; [[1]]; [[1]]; [[2]]; [[2]]].
Proof.
  destruct (@conditioning_of_each_call Fixture.ddim Fixture.batch2_engine None
              [[[0]]] [[[1]]; [[2]]] None) as [(_ & _ & H) _].
  assert (H0 : ~ 7 == 0) by (intros E; discriminate E).
  assert (H1 : ~ 7 == 1) by (intros E; discriminate E).
  destruct (H H0 H1) as [Hnone _].
  exact (Hnone eq_refl).
Defined.

(** ** Side channels *)

Lemma final_setup_variant {B : Backend} (self0 self : SDfu) :
  final_setup self0 = Ok self ->
  inpaintmod self = (unet_in_channels =? 9)%Z
  /\ depthmod self = (unet_in_channels =? 5)%Z.
Proof.
  unfold final_setup. intros H.
  destruct (assert (negb ((unet_in_channels =? 9)%Z && negb (isset (a_mask (a self0))))) _);
    cbn [rbind] in H; [| discriminate].
  match type of H with
  | rbind ?e _ = _ => destruct e as [a1 |]; cbn [rbind] in H; [| discriminate]
  end.
  destruct (set_steps _ _ _ _) as [self2 |] eqn:Hs; cbn [rbind] in H; [| discriminate].
  destruct (set_steps_schedule_eq Hs) as (_ & _ & Hi & Hd & _).
  simpl in Hi, Hd.
  destruct (a_lowmem a1).
  - destruct (assert accelerate_ok _); cbn [rbind] in H; [| discriminate].
    injection H as <-. simpl. auto.
  - injection H as <-. auto.
Qed.

Lemma inject_cases {B : Backend} (self : SDfu) (mask masked_lat depth : option tensor)
    (x : tensor) :
  (forall m ml, mask = Some m -> masked_lat = Some ml -> inpaintmod self = true ->
     inject self mask masked_lat depth x = cat1 [x; rsub 1 m; ml])
  /\ (forall d, depth = Some d -> depthmod self = true ->
      mask = None \/ masked_lat = None \/ inpaintmod self = false ->
      inject self mask masked_lat depth x = cat1 [x; d])
  /\ (mask = None \/ masked_lat = None \/ inpaintmod self = false ->
      depth = None \/ depthmod self = false ->
      inject self mask masked_lat depth x = x).
Proof.
  unfold inject. repeat split.
  - intros m ml -> -> ->. reflexivity.
  - intros d -> -> H.
    destruct mask as [m |]; destruct masked_lat as [ml |];
      destruct (inpaintmod self); simpl; try reflexivity.
    destruct H as [H | [H | H]]; discriminate H.
  - intros H Hd.
    assert (E : isok [mask; masked_lat] && inpaintmod self = false).
    { destruct mask; destruct masked_lat; destruct (inpaintmod self);
        try reflexivity. destruct H as [H | [H | H]]; discriminate H. }
    rewrite E.
    destruct depth as [d |]; destruct (depthmod self); simpl; try reflexivity.
    destruct Hd as [Hd | Hd]; discriminate Hd.
Qed.

(** C6.  The latent input of a denoiser call is extended to
    [latent, 1 - mask, masked_latent] along the channel axis when mask
    and masked latent are given and the model is the inpainting variant;
    else to [latent, depth] when a depth map is given and the model is
    the depth variant; else it is left as it is.  So an input never
    carries both side channels; an engine that [final_setup] returned is
    not even both variants at once.  Every denoiser call of the loop
    over the timesteps, and every one of [model_fn], receives this
    input, repeated once per conditioning block (with the edit latent
    appended along the channel axis in pixel-edit mode). *)
Theorem side_channel_injection :
  forall (B : Backend) (self : SDfu) (r : run),
    (forall x : tensor,
        (forall m ml, r_mask r = Some m -> r_masked_lat r = Some ml ->
                      inpaintmod self = true ->
           inject self (r_mask r) (r_masked_lat r) (r_depth r) x
           = cat1 [x; rsub 1 m; ml])
        /\ (forall d, r_depth r = Some d -> depthmod self = true ->
            r_mask r = None \/ r_masked_lat r = None \/ inpaintmod self = false ->
            inject self (r_mask r) (r_masked_lat r) (r_depth r) x = cat1 [x; d])
        /\ (r_mask r = None \/ r_masked_lat r = None \/ inpaintmod self = false ->
            r_depth r = None \/ depthmod self = false ->
            inject self (r_mask r) (r_masked_lat r) (r_depth r) x = x))
    /\ (forall self0, final_setup self0 = Ok self ->
        inpaintmod self && depthmod self = false)
    /\ (forall t lat kw sch log st' log',
        denoise_step self r t (lat, kw, sch) log = Ok (st', log') ->
        exists lat_in c,
          Torch.cat (Py.list_mul
                       [inject self (r_mask r) (r_masked_lat r) (r_depth r)
                          (scale_model_input sch lat t)] (r_bs r)) = Ok lat_in
          /\ log' = log ++ [c]
          /\ (dc_x c = lat_in
              \/ exists ilat, r_ilat r = Some ilat /\ dc_x c = cat1 [lat_in; ilat]))
    /\ (forall x t log noise_pred log',
        model_fn self r x t log = Ok (noise_pred, log') ->
        exists x_in c,
          Torch.cat (Py.list_mul
                       [inject self (r_mask r) (r_masked_lat r) (r_depth r) x]
                       (r_bs r)) = Ok x_in
          /\ log' = log ++ [c]
          /\ (dc_x c = x_in
              \/ exists ilat sigma,
                   r_ilat r = Some ilat
                   /\ dc_x c = cat1 [divs x_in (pow_half (sigma * sigma + 1)); ilat])).
Proof.
  intros B self r. split; [intros x; apply inject_cases |].
  split; [| split].
  - intros self0 H. destruct (final_setup_variant H) as [-> ->].
    destruct (Z.eqb_spec unet_in_channels 9) as [-> | _]; reflexivity.
  - intros t lat kw sch log st' log' Hstep.
    destruct (denoise_step_inv Hstep) as (lat_in & c & np & Hcat & Hlog & _ & _ & _ & Hcase).
    exists lat_in, c. split; [exact Hcat |]. split; [exact Hlog |].
    destruct Hcase as [(_ & Hx & _) | [(_ & il & s & ns & Hil & _ & Hx & _) | (_ & _ & Hx & _)]].
    + left. exact Hx.
    + right. exists il. auto.
    + left. exact Hx.
  - intros x t log noise_pred log' Hm.
    destruct (model_fn_inv Hm) as (x_in & t_in & c & Hcat & _ & Hlog & _ & _ & Hcase).
    exists x_in, c. split; [exact Hcat |]. split; [exact Hlog |].
    destruct Hcase as [(_ & Hx & _) | [(_ & il & s & t0 & sg & Hil & _ & _ & _ & Hx & _) | (_ & _ & Hx & _)]].
    + left. exact Hx.
    + right. exists il, sg. auto.
    + left. exact Hx.
Qed.

Lemma side_channel_injection_witness :
  inject Fixture.inpaint_ready (Some Fixture.mask01) (Some Fixture.masked56) None
    [[[9; 10]]]
  = [[[9; 10]; [1 - 0; 1 - 1]; [5; 6]]].
Proof.
  destruct (@side_channel_injection Fixture.inpaint9 Fixture.inpaint_ready
              Fixture.inpaint_run) as [Hinj _].
  destruct (Hinj [[[9; 10]]]) as [Hcase _].
  exact (Hcase Fixture.mask01 Fixture.masked56 eq_refl eq_refl eq_refl).
Defined.

Lemma inpaint_ready_is_set_up :
  final_setup Fixture.inpaint_mask_engine = Ok Fixture.inpaint_ready.
Proof. reflexivity. Qed.

(** ** The composite of inpainting with a standard model *)

Lemma lift2_mask (f : Q -> Q -> Q) (t : tensor) (m : list Q) :
  lift2 f t [[m]] = map (map (fun c => bmap2 f c m)) t.
Proof.
  unfold lift2. rewrite bmap2_singleton_r. apply map_ext. intros r.
  apply bmap2_singleton_r.
Qed.

Lemma channels_nth (n : nat) (t : tensor) (i j : nat) :
  channels_of_length n t ->
  (i < length t)%nat -> (j < length (nth i t []))%nat ->
  length (nth j (nth i t []) []) = n.
Proof.
  intros H Hi Hj. unfold channels_of_length in H.
  rewrite Forall_forall in H. specialize (H (nth i t []) (nth_In _ _ Hi)).
  rewrite Forall_forall in H. apply H. apply nth_In. exact Hj.
Qed.

Lemma shape_lift2_mask (f : Q -> Q -> Q) (t : tensor) (m : list Q) :
  channels_of_length (length m) t -> shape (lift2 f t [[m]]) = shape t.
Proof.
  intros H. rewrite lift2_mask. unfold shape. rewrite map_map.
  unfold channels_of_length in H. rewrite Forall_forall in H.
  apply map_ext_in. intros r Hr. rewrite map_map.
  specialize (H r Hr). rewrite Forall_forall in H.
  apply map_ext_in. intros c Hc.
  rewrite bmap2_same_length by (apply H; exact Hc).
  apply length_map2. apply H. exact Hc.
Qed.

Lemma at3_lift2_mask (f : Q -> Q -> Q) (t : tensor) (m : list Q) (i j k : nat) :
  channels_of_length (length m) t -> inside (shape t) i j k ->
  at3 (lift2 f t [[m]]) i j k = f (at3 t i j k) (nth k m 0).
Proof.
  intros H Hin. destruct (inside_lengths Hin) as (Hi & Hj & Hk).
  pose proof (channels_nth H Hi Hj) as Hlen.
  rewrite lift2_mask. unfold at3.
  change (@nil (list Q)) with (map (fun c => bmap2 f c m) (@nil (list Q))) at 1.
  rewrite map_nth.
  rewrite (nth_indep _ [] (bmap2 f [] m)) by (rewrite length_map; exact Hj).
  rewrite (map_nth (fun c => bmap2 f c m)).
  rewrite bmap2_same_length by exact Hlen.
  apply nth_map2; assumption.
Qed.

(** The blend, position by position, for a mask of one row and one
    channel that stretches over the rows and channels of the latents. *)
Lemma composite_at (ml lat : tensor) (m : list Q) (i j k : nat) :
  shape ml = shape lat -> channels_of_length (length m) lat ->
  inside (shape lat) i j k ->
  at3 (composite ml [[m]] lat) i j k
  = at3 ml i j k * nth k m 0 + at3 lat i j k * (1 - nth k m 0).
Proof.
  intros Hs Hch Hin.
  assert (Hch' : channels_of_length (length m) ml).
  { unfold channels_of_length in *. clear Hin.
    revert lat Hs Hch. induction ml as [| r ml IH]; intros [| r' lat] Hs Hch;
      simpl in Hs; try discriminate; constructor.
    - injection Hs as Hr _. inversion Hch as [| ? ? Hr' _]; subst. clear IH Hch.
      revert r' Hr Hr'. induction r as [| c r IHr]; intros [| c' r'] Hr Hr';
        simpl in Hr; try discriminate; constructor.
      + injection Hr as Hc _. inversion Hr'; subst. congruence.
      + injection Hr as _ Hr. inversion Hr'; subst. eapply IHr; eassumption.
    - injection Hs as _ Hs. inversion Hch; subst. eapply IH; eassumption. }
  destruct (inside_lengths Hin) as (Hi & Hj & Hk).
  pose proof (channels_nth Hch Hi Hj) as Hlen.
  unfold composite, add, mul. simpl rsub.
  assert (Hm' : length (map (fun x => 1 - x) m) = length m) by apply length_map.
  rewrite at3_lift2.
  - rewrite at3_lift2_mask by (try rewrite Hs; assumption).
    rewrite at3_lift2_mask by (try rewrite Hm'; assumption).
    f_equal. f_equal.
    rewrite (nth_indep _ 0 (1 - 0)) by (rewrite Hm'; lia).
    apply (map_nth (fun x => 1 - x)).
  - rewrite !shape_lift2_mask by (try rewrite Hm'; assumption). exact Hs.
  - rewrite shape_lift2_mask by assumption. rewrite Hs. exact Hin.
Qed.

(** C4, as the specification states it, fails.  A standard model runs
    two steps on the latent [[9, 10]] with mask [[0, 1]] and masked
    latent [[5, 6]]; the run without mask generates [[7, 8]].  With the
    mask the output is [[7, 6]]: at position 0, where the mask is 0, it
    is the generated 7 and not the 5 of the masked latent; at
    position 1, where the mask is 1, it is the 6 of the masked latent
    and not the generated 8. *)
Lemma inpaint_polarity_counterexample :
  Fixture.inpaint_standard_output = Ok [[[7; 6]]]
  /\ Fixture.plain_output = Ok [[[7; 8]]]
  /\ at3 Fixture.mask01 0 0 0 == 0
  /\ ~ at3 [[[7; 6]]] 0 0 0 == at3 Fixture.masked56 0 0 0
  /\ at3 Fixture.mask01 0 0 1 == 1
  /\ ~ at3 [[[7; 6]]] 0 0 1 == at3 [[[7; 8]]] 0 0 1.
Proof.
  split; [vm_compute; reflexivity |].
  split; [vm_compute; reflexivity |].
  split; [reflexivity |].
  split; [intros E; discriminate E |].
  split; [reflexivity |].
  intros E; discriminate E.
Qed.

(** C4, amended.  For a standard (not inpainting-architecture) model
    with mask and masked latent given, the latent that [generate] hands
    to the decoder is the blend
    [masked_latent * mask + latent * (1 - mask)] of the sampled latent,
    divided by the scaling factor of the decoder.  For a mask of one row
    and one channel, at every position the blend is
    [masked_latent * m + latent * (1 - m)], [m] the mask there: where
    the mask is 1 it is the masked latent, where the mask is 0 it is the
    newly generated latent. *)
Theorem inpaint_composite :
  forall (B : Backend) (self : SDfu) (mask masked_lat : tensor),
    inpaintmod self = false ->
    (forall r lat,
        r_mask r = Some mask -> r_masked_lat r = Some masked_lat ->
        finish self r lat
        = vae_decode (divs (composite masked_lat mask lat) vae_scaling_factor))
    /\ (forall lat cs uc cfg_scale depth cws cimg ilat offset log out log',
        generate self lat cs uc cfg_scale (Some mask) (Some masked_lat) depth cws
          cimg ilat offset log = Ok (out, log') ->
        exists r lat',
          sample self r lat offset log = Ok (lat', log')
          /\ out = vae_decode (divs (composite masked_lat mask lat')
                                 vae_scaling_factor))
    /\ (forall (m : list Q) (lat : tensor) (i j k : nat),
        mask = [[m]] -> shape masked_lat = shape lat ->
        channels_of_length (length m) lat ->
        inside (shape lat) i j k ->
        at3 (composite masked_lat mask lat) i j k
        = at3 masked_lat i j k * nth k m 0 + at3 lat i j k * (1 - nth k m 0)
        /\ (nth k m 0 == 1 ->
            at3 (composite masked_lat mask lat) i j k == at3 masked_lat i j k)
        /\ (nth k m 0 == 0 ->
            at3 (composite masked_lat mask lat) i j k == at3 lat i j k)).
Proof.
  intros B self mask masked_lat Hstd.
  assert (Hfinish : forall r lat,
             r_mask r = Some mask -> r_masked_lat r = Some masked_lat ->
             finish self r lat
             = vae_decode (divs (composite masked_lat mask lat) vae_scaling_factor)).
  { intros r lat Hm Hml. unfold finish. rewrite Hm, Hml, Hstd. reflexivity. }
  split; [exact Hfinish |]. split.
  - intros lat cs uc cfg_scale depth cws cimg ilat offset log out log' Hgen.
    destruct (generate_inv Hgen) as (r & lat' & Hprep & Hsample & Hout).
    destruct (prepare_inv Hprep) as (_ & _ & _ & _ & _ & _ & Hm & Hml & _).
    exists r, lat'. split; [exact Hsample |].
    rewrite Hout. apply Hfinish; assumption.
  - intros m lat i j k -> Hs Hch Hin.
    pose proof (composite_at Hs Hch Hin) as Hat.
    split; [exact Hat |]. rewrite Hat. split; intros Hv; rewrite Hv; ring.
Qed.

Lemma inpaint_composite_witness :
  at3 (composite Fixture.masked56 Fixture.mask01 [[[7; 8]]]) 0 0 0 == 7
  /\ at3 (composite Fixture.masked56 Fixture.mask01 [[[7; 8]]]) 0 0 1 == 6.
Proof.
  destruct (@inpaint_composite Fixture.ddim (Fixture.ddim_engine (3 # 4))
              Fixture.mask01 Fixture.masked56 eq_refl) as (_ & _ & H).
  assert (Hch : channels_of_length 2 [[[7; 8]]]) by (repeat constructor).
  split.
  - destruct (H [0; 1] [[[7; 8]]] 0%nat 0%nat 0%nat eq_refl eq_refl Hch
                (Nat.lt_0_succ 1)) as (_ & _ & H0).
    rewrite (H0 (Qeq_refl 0)). reflexivity.
  - destruct (H [0; 1] [[[7; 8]]] 0%nat 0%nat 1%nat eq_refl eq_refl Hch
                (Nat.lt_succ_diag_r 1)) as (_ & H1 & _).
    rewrite (H1 (Qeq_refl 1)). reflexivity.
Defined.

(** ** The ODE family with the Euler sampler

    The sigmas kept for 50 steps at strength 0.375 are the last 19 of
    the 51 the scheduler makes; the Euler sampler of the stand-in, handed
    the last 3 of these (offset 16), calls the denoiser twice, once per
    interval. *)
Lemma euler_schedule_and_calls :
  Fixture.euler_schedule
  = Ok (map inject_Z [18; 17; 16; 15; 14; 13; 12; 11; 10; 9; 8; 7; 6; 5; 4; 3; 2; 1; 0]%Z)
  /\ Fixture.euler_calls = Ok 2%Z.
Proof. split; vm_compute; reflexivity. Qed.

(** * Further properties of the engine *)

(** ** More on [set_steps] *)

Lemma slice_from_suffix {A} (k : Z) (xs : list A) :
  exists pre, xs = pre ++ Py.slice_from k xs.
Proof.
  unfold Py.slice_from. exists (firstn (Py.bound (length xs) k) xs).
  symmetry. apply firstn_skipn.
Qed.

Lemma slice_from_pos {A} (k : Z) (xs : list A) :
  (0 <= k)%Z -> Py.slice_from k xs = skipn (Z.to_nat k) xs.
Proof.
  intros Hk. unfold Py.slice_from, Py.bound.
  destruct (Z.ltb_spec k 0) as [H | _]; [lia |].
  destruct (Z.le_gt_cases k (Z.of_nat (length xs))) as [Hle | Hgt].
  - f_equal. lia.
  - rewrite Z.min_l by lia. rewrite Nat2Z.id.
    rewrite skipn_all. symmetry. apply skipn_all2. lia.
Qed.

(** X1.  The slice [schedule[-steps - warmup:]] of [set_steps] when
    [n + warmup] is not positive, [n = min(int(steps * strength), steps)]
    with the product rounded to the nearest double, for [steps],
    [strength] and their product below [2^53] in magnitude: for
    [n + warmup = 0] the bound is [-0], so the whole schedule is stored,
    not an empty one; for [n + warmup < 0] the bound is positive and the
    first [-(n + warmup)] entries are dropped. *)
Theorem set_steps_without_positive_count :
  forall (B : Backend) (self self' : SDfu) (steps : Z) (strength : Q) (warmup : Z),
    Py.in_double_range steps strength = true ->
    set_steps self steps strength warmup = Ok self' ->
    ((Z.min (Py.int (Py.mul_int_float steps strength)) steps + warmup = 0)%Z ->
     (use_kdiff self = true -> sigmas self' = full_sigmas self steps)
     /\ (use_kdiff self = false -> timesteps self' = full_timesteps self steps))
    /\ ((Z.min (Py.int (Py.mul_int_float steps strength)) steps + warmup < 0)%Z ->
        (use_kdiff self = true ->
         sigmas self'
         = skipn (Z.to_nat (- (Z.min (Py.int (Py.mul_int_float steps strength)) steps
                               + warmup)))
             (full_sigmas self steps))
        /\ (use_kdiff self = false ->
            timesteps self'
            = skipn (Z.to_nat (- (Z.min (Py.int (Py.mul_int_float steps strength)) steps
                                  + warmup)))
                (full_timesteps self steps))).
Proof.
  intros B self self' steps strength warmup _ Hs.
  destruct (set_steps_schedule_eq Hs) as (_ & _ & _ & _ & Hsig & Hts).
  set (n := Z.min (Py.int (Py.mul_int_float steps strength)) steps) in *.
  split.
  - intros H0. replace (- n - warmup)%Z with 0%Z in Hsig, Hts by lia.
    split; intros Hk; [rewrite (Hsig Hk) | rewrite (Hts Hk)];
      apply (slice_from_pos (k := 0)); lia.
  - intros Hneg. replace (- n - warmup)%Z with (- (n + warmup))%Z in Hsig, Hts by lia.
    split; intros Hk; [rewrite (Hsig Hk) | rewrite (Hts Hk)];
      apply slice_from_pos; lia.
Qed.

Lemma set_steps_without_positive_count_witness :
  (exists self',
      set_steps (Fixture.ddim_engine 0) 50 0 0 = Ok self'
      /\ timesteps self' = Fixture.timesteps_for 50)
  /\ (exists self',
         set_steps (Fixture.ddim_engine (- (3 # 5))) 50 (- (3 # 5)) 1 = Ok self'
         /\ timesteps self' = skipn 29 (Fixture.timesteps_for 50)).
Proof.
  split.
  - assert (Hrange : Py.in_double_range 50 0 = true) by (vm_compute; reflexivity).
    destruct (@set_steps_ok Fixture.ddim (Fixture.ddim_engine 0) 50 0 0
                (or_intror Z.le_0_1)) as (self' & Hs & _).
    exists self'. split; [exact Hs |].
    destruct (@set_steps_without_positive_count Fixture.ddim _ _ _ _ _ Hrange Hs)
      as [H0 _].
    destruct (H0 eq_refl) as [_ Hts]. exact (Hts eq_refl).
  - assert (Hrange : Py.in_double_range 50 (- (3 # 5)) = true)
      by (vm_compute; reflexivity).
    destruct (@set_steps_ok Fixture.ddim (Fixture.ddim_engine (- (3 # 5))) 50
                (- (3 # 5)) 1 (or_intror Z.le_0_1)) as (self' & Hs & _).
    exists self'. split; [exact Hs |].
    destruct (@set_steps_without_positive_count Fixture.ddim _ _ _ _ _ Hrange Hs)
      as [_ Hneg].
    assert (Hn : (Z.min (Py.int (Py.mul_int_float 50 (- (3 # 5)))) 50 + 1 < 0)%Z)
      by (vm_compute; reflexivity).
    destruct (Hneg Hn) as [_ Hts]. exact (Hts eq_refl).
Defined.

(** X2.  Whatever the strength, the schedule [set_steps] stores is the
    full schedule with leading entries removed: sampling ends where the
    full schedule ends.  On the residual-scheduler family [lat_timestep]
    holds the first stored timestep once per element of the batch. *)
Theorem set_steps_stores_a_suffix :
  forall (B : Backend) (self self' : SDfu) (steps : Z) (strength : Q) (warmup : Z),
    set_steps self steps strength warmup = Ok self' ->
    (use_kdiff self = true ->
     exists pre, full_sigmas self steps = pre ++ sigmas self')
    /\ (use_kdiff self = false ->
        (exists pre, full_timesteps self steps = pre ++ timesteps self')
        /\ lat_timestep self'
           = concat (repeat (firstn 1 (timesteps self')) (Z.to_nat (a_batch (a self))))
        /\ (forall t rest, timesteps self' = t :: rest ->
            lat_timestep self' = repeat t (Z.to_nat (a_batch (a self))))).
Proof.
  intros B self self' steps strength warmup Hs.
  destruct (set_steps_schedule_eq Hs) as (_ & _ & _ & _ & Hsig & Hts).
  split.
  - intros Hk. rewrite (Hsig Hk). apply slice_from_suffix.
  - intros Hk. split; [rewrite (Hts Hk); apply slice_from_suffix |].
    assert (Hlt : lat_timestep self'
                  = concat (repeat (firstn 1 (timesteps self'))
                              (Z.to_nat (a_batch (a self))))).
    { unfold set_steps in Hs. rewrite Hk in Hs.
      unfold repeat_1d in Hs.
      destruct (Z.ltb_spec (a_batch (a self)) 0); simpl in Hs; [discriminate |].
      injection Hs as <-. simpl.
      rewrite slice_to_firstn by lia. reflexivity. }
    split; [exact Hlt |].
    intros t rest Heq. rewrite Hlt, Heq. simpl. clear.
    induction (Z.to_nat (a_batch (a self))) as [| n IH]; simpl;
      [reflexivity | rewrite IH; reflexivity].
Qed.

Lemma set_steps_stores_a_suffix_witness :
  exists self',
    set_steps (Fixture.ddim_engine (3 # 8)) 50 (3 # 8) 1 = Ok self'
    /\ lat_timestep self' = [360%Z].
Proof.
  destruct (@set_steps_ok Fixture.ddim (Fixture.ddim_engine (3 # 8)) 50 (3 # 8) 1
              (or_intror Z.le_0_1)) as (self' & Hs & _).
  exists self'. split; [exact Hs |].
  destruct (@set_steps_stores_a_suffix Fixture.ddim _ _ _ _ _ Hs) as [_ H].
  destruct (H eq_refl) as (_ & Hlt & _). rewrite Hlt.
  destruct (set_steps_schedule_eq Hs) as (_ & _ & _ & _ & _ & Hts).
  rewrite (Hts eq_refl). reflexivity.
Defined.

Lemma kept_steps_bounds (steps : Z) (strength : Q) :
  (0 <= steps)%Z -> 0 <= strength ->
  (0 <= Z.min (Py.int (Py.mul_int_float steps strength)) steps <= steps)%Z.
Proof.
  intros Hs Hq.
  pose proof (mul_int_float_nonneg Hs Hq) as H0.
  rewrite (int_floor H0).
  assert (0 <= Qfloor (Py.mul_int_float steps strength))%Z.
  { change 0%Z with (Qfloor 0). apply Qfloor_resp_le. exact H0. }
  lia.
Qed.

Lemma kept_steps_monotone (steps : Z) (s1 s2 : Q) :
  (0 <= steps)%Z -> 0 <= s1 -> s1 <= s2 ->
  (Z.min (Py.int (Py.mul_int_float steps s1)) steps
   <= Z.min (Py.int (Py.mul_int_float steps s2)) steps)%Z.
Proof.
  intros Hs H1 H12.
  pose proof (mul_int_float_nonneg Hs H1) as Ha.
  pose proof (mul_int_float_le Hs H1 H12) as Hab.
  assert (Hb : 0 <= Py.mul_int_float steps s2) by (eapply Qle_trans; eassumption).
  rewrite (int_floor Ha), (int_floor Hb).
  pose proof (Qfloor_resp_le _ _ Hab). lia.
Qed.

Lemma kept_steps_saturate (steps : Z) (strength : Q) :
  (0 <= steps)%Z -> 1 <= strength ->
  Z.min (Py.int (Py.mul_int_float steps strength)) steps = steps.
Proof.
  intros Hs Hq.
  assert (H01 : 0 <= 1) by discriminate.
  pose proof (@kept_steps_monotone steps 1 strength Hs H01 Hq) as Hm.
  rewrite int_mul_one in Hm. lia.
Qed.

(** X3.  The number of steps [set_steps] keeps,
    [min(int(steps * strength), steps)] with the product rounded to the
    nearest double, for [steps >= 0] and a strength that is not
    negative, both and their product below [2^53]: it lies between 0 and
    [steps], grows with the strength, is 0 at strength 0, and is [steps]
    from strength 1 on, so that every strength above 1 stores what
    strength 1 stores. *)
Theorem set_steps_strength_saturates :
  forall (B : Backend) (self : SDfu) (steps : Z) (strength : Q) (warmup : Z),
    (0 <= steps)%Z -> 0 <= strength ->
    Py.in_double_range steps strength = true ->
    (0 <= Z.min (Py.int (Py.mul_int_float steps strength)) steps <= steps)%Z
    /\ (forall weaker : Q, 0 <= weaker -> weaker <= strength ->
        (Z.min (Py.int (Py.mul_int_float steps weaker)) steps
         <= Z.min (Py.int (Py.mul_int_float steps strength)) steps)%Z)
    /\ (strength == 0 ->
        set_steps self steps strength warmup = set_steps self steps 0 warmup
        /\ Z.min (Py.int (Py.mul_int_float steps strength)) steps = 0%Z)
    /\ (1 <= strength ->
        set_steps self steps strength warmup = set_steps self steps 1 warmup
        /\ Z.min (Py.int (Py.mul_int_float steps strength)) steps = steps).
Proof.
  intros B self steps strength warmup Hs Hq _.
  split; [apply kept_steps_bounds; assumption |].
  split; [intros w Hw Hle; apply kept_steps_monotone; assumption |].
  split.
  - intros H0.
    assert (Hi : Py.int (Py.mul_int_float steps strength) = 0%Z).
    { apply int_inject_Z. apply mul_int_float_zero. exact H0. }
    assert (Hz : Py.int (Py.mul_int_float steps 0) = 0%Z).
    { apply int_inject_Z. apply mul_int_float_zero. reflexivity. }
    split; [unfold set_steps; rewrite Hi, Hz; reflexivity | rewrite Hi; lia].
  - intros H1. pose proof (kept_steps_saturate Hs H1) as Hn.
    split; [| exact Hn].
    unfold set_steps. rewrite Hn, int_mul_one, Z.min_id. reflexivity.
Qed.

Lemma set_steps_strength_saturates_witness :
  set_steps (Fixture.ddim_engine (5 # 2)) 50 (5 # 2) 1
  = set_steps (Fixture.ddim_engine (5 # 2)) 50 1 1.
Proof.
  assert (H0 : (0 <= 50)%Z) by lia.
  assert (Hq : 0 <= 5 # 2) by discriminate.
  assert (H1 : 1 <= 5 # 2) by discriminate.
  assert (Hrange : Py.in_double_range 50 (5 # 2) = true) by (vm_compute; reflexivity).
  destruct (@set_steps_strength_saturates Fixture.ddim (Fixture.ddim_engine (5 # 2))
              50 (5 # 2) 1 H0 Hq Hrange) as (_ & _ & _ & H).
  exact (proj1 (H H1)).
Defined.

(** ** More on [generate] *)

Lemma list_mul_singleton {A} (x : A) (n : Z) :
  Py.list_mul [x] n = repeat x (Z.to_nat n).
Proof.
  unfold Py.list_mul. induction (Z.to_nat n) as [| k IH]; simpl; [reflexivity |].
  rewrite IH. reflexivity.
Qed.

Lemma sum_repeat (w : Q) (n : nat) :
  fold_right Qplus 0 (repeat w n) == inject_Z (Z.of_nat n) * w.
Proof.
  induction n as [| n IH].
  - simpl. ring.
  - rewrite Nat2Z.inj_succ. unfold Z.succ. rewrite inject_Z_plus.
    simpl fold_right. rewrite IH. change (inject_Z 1) with 1. ring.
Qed.

Lemma uniform_weights (cs : tensor) :
  cs <> [] ->
  rbind (Py.truediv 1 (Torch.len cs)) (fun w => Ok (Py.list_mul [w] (Torch.len cs)))
  = Ok (repeat (1 / inject_Z (Torch.len cs)) (length cs)).
Proof.
  intros Hcs. unfold Py.truediv, Torch.len, Py.len.
  destruct (Z.eqb_spec (Z.of_nat (length cs)) 0) as [H0 | _].
  - destruct cs; [congruence | simpl in H0; lia].
  - simpl. rewrite list_mul_singleton, Nat2Z.id. reflexivity.
Qed.

(** X4.  The prompt weights of [generate] (line 309): weights given
    with one entry for every row of [cs] are used as given; otherwise
    (none given, or of another length) every prompt gets the weight
    [1 / len(cs)], the weights sum to one, and a [cs] without rows is a
    [ZeroDivisionError]. *)
Theorem default_weights_are_uniform :
  forall (cws : option (list Q)) (cs : tensor),
    (forall w, cws = Some w -> Py.len w = Torch.len cs -> default_cws cws cs = Ok w)
    /\ (cws = None \/ (exists w, cws = Some w /\ Py.len w <> Torch.len cs) ->
        (cs = [] -> default_cws cws cs = Err ZeroDivisionError)
        /\ (cs <> [] ->
            exists ws,
              default_cws cws cs = Ok ws
              /\ length ws = length cs
              /\ (forall i, weight ws i = 1 / inject_Z (Torch.len cs))
              /\ fold_right Qplus 0 ws == 1)).
Proof.
  intros cws cs. split.
  - intros w -> Hlen. unfold default_cws. rewrite Hlen, Z.eqb_refl. reflexivity.
  - intros Hcase.
    assert (Hdef : default_cws cws cs
                   = rbind (Py.truediv 1 (Torch.len cs))
                       (fun w => Ok (Py.list_mul [w] (Torch.len cs)))).
    { unfold default_cws. destruct Hcase as [-> | (w & -> & Hne)]; [reflexivity |].
      destruct (Z.eqb_spec (Py.len w) (Torch.len cs)); [contradiction | reflexivity]. }
    rewrite Hdef. split.
    + intros ->. reflexivity.
    + intros Hcs. rewrite (uniform_weights Hcs). eexists. split; [reflexivity |].
      assert (Hn : (0 < length cs)%nat) by (destruct cs; [congruence | simpl; lia]).
      split; [apply repeat_length |]. split.
      * intros i. unfold weight. rewrite repeat_length.
        apply nth_repeat_lt. apply Nat.mod_upper_bound. lia.
      * rewrite sum_repeat. unfold Torch.len, Py.len. field.
        intros E. unfold Qeq in E. simpl in E. lia.
Qed.

Lemma default_weights_are_uniform_witness :
  exists ws,
    default_cws (Some [1]) [[[1]]; [[2]]; [[3]]; [[4]]] = Ok ws
    /\ weight ws 6 = 1 / 4.
Proof.
  destruct (@default_weights_are_uniform (Some [1]) [[[1]]; [[2]]; [[3]]; [[4]]])
    as [_ H].
  assert (Hcase : Some [1] = None
                  \/ exists w, Some [1] = Some w
                               /\ Py.len w <> Torch.len [[[1]]; [[2]]; [[3]]; [[4]]]).
  { right. exists [1]. split; [reflexivity | discriminate]. }
  destruct (H Hcase) as [_ Hne].
  assert (Hcs : [[[1]]; [[2]]; [[3]]; [[4]]] <> @nil (list (list Q))) by discriminate.
  destruct (Hne Hcs) as (ws & Hws & _ & Hw & _).
  exists ws. split; [exact Hws | exact (Hw 6%nat)].
Defined.

Lemma len_conds_of {B : Backend} (self : SDfu) (cfg : Q) (uc cs : tensor)
    (ilat : option tensor) :
  length uc = 1%nat -> cs <> [] -> (1 <= a_batch (a self))%Z ->
  Torch.len (conds_of self cfg uc cs ilat)
  = ((if Py.in_0_1 cfg then 1
      else match ilat with
           | None => 1 + Torch.len cs
           | Some _ => 2 + Torch.len cs
           end) * a_batch (a self))%Z.
Proof.
  intros Huc Hcs Hb. unfold conds_of, Py.in_0_1, Torch.len, Py.len. cbv zeta.
  assert (Hc : (1 <= length cs)%nat) by (destruct cs; [congruence | simpl; lia]).
  set (b := a_batch (a self)) in *.
  assert (Hu' : length (if (b >? 1)%Z then repeat0 uc b else uc) = Z.to_nat b).
  { destruct (Z.gtb_spec b 1).
    - unfold repeat0. rewrite length_concat_repeat, Huc. lia.
    - rewrite Huc. lia. }
  assert (Hc' : length (if (b >? 1)%Z then repeat_interleave cs b else cs)
                = (length cs * Z.to_nat b)%nat).
  { destruct (Z.gtb_spec b 1).
    - apply length_repeat_interleave.
    - replace (Z.to_nat b) with 1%nat by lia. lia. }
  destruct (Qeq_bool cfg 0); cbn [orb]; [rewrite Hu'; lia |].
  destruct (Qeq_bool cfg 1); cbn [orb].
  - rewrite length_slice_to by lia. rewrite Hc'. nia.
  - destruct ilat; rewrite ?length_app, Hu', Hc'; nia.
Qed.

(** X5.  The number of conditioning blocks [bs = len(conds) // batch] of
    [generate] (lines 313-315), for an unconditional embedding of one row
    and [N >= 1] prompts: one block when [cfg_scale] is 0 or 1, [1 + N]
    blocks for prompt guidance and [2 + N] when an edit latent is given;
    the conditioning has [bs * batch] rows, whatever the batch. *)
Theorem conditioning_block_count :
  forall (B : Backend) (self : SDfu) (cs uc : tensor) (cfg_scale : option Q)
         (mask masked_lat depth : option tensor) (cws : option (list Q))
         (cimg ilat : option tensor) (r : run),
    prepare self cs uc cfg_scale mask masked_lat depth cws cimg ilat = Ok r ->
    length uc = 1%nat -> cs <> [] -> (1 <= a_batch (a self))%Z ->
    Torch.len (r_conds r) = (r_bs r * a_batch (a self))%Z
    /\ r_bs r
       = (if Py.in_0_1 (match cfg_scale with
                        | None => a_cfg_scale (a self)
                        | Some c => c
                        end)
          then 1
          else match ilat with
               | None => 1 + Torch.len cs
               | Some _ => 2 + Torch.len cs
               end)%Z.
Proof.
  intros B self cs uc cfg_scale mask masked_lat depth cws cimg ilat r Hp Huc Hcs Hb.
  destruct (prepare_inv Hp) as (_ & Hconds & _ & Hbs & _).
  rewrite Hconds in *.
  rewrite (@len_conds_of B self _ uc cs ilat Huc Hcs Hb) in *.
  unfold Py.floordiv in Hbs.
  destruct (Z.eqb_spec (a_batch (a self)) 0) as [H0 | Hne]; [lia |].
  rewrite Z.div_mul in Hbs by exact Hne. injection Hbs as <-.
  split; reflexivity.
Qed.

Lemma conditioning_block_count_witness :
  exists r,
    prepare Fixture.batch2_engine [[[1]]; [[2]]; [[3]]] [[[0]]] None None None None
      None None None = Ok r
    /\ r_bs r = 4%Z /\ Torch.len (r_conds r) = 8%Z.
Proof.
  assert (Hb : (1 <= a_batch (a Fixture.batch2_engine))%Z) by (simpl; lia).
  assert (Huc : [[[0]]] <> @nil (list (list Q))) by discriminate.
  assert (Hcs : [[[1]]; [[2]]; [[3]]] <> @nil (list (list Q))) by discriminate.
  assert (Hci : forall ci : tensor, @None tensor = Some ci -> ci <> []) by discriminate.
  destruct (@prepare_ok Fixture.ddim Fixture.batch2_engine [[[1]]; [[2]]; [[3]]]
              [[[0]]] None None None None None None Hb Huc Hcs Hci) as (r & Hr & _).
  exists r. split; [exact Hr |].
  destruct (@conditioning_block_count Fixture.ddim _ _ _ _ _ _ _ _ _ _ _ Hr eq_refl
              Hcs Hb) as [Hlen Hbs].
  rewrite Hlen, Hbs. split; reflexivity.
Defined.

Lemma for_ext {A S} (f g : A -> S -> M S) :
  (forall x s log, f x s log = g x s log) ->
  forall xs s log, for_ xs f s log = for_ xs g s log.
Proof.
  intros Hfg. induction xs as [| x xs IH]; intros s log; simpl; [reflexivity |].
  unfold bind. rewrite Hfg. destruct (g x s log) as [[s1 log1] |]; [apply IH | reflexivity].
Qed.

Lemma denoise_step_ignores_weights {B : Backend} (self : SDfu) (r1 r2 : run) :
  same_but_weights r1 r2 -> Py.in_0_1 (r_cfg_scale r1) = true ->
  forall t st log, denoise_step self r1 t st log = denoise_step self r2 t st log.
Proof.
  destruct r1, r2. unfold same_but_weights. simpl.
  intros (-> & -> & -> & -> & -> & -> & -> & ->) Hc t [[lat kw] sch] log.
  unfold denoise_step. simpl. rewrite Hc. reflexivity.
Qed.

Lemma model_fn_ignores_weights {B : Backend} (self : SDfu) (r1 r2 : run) :
  same_but_weights r1 r2 -> Py.in_0_1 (r_cfg_scale r1) = true ->
  forall x t log, model_fn self r1 x t log = model_fn self r2 x t log.
Proof.
  destruct r1, r2. unfold same_but_weights. simpl.
  intros (-> & -> & -> & -> & -> & -> & -> & ->) Hc x t log.
  unfold model_fn. simpl. rewrite Hc. reflexivity.
Qed.

Lemma prepare_same_but_weights {B : Backend} (self : SDfu) (cs1 cs2 uc1 uc2 : tensor)
    (cfg_scale : option Q) (mask masked_lat depth : option tensor)
    (cws1 cws2 : option (list Q)) (cimg ilat : option tensor) :
  (exists w, default_cws cws1 cs1 = Ok w) ->
  (exists w, default_cws cws2 cs2 = Ok w) ->
  conds_of self (match cfg_scale with
                 | None => a_cfg_scale (a self)
                 | Some c => c
                 end) uc1 cs1 ilat
  = conds_of self (match cfg_scale with
                   | None => a_cfg_scale (a self)
                   | Some c => c
                   end) uc2 cs2 ilat ->
  (exists e,
      prepare self cs1 uc1 cfg_scale mask masked_lat depth cws1 cimg ilat = Err e
      /\ prepare self cs2 uc2 cfg_scale mask masked_lat depth cws2 cimg ilat = Err e)
  \/ (exists r1 r2,
         prepare self cs1 uc1 cfg_scale mask masked_lat depth cws1 cimg ilat = Ok r1
         /\ prepare self cs2 uc2 cfg_scale mask masked_lat depth cws2 cimg ilat = Ok r2
         /\ same_but_weights r1 r2).
Proof.
  intros (w1 & Hw1) (w2 & Hw2) Hconds. unfold prepare. cbv zeta.
  rewrite Hw1, Hw2, Hconds. simpl.
  destruct (Py.floordiv _ _) as [bs | e]; simpl; [| left; eauto].
  destruct (expand_to _ cimg) as [ci | e]; simpl; [| left; eauto].
  destruct (expand_to _ ilat) as [il | e]; simpl; [| left; eauto].
  right. do 2 eexists. split; [reflexivity |]. split; [reflexivity |].
  unfold same_but_weights. simpl. repeat split.
Qed.

Lemma generate_single_prediction {B : Backend} (self : SDfu) (lat cs1 cs2 uc1 uc2 : tensor)
    (cfg_scale : option Q) (mask masked_lat depth : option tensor)
    (cws1 cws2 : option (list Q)) (cimg ilat : option tensor) (offset : Z) :
  Py.in_0_1 (match cfg_scale with
             | None => a_cfg_scale (a self)
             | Some c => c
             end) = true ->
  (exists w, default_cws cws1 cs1 = Ok w) ->
  (exists w, default_cws cws2 cs2 = Ok w) ->
  conds_of self (match cfg_scale with
                 | None => a_cfg_scale (a self)
                 | Some c => c
                 end) uc1 cs1 ilat
  = conds_of self (match cfg_scale with
                   | None => a_cfg_scale (a self)
                   | Some c => c
                   end) uc2 cs2 ilat ->
  (use_kdiff self = false ->
   forall log,
     generate self lat cs1 uc1 cfg_scale mask masked_lat depth cws1 cimg ilat offset log
     = generate self lat cs2 uc2 cfg_scale mask masked_lat depth cws2 cimg ilat offset log)
  /\ (forall r1,
         prepare self cs1 uc1 cfg_scale mask masked_lat depth cws1 cimg ilat = Ok r1 ->
         exists r2,
           prepare self cs2 uc2 cfg_scale mask masked_lat depth cws2 cimg ilat = Ok r2
           /\ forall x t log, model_fn self r1 x t log = model_fn self r2 x t log).
Proof.
  intros Hc Hw1 Hw2 Hconds.
  destruct (@prepare_same_but_weights B self cs1 cs2 uc1 uc2 cfg_scale mask masked_lat
              depth cws1 cws2 cimg ilat Hw1 Hw2 Hconds)
    as [(e & He1 & He2) | (r1 & r2 & Hr1 & Hr2 & Hsame)].
  - split.
    + intros _ log. unfold generate. munfold. rewrite He1, He2. reflexivity.
    + intros r1 Hr1. congruence.
  - assert (Hc1 : Py.in_0_1 (r_cfg_scale r1) = true).
    { destruct (prepare_inv Hr1) as (-> & _). exact Hc. }
    split.
    + intros Hk log. unfold generate. munfold. rewrite Hr1, Hr2.
      unfold sample. rewrite Hk. munfold.
      rewrite (for_ext (denoise_step_ignores_weights self Hsame Hc1)).
      destruct (for_ _ _ _ _) as [[st log1] |]; [| reflexivity].
      unfold finish. destruct Hsame as (_ & _ & _ & _ & _ & -> & -> & _).
      reflexivity.
    + intros r Hr. rewrite Hr1 in Hr. injection Hr as <-.
      exists r2. split; [exact Hr2 |].
      apply model_fn_ignores_weights; assumption.
Qed.

Lemma conds_of_zero {B : Backend} (self : SDfu) (cfg : Q) (uc cs1 cs2 : tensor)
    (ilat : option tensor) :
  cfg == 0 -> conds_of self cfg uc cs1 ilat = conds_of self cfg uc cs2 ilat.
Proof.
  intros H0. unfold conds_of. cbv zeta.
  rewrite (proj2 (Qeq_bool_iff cfg 0) H0). reflexivity.
Qed.

Lemma conds_of_one {B : Backend} (self : SDfu) (cfg : Q) (uc1 uc2 cs : tensor)
    (ilat : option tensor) :
  cfg == 1 -> conds_of self cfg uc1 cs ilat = conds_of self cfg uc2 cs ilat.
Proof.
  intros H1. unfold conds_of. cbv zeta.
  rewrite (proj2 (Qeq_bool_iff cfg 1) H1).
  destruct (Qeq_bool cfg 0) eqn:H0; [| reflexivity].
  apply Qeq_bool_iff in H0. rewrite H0 in H1. discriminate H1.
Qed.

(** X6.  With [cfg_scale == 0] the run of [generate] does not look at the
    prompts: for two sets of prompt embeddings and weights from which
    weights can be formed, the loop over the timesteps makes the same
    denoiser calls and returns the same output (or fails alike), and the
    [model_fn] handed to the k-diffusion sampler is the same function. *)
Theorem zero_scale_ignores_prompts :
  forall (B : Backend) (self : SDfu) (lat cs1 cs2 uc : tensor) (cfg_scale : option Q)
         (mask masked_lat depth : option tensor) (cws1 cws2 : option (list Q))
         (cimg ilat : option tensor) (offset : Z),
    match cfg_scale with
    | None => a_cfg_scale (a self)
    | Some c => c
    end == 0 ->
    (exists w, default_cws cws1 cs1 = Ok w) ->
    (exists w, default_cws cws2 cs2 = Ok w) ->
    (use_kdiff self = false ->
     forall log,
       generate self lat cs1 uc cfg_scale mask masked_lat depth cws1 cimg ilat offset log
       = generate self lat cs2 uc cfg_scale mask masked_lat depth cws2 cimg ilat offset
           log)
    /\ (forall r1,
           prepare self cs1 uc cfg_scale mask masked_lat depth cws1 cimg ilat = Ok r1 ->
           exists r2,
             prepare self cs2 uc cfg_scale mask masked_lat depth cws2 cimg ilat = Ok r2
             /\ forall x t log, model_fn self r1 x t log = model_fn self r2 x t log).
Proof.
  intros B self lat cs1 cs2 uc cfg_scale mask masked_lat depth cws1 cws2 cimg ilat
    offset H0 Hw1 Hw2.
  apply generate_single_prediction; try assumption.
  - unfold Py.in_0_1. rewrite (proj2 (Qeq_bool_iff _ 0) H0). reflexivity.
  - apply conds_of_zero. exact H0.
Qed.

Lemma zero_scale_ignores_prompts_witness :
  generate Fixture.inpaint_ready [[[9; 10]]] [[[1]]] [[[0]]] (Some 0) None None None
    None None None 36 []
  = generate Fixture.inpaint_ready [[[9; 10]]] [[[5]]; [[6]]] [[[0]]] (Some 0) None None
      None (Some [1 # 4; 3 # 4]) None None 36 [].
Proof.
  assert (H0 : match Some 0 with
               | None => a_cfg_scale (a Fixture.inpaint_ready)
               | Some c => c
               end == 0) by reflexivity.
  assert (Hw1 : exists w, default_cws None [[[1]]] = Ok w)
    by (eexists; reflexivity).
  assert (Hw2 : exists w, default_cws (Some [1 # 4; 3 # 4]) [[[5]]; [[6]]] = Ok w)
    by (eexists; reflexivity).
  destruct (@zero_scale_ignores_prompts Fixture.inpaint9 Fixture.inpaint_ready
              [[[9; 10]]] [[[1]]] [[[5]]; [[6]]] [[[0]]] (Some 0) None None None
              None (Some [1 # 4; 3 # 4]) None None 36 H0 Hw1 Hw2) as [H _].
  exact (H eq_refl []).
Defined.

(** X7.  With [cfg_scale == 1] the run of [generate] does not look at
    the unconditional embedding nor at the prompt weights: the
    conditioning is [cs[:batch]] alone, and two runs that differ in [uc]
    and [cws] make the same denoiser calls and return the same output. *)
Theorem unit_scale_ignores_unconditional :
  forall (B : Backend) (self : SDfu) (lat cs uc1 uc2 : tensor) (cfg_scale : option Q)
         (mask masked_lat depth : option tensor) (cws1 cws2 : option (list Q))
         (cimg ilat : option tensor) (offset : Z),
    match cfg_scale with
    | None => a_cfg_scale (a self)
    | Some c => c
    end == 1 ->
    cs <> [] ->
    (use_kdiff self = false ->
     forall log,
       generate self lat cs uc1 cfg_scale mask masked_lat depth cws1 cimg ilat offset log
       = generate self lat cs uc2 cfg_scale mask masked_lat depth cws2 cimg ilat offset
           log)
    /\ (forall r1,
           prepare self cs uc1 cfg_scale mask masked_lat depth cws1 cimg ilat = Ok r1 ->
           r_conds r1
           = Py.slice_to (a_batch (a self))
               (if (a_batch (a self) >? 1)%Z
                then repeat_interleave cs (a_batch (a self)) else cs)
           /\ exists r2,
                prepare self cs uc2 cfg_scale mask masked_lat depth cws2 cimg ilat = Ok r2
                /\ forall x t log, model_fn self r1 x t log = model_fn self r2 x t log).
Proof.
  intros B self lat cs uc1 uc2 cfg_scale mask masked_lat depth cws1 cws2 cimg ilat
    offset H1 Hcs.
  assert (Hin : Py.in_0_1 (match cfg_scale with
                           | None => a_cfg_scale (a self)
                           | Some c => c
                           end) = true).
  { unfold Py.in_0_1. rewrite (proj2 (Qeq_bool_iff _ 1) H1). apply orb_true_r. }
  destruct (@default_cws_ok cws1 cs Hcs) as (w1 & Hw1 & _).
  destruct (@default_cws_ok cws2 cs Hcs) as (w2 & Hw2 & _).
  destruct (@generate_single_prediction B self lat cs cs uc1 uc2 cfg_scale mask
              masked_lat depth cws1 cws2 cimg ilat offset Hin
              (ex_intro _ w1 Hw1) (ex_intro _ w2 Hw2)
              (conds_of_one self uc1 uc2 cs ilat H1)) as [Hgen Hfn].
  split; [exact Hgen |].
  intros r1 Hr1. split; [| exact (Hfn r1 Hr1)].
  destruct (prepare_inv Hr1) as (_ & -> & _).
  destruct (@conds_of_cases B self (match cfg_scale with
                                    | None => a_cfg_scale (a self)
                                    | Some c => c
                                    end) uc1 cs ilat) as (_ & H & _).
  exact (proj1 (H H1)).
Qed.

Lemma unit_scale_ignores_unconditional_witness :
  generate Fixture.inpaint_ready [[[9; 10]]] [[[1]]] [[[0]]] (Some 1) None None None
    None None None 36 []
  = generate Fixture.inpaint_ready [[[9; 10]]] [[[1]]] [[[7]]; [[8]]] (Some 1) None None
      None (Some [1 # 4; 3 # 4]) None None 36 [].
Proof.
  assert (H1 : match Some 1 with
               | None => a_cfg_scale (a Fixture.inpaint_ready)
               | Some c => c
               end == 1) by reflexivity.
  assert (Hcs : [[[1]]] <> @nil (list (list Q))) by discriminate.
  destruct (@unit_scale_ignores_unconditional Fixture.inpaint9 Fixture.inpaint_ready
              [[[9; 10]]] [[[1]]] [[[0]]] [[[7]]; [[8]]] (Some 1) None None None
              None (Some [1 # 4; 3 # 4]) None None 36 H1 Hcs) as [H _].
  exact (H eq_refl []).
Defined.

Lemma for_trace {A S} (I : S -> Prop) (P : A -> denoise_call -> Prop)
    (body : A -> S -> M S) :
  (forall x s log s' log',
      I s -> body x s log = Ok (s', log') ->
      I s' /\ exists c, log' = log ++ [c] /\ P x c) ->
  forall xs s log s' log',
    I s -> for_ xs body s log = Ok (s', log') ->
    I s' /\ exists calls, log' = log ++ calls /\ Forall2 P xs calls.
Proof.
  intros Hbody. induction xs as [| x xs IH]; intros s log s' log' Hi H; simpl in H.
  - munfold. injection H as <- <-. split; [exact Hi |].
    exists []. rewrite app_nil_r. auto.
  - unfold bind in H. destruct (body x s log) as [[s1 log1] |] eqn:Hb; [| discriminate].
    destruct (Hbody _ _ _ _ _ Hi Hb) as (Hi1 & c & -> & Hc).
    destruct (IH _ _ _ _ Hi1 H) as (Hi' & calls & -> & Hall).
    split; [exact Hi' |].
    exists (c :: calls). rewrite <- app_assoc. simpl. auto.
Qed.

Lemma Forall2_map_eq {A B C} (f : A -> C) (g : B -> C) (xs : list A) (ys : list B) :
  Forall2 (fun x y => g y = f x) xs ys -> map g ys = map f xs.
Proof. induction 1; simpl; congruence. Qed.

Lemma slice_from_past_end {A} (k : Z) (xs : list A) :
  (Py.len xs <= k)%Z -> Py.slice_from k xs = [].
Proof.
  unfold Py.len. intros Hk. unfold Py.slice_from, Py.bound.
  destruct (Z.ltb_spec k 0) as [H | _]; [lia |].
  apply skipn_all2. lia.
Qed.





Lemma control_without_network {B : Backend} (self : SDfu) (x : tensor) (t : tval)
    (conds : tensor) (cimg : option tensor) (kw : ukwargs) :
  use_cnet self = false \/ cimg = None -> control self x t conds cimg kw = kw.
Proof.
  intros [H | ->]; unfold control; [| reflexivity].
  rewrite H. destruct cimg; reflexivity.
Qed.

Lemma expand_to_none (conds : tensor) (x x' : option tensor) :
  expand_to conds x = Ok x' -> x = None -> x' = None.
Proof. intros H ->. simpl in H. congruence. Qed.

Lemma denoise_step_kw {B : Backend} (self : SDfu) (r : run) (t : Z)
    (lat : tensor) (kw : ukwargs) (sch : sched) (log : list denoise_call)
    (st' : tensor * ukwargs * sched) (log' : list denoise_call) :
  denoise_step self r t (lat, kw, sch) log = Ok (st', log') ->
  exists lat_in c,
    log' = log ++ [c]
    /\ snd (fst st') = control self lat_in (Timestep t) (r_conds r) (r_cimg r) kw
    /\ (dc_kw c = snd (fst st')
        \/ (dc_kw c = None
            /\ Py.in_0_1 (r_cfg_scale r) = false
            /\ r_ilat r <> None /\ a_img_scale (a self) <> None))
    /\ (Py.in_0_1 (r_cfg_scale r) = false ->
        r_ilat r <> None -> a_img_scale (a self) <> None -> dc_kw c = None).
Proof.
  intros H. unfold denoise_step in H. munfold.
  destruct (Torch.cat _) as [lat_in |] eqn:Hcat; [| discriminate].
  exists lat_in.
  destruct (Py.in_0_1 (r_cfg_scale r)) eqn:Hcfg.
  - destruct (sched_step _ _ _ _) as [sch' lat'] eqn:Hstep.
    injection H as <- <-. eexists. split; [reflexivity |].
    split; [reflexivity |]. split; [left; reflexivity | discriminate].
  - destruct (r_ilat r) as [ilat |] eqn:Hilat;
      [destruct (a_img_scale (a self)) as [img_scale |] eqn:Himg |].
    + destruct (chunk _ _) as [noises |] eqn:Hchunk; [| discriminate].
      destruct (pix2pix_guidance _ _ _ _) as [noise_pred |] eqn:Hg; [| discriminate].
      destruct (sched_step _ _ _ _) as [sch' lat'] eqn:Hstep.
      injection H as <- <-. eexists. split; [reflexivity |].
      split; [reflexivity |].
      split; [right; repeat split; discriminate | reflexivity].
    + destruct (chunk _ _) as [noises |] eqn:Hchunk; [| discriminate].
      destruct (prompt_guidance _ _ _) as [noise_pred |] eqn:Hg; [| discriminate].
      destruct (sched_step _ _ _ _) as [sch' lat'] eqn:Hstep.
      injection H as <- <-. eexists. split; [reflexivity |].
      split; [reflexivity |]. split; [left; reflexivity | congruence].
    + destruct (chunk _ _) as [noises |] eqn:Hchunk; [| discriminate].
      destruct (prompt_guidance _ _ _) as [noise_pred |] eqn:Hg; [| discriminate].
      destruct (sched_step _ _ _ _) as [sch' lat'] eqn:Hstep.
      injection H as <- <-. eexists. split; [reflexivity |].
      split; [reflexivity |]. split; [left; reflexivity | congruence].
Qed.

Lemma model_fn_kw {B : Backend} (self : SDfu) (r : run) (x : tensor) (t : list Q)
    (log : list denoise_call) (noise_pred : tensor) (log' : list denoise_call) :
  model_fn self r x t log = Ok (noise_pred, log') ->
  exists x_in t_in c,
    log' = log ++ [c]
    /\ (dc_kw c = control self x_in (Sigmas t_in) (r_conds r) (r_cimg r) None
        \/ dc_kw c = None)
    /\ (Py.in_0_1 (r_cfg_scale r) = false ->
        r_ilat r <> None -> a_img_scale (a self) <> None -> dc_kw c = None).
Proof.
  intros H. unfold model_fn in H. munfold.
  destruct (Torch.cat _) as [x_in |] eqn:Hcat; [| discriminate].
  destruct (cat_1d _) as [t_in |] eqn:Hcat_t; [| discriminate].
  exists x_in, t_in.
  destruct (Py.in_0_1 (r_cfg_scale r)) eqn:Hcfg.
  - injection H as <- <-. eexists. split; [reflexivity |].
    split; [left; reflexivity | discriminate].
  - destruct (r_ilat r) as [ilat |] eqn:Hilat;
      [destruct (a_img_scale (a self)) as [img_scale |] eqn:Himg |].
    + destruct (Py.getitem t_in 0) as [t0 |] eqn:Ht0; [| discriminate].
      destruct (sigma_at _ _) as [sigma |] eqn:Hsig; [| discriminate].
      destruct (pix2pix_guidance _ _ _ _) as [np |] eqn:Hg; [| discriminate].
      injection H as <- <-. eexists. split; [reflexivity |].
      split; [right; reflexivity | reflexivity].
    + destruct (chunk _ _) as [noises |] eqn:Hchunk; [| discriminate].
      destruct (prompt_guidance _ _ _) as [np |] eqn:Hg; [| discriminate].
      injection H as <- <-. eexists. split; [reflexivity |].
      split; [left; reflexivity | congruence].
    + destruct (chunk _ _) as [noises |] eqn:Hchunk; [| discriminate].
      destruct (prompt_guidance _ _ _) as [np |] eqn:Hg; [| discriminate].
      injection H as <- <-. eexists. split; [reflexivity |].
      split; [left; reflexivity | congruence].
Qed.

(** X10.  The residuals of the control network reach the denoiser only
    when a control network is loaded and a control image is given:
    otherwise every denoiser call of [generate], on either sampler
    family, is made with empty keyword arguments.  The call of the
    pixel-edit branch never receives them. *)
Theorem no_residuals_without_control :
  forall (B : Backend) (self : SDfu) (cs uc : tensor) (cfg_scale : option Q)
         (mask masked_lat depth : option tensor) (cws : option (list Q))
         (cimg ilat : option tensor),
    (use_cnet self = false \/ cimg = None ->
     (use_kdiff self = false ->
      forall lat offset log out log',
        generate self lat cs uc cfg_scale mask masked_lat depth cws cimg ilat offset log
        = Ok (out, log') ->
        exists calls, log' = log ++ calls /\ Forall (fun c => dc_kw c = None) calls)
     /\ (forall r x t log noise_pred log',
            prepare self cs uc cfg_scale mask masked_lat depth cws cimg ilat = Ok r ->
            model_fn self r x t log = Ok (noise_pred, log') ->
            exists c, log' = log ++ [c] /\ dc_kw c = None))
    /\ (forall r, Py.in_0_1 (r_cfg_scale r) = false ->
        r_ilat r <> None -> a_img_scale (a self) <> None ->
        (forall t st log st' log',
            denoise_step self r t st log = Ok (st', log') ->
            exists c, log' = log ++ [c] /\ dc_kw c = None)
        /\ (forall x t log noise_pred log',
               model_fn self r x t log = Ok (noise_pred, log') ->
               exists c, log' = log ++ [c] /\ dc_kw c = None)).
Proof.
  intros B self cs uc cfg_scale mask masked_lat depth cws cimg ilat. split.
  - intros Hno.
    assert (Hr : forall r,
               prepare self cs uc cfg_scale mask masked_lat depth cws cimg ilat = Ok r ->
               use_cnet self = false \/ r_cimg r = None).
    { intros r Hp. destruct Hno as [H | H]; [left; exact H | right].
      destruct (prepare_inv Hp) as (_ & _ & _ & _ & Hci & _).
      exact (expand_to_none Hci H). }
    split.
    + intros Hk lat offset log out log' Hgen.
      destruct (generate_inv Hgen) as (r & lat' & Hp & Hsample & _).
      unfold sample in Hsample. rewrite Hk in Hsample. munfold.
      destruct (for_ _ _ _ _) as [[st log1] |] eqn:Hfor; [| discriminate].
      injection Hsample as _ <-.
      destruct (@for_trace Z (tensor * ukwargs * sched)
                  (fun s => snd (fst s) = None)
                  (fun _ c => dc_kw c = None) (denoise_step self r)) with
        (xs := Py.slice_from offset (timesteps self))
        (s := (lat, @None (list tensor * tensor), scheduler self))
        (log := log) (s' := st) (log' := log1) as (_ & calls & Hlog & Hall);
        [| reflexivity | exact Hfor |].
      * intros t [[l kw] sch] lg s' lg' Hinv Hstep. simpl in Hinv. subst kw.
        destruct (denoise_step_kw Hstep) as (lat_in & c & Hlg & Hkw & Hc & _).
        rewrite (@control_without_network B self _ _ _ _ None (Hr r Hp)) in Hkw.
        split; [exact Hkw |]. exists c. split; [exact Hlg |].
        destruct Hc as [Hc | (Hc & _)]; congruence.
      * exists calls. split; [exact Hlog |].
        clear - Hall. induction Hall; constructor; assumption.
    + intros r x t log np log' Hp Hm.
      destruct (model_fn_kw Hm) as (x_in & t_in & c & Hlg & Hc & _).
      exists c. split; [exact Hlg |].
      rewrite (@control_without_network B self _ _ _ _ None (Hr r Hp)) in Hc.
      destruct Hc; assumption.
  - intros r Hc Hil Him. split.
    + intros t [[l kw] sch] log st' log' Hstep.
      destruct (denoise_step_kw Hstep) as (lat_in & c & Hlg & _ & _ & Hnone).
      exists c. split; [exact Hlg | exact (Hnone Hc Hil Him)].
    + intros x t log np log' Hm.
      destruct (model_fn_kw Hm) as (x_in & t_in & c & Hlg & _ & Hnone).
      exists c. split; [exact Hlg | exact (Hnone Hc Hil Him)].
Qed.

Lemma no_residuals_without_control_witness :
  exists out calls,
    generate Fixture.inpaint_ready [[[9; 10]]] [[[1]]] [[[0]]] None None None None None
      (Some [[[3]]]) None 36 [] = Ok (out, calls)
    /\ Forall (fun c => dc_kw c = None) calls.
Proof.
  assert (Hb : (1 <= a_batch (a Fixture.inpaint_ready))%Z) by (simpl; lia).
  assert (Huc : [[[0]]] <> @nil (list (list Q))) by discriminate.
  assert (Hcs : [[[1]]] <> @nil (list (list Q))) by discriminate.
  assert (Hci : forall ci : tensor, Some [[[3]]] = Some ci -> ci <> []).
  { intros ci E. injection E as <-. discriminate. }
  destruct (@generate_residual_ok Fixture.inpaint9 Fixture.inpaint_ready [[[9; 10]]]
              [[[1]]] [[[0]]] None None None None None (Some [[[3]]]) 36 [] eq_refl Hb
              Huc Hcs Hci) as (out & calls & Hgen).
  exists out, calls. split; [exact Hgen |].
  destruct (@no_residuals_without_control Fixture.inpaint9 Fixture.inpaint_ready
              [[[1]]] [[[0]]] None None None None None (Some [[[3]]]) None) as (H & _).
  destruct (H (or_introl eq_refl)) as (Hres & _).
  destruct (Hres eq_refl _ _ _ _ _ Hgen) as (calls' & Hlog & Hall).
  simpl in Hlog. subst calls'. exact Hall.
Defined.

(** ** More on the set-up *)

Lemma set_steps_keeps {B : Backend} (self self' : SDfu) (steps : Z) (strength : Q)
    (warmup : Z) :
  set_steps self steps strength warmup = Ok self' ->
  seed self' = seed self /\ g_ self' = g_ self /\ use_cnet self' = use_cnet self
  /\ use_kdiff self' = use_kdiff self
  /\ final_offload_hook self' = final_offload_hook self
  /\ vae_scale self' = vae_scale self /\ res self' = res self
  /\ a self' = a self.
Proof.
  unfold set_steps. destruct (use_kdiff self) eqn:Hk.
  - intros [= <-]. simpl. repeat split; assumption.
  - destruct (repeat_1d _ _) as [lt |]; simpl; [| discriminate].
    intros [= <-]. simpl. repeat split; assumption.
Qed.

Lemma final_setup_inv {B : Backend} (self self' : SDfu) :
  final_setup self = Ok self' ->
  exists a1 self2,
    (a1 = a self \/ a1 = set_strength (a self) 1)
    /\ set_steps
         {| a := a1; scheduler := scheduler self; use_kdiff := use_kdiff self;
            use_cnet := use_cnet self; inpaintmod := (unet_in_channels =? 9)%Z;
            depthmod := (unet_in_channels =? 5)%Z; seed := seed self; g_ := g_ self;
            vae_scale := Qpower 2 (Py.len vae_block_out_channels - 1);
            res := inject_Z unet_sample_size
                   * Qpower 2 (Py.len vae_block_out_channels - 1);
            sigmas := sigmas self; timesteps := timesteps self;
            lat_timestep := lat_timestep self;
            final_offload_hook := final_offload_hook self |}
         (a_steps a1) (a_strength a1) 1 = Ok self2
    /\ ((a_lowmem (a self) = true /\ accelerate_ok = true
         /\ final_offload_hook self' = true)
        \/ (a_lowmem (a self) = false /\ self' = self2))
    /\ seed self' = seed self2 /\ g_ self' = g_ self2
    /\ use_cnet self' = use_cnet self2 /\ use_kdiff self' = use_kdiff self2
    /\ vae_scale self' = vae_scale self2 /\ res self' = res self2
    /\ a self' = a self2.
Proof.
  unfold final_setup. intros H.
  destruct (assert (negb ((unet_in_channels =? 9)%Z && negb (isset (a_mask (a self))))) _)
    as [[] |]; simpl in H; [| discriminate].
  assert (Hcase : exists a1,
            (a1 = a self \/ a1 = set_strength (a self) 1)
            /\ (if isset (a_img_scale (a self))
                then rbind (assert (negb (use_cnet self || Py.in_0_1 (a_cfg_scale (a self))))
                              "Use either Instruct-pix2pix or Controlnet guidance")
                       (fun _ => Ok (set_strength (a self) 1))
                else Ok (a self)) = Ok a1).
  { destruct (isset (a_img_scale (a self))).
    - destruct (assert _ _) as [[] |]; simpl in *; [| discriminate].
      eexists. split; [right; reflexivity | reflexivity].
    - eexists. split; [left; reflexivity | reflexivity]. }
  destruct Hcase as (a1 & Ha1 & Heq). rewrite Heq in H. simpl in H.
  assert (Hlow : a_lowmem a1 = a_lowmem (a self))
    by (destruct Ha1 as [-> | ->]; reflexivity).
  destruct (set_steps _ _ _ _) as [self2 |] eqn:Hs; simpl in H; [| discriminate].
  exists a1, self2. split; [exact Ha1 |]. split; [exact Hs |].
  rewrite Hlow in H. destruct (a_lowmem (a self)).
  - unfold assert in H. destruct accelerate_ok; simpl in H; [| discriminate].
    injection H as <-. simpl. split; [left; auto |]. repeat split.
  - injection H as <-. split; [right; auto |]. repeat split.
Qed.

(** X11.  The low-memory mode of [final_setup] (lines 211-220): a set-up
    that returns with [lowmem] set has found the offloading library and
    has allocated the offload hook, and without [lowmem] it leaves the
    hook as it was.  With [lowmem] set and no usable offloading library
    no set-up returns: once the checks before it pass, the call ends in
    the assertion of line 212. *)
Theorem low_memory_needs_accelerate :
  forall (B : Backend) (self : SDfu),
    (forall self', final_setup self = Ok self' ->
       (a_lowmem (a self) = true ->
        accelerate_ok = true /\ final_offload_hook self' = true)
       /\ (a_lowmem (a self) = false ->
           final_offload_hook self' = final_offload_hook self))
    /\ (a_lowmem (a self) = true -> accelerate_ok = false ->
        (forall self', final_setup self <> Ok self')
        /\ ((unet_in_channels = 9%Z -> a_mask (a self) <> None) ->
            (a_img_scale (a self) <> None ->
             use_cnet self = false /\ Py.in_0_1 (a_cfg_scale (a self)) = false) ->
            use_kdiff self = true \/ (0 <= a_batch (a self))%Z ->
            final_setup self
            = Err (AssertionError " Install accelerate > 0.17 for model offloading"))).
Proof.
  intros B self.
  assert (Hok : forall self', final_setup self = Ok self' ->
            (a_lowmem (a self) = true ->
             accelerate_ok = true /\ final_offload_hook self' = true)
            /\ (a_lowmem (a self) = false ->
                final_offload_hook self' = final_offload_hook self)).
  { intros self' H.
    destruct (final_setup_inv H) as (a1 & self2 & _ & Hs & Hlow & _).
    destruct (set_steps_keeps Hs) as (_ & _ & _ & _ & Hhook & _). simpl in Hhook.
    split; intros Hl; destruct Hlow as [(Hl1 & Hacc & Hh) | (Hl1 & ->)];
      try congruence; auto. }
  split; [exact Hok |].
  intros Hl Hacc. split.
  - intros self' H. destruct (Hok self' H) as [H1 _].
    destruct (H1 Hl) as [Hacc' _]. congruence.
  - intros Hmask Hpix Hbatch. unfold final_setup.
    assert (Hm : negb ((unet_in_channels =? 9)%Z && negb (isset (a_mask (a self)))) = true).
    { destruct (Z.eqb_spec unet_in_channels 9) as [E | _]; [| reflexivity].
      specialize (Hmask E). destruct (a_mask (a self)); [reflexivity | congruence]. }
    rewrite Hm. simpl.
    destruct (a_img_scale (a self)) as [s |] eqn:Himg; simpl.
    + destruct Hpix as [Hc Hin]; [discriminate |]. rewrite Hc, Hin. simpl.
      match goal with
      | |- rbind (set_steps ?s0 ?n ?q ?w) _ = _ =>
          destruct (@set_steps_ok B s0 n q w Hbatch) as (self2 & Hs & Ha & _)
      end.
      rewrite Hs. simpl. rewrite Hl, Hacc. reflexivity.
    + match goal with
      | |- rbind (set_steps ?s0 ?n ?q ?w) _ = _ =>
          destruct (@set_steps_ok B s0 n q w Hbatch) as (self2 & Hs & Ha & _)
      end.
      rewrite Hs. simpl. rewrite Hl, Hacc. reflexivity.
Qed.

Lemma low_memory_needs_accelerate_witness :
  final_setup Example.lowmem_engine
  = Err (AssertionError " Install accelerate > 0.17 for model offloading").
Proof.
  destruct (@low_memory_needs_accelerate Example.no_accelerate Example.lowmem_engine)
    as [_ H].
  destruct (H eq_refl eq_refl) as [_ Herr].
  apply Herr.
  - intros E. discriminate E.
  - intros E. exfalso. apply E. reflexivity.
  - right. simpl. lia.
Defined.

Lemma init_inv {B : Backend} (now : Q) (a0 : args) (sch0 : sched) (self : SDfu) :
  __init__ now a0 sch0 = Ok self ->
  exists self1,
    final_setup self1 = Ok self
    /\ seed self1 = match a_seed a0 with
                    | Some s => if (s =? 0)%Z then Py.int (Py.mod1 now * 69696) else s
                    | None => Py.int (Py.mod1 now * 69696)
                    end
    /\ g_ self1 = manual_seed (seed self1)
    /\ use_kdiff self1 = sched_has_sigmas
    /\ use_cnet self1 = isset (a_control_mod a0)
    /\ (isset (a_control_mod a0) = true -> control_mod_exists = true).
Proof.
  unfold __init__. intros H.
  destruct (a_control_mod a0) as [p |] eqn:Hc; simpl in H.
  - unfold assert in H. destruct control_mod_exists; simpl in H; [| discriminate].
    eexists. split; [exact H |]. simpl.
    destruct (a_seed a0); simpl; repeat split.
  - eexists. split; [exact H |]. simpl.
    destruct (a_seed a0); simpl; repeat split; discriminate.
Qed.

(** X12.  The engine [__init__] returns (lines 57-104): its generator is
    the one seeded at construction, from [a.seed] when that is set and
    not zero and from the clock otherwise, with no draw taken; the set-up
    that follows does not seed again.  It is on the k-diffusion family
    exactly when the scheduler has sigmas, and it uses a control network
    exactly when [control_mod] is set, whose files were then found.  When
    they are not found the constructor ends in the assertion of line 96,
    whatever else is configured. *)
Theorem init_seeds_once :
  forall (B : Backend) (now : Q) (a0 : args) (sch0 : sched),
    (forall self, __init__ now a0 sch0 = Ok self ->
       g_ self = manual_seed (seed self)
       /\ draws (g_ self) = 0%nat
       /\ (forall s, a_seed a0 = Some s -> s <> 0%Z -> seed self = s)
       /\ (a_seed a0 = None \/ a_seed a0 = Some 0%Z ->
           seed self = Py.int (Py.mod1 now * 69696)
           /\ (0 <= seed self < 69696)%Z)
       /\ use_kdiff self = sched_has_sigmas
       /\ use_cnet self = isset (a_control_mod a0)
       /\ (isset (a_control_mod a0) = true -> control_mod_exists = true))
    /\ (isset (a_control_mod a0) = true -> control_mod_exists = false ->
        __init__ now a0 sch0 = Err (AssertionError "Not found ControlNet model")).
Proof.
  intros B now a0 sch0. split.
  - intros self H.
    destruct (init_inv H) as (self1 & Hf & Hseed & Hg & Hk & Hc & Hex).
    destruct (final_setup_inv Hf)
      as (a1 & self2 & _ & Hs & _ & Hs2 & Hg2 & Hc2 & Hk2 & _).
    destruct (set_steps_keeps Hs) as (Hs3 & Hg3 & Hc3 & Hk3 & _). simpl in *.
    assert (Eseed : seed self = seed self1) by congruence.
    assert (Eg : g_ self = g_ self1) by congruence.
    split; [congruence |].
    split; [rewrite Eg, Hg; reflexivity |].
    split.
    { intros s Hsome Hne. rewrite Eseed, Hseed, Hsome.
      destruct (Z.eqb_spec s 0); [contradiction | reflexivity]. }
    split.
    { intros Hnone.
      assert (E : seed self = Py.int (Py.mod1 now * 69696)).
      { rewrite Eseed, Hseed. destruct Hnone as [-> | ->]; reflexivity. }
      split; [exact E | rewrite E; apply time_seed_range]. }
    split; [congruence |]. split; [congruence | exact Hex].
  - intros Hset Hex. unfold __init__. rewrite Hset, Hex. reflexivity.
Qed.

Lemma init_seeds_once_witness :
  exists self,
    __init__ (B := Fixture.ddim) Fixture.half_past
      (Example.with_seed (Fixture.namespace 1 7 (3 # 4)) 42) 0%Z = Ok self
    /\ seed self = 42%Z /\ g_ self = manual_seed 42.
Proof.
  destruct (@__init__ Fixture.ddim Fixture.half_past
              (Example.with_seed (Fixture.namespace 1 7 (3 # 4)) 42) 0%Z)
    as [self | e] eqn:Hinit; [| discriminate Hinit].
  exists self. split; [reflexivity |].
  destruct (@init_seeds_once Fixture.ddim Fixture.half_past
              (Example.with_seed (Fixture.namespace 1 7 (3 # 4)) 42) 0%Z) as [H _].
  destruct (H self Hinit) as (Hg & _ & Hs & _).
  assert (E : seed self = 42%Z) by (apply Hs; [reflexivity | discriminate]).
  split; [exact E | rewrite Hg, E; reflexivity].
Defined.

(** ** DDIM inversion *)

Lemma ddim_update_at {B : Backend} (alpha_prod_t alpha_prod_t_next : Q)
    (noise sample : tensor) :
  shape noise = shape sample ->
  shape (ddim_update alpha_prod_t alpha_prod_t_next noise sample) = shape sample
  /\ forall i j k, inside (shape sample) i j k ->
       at3 (ddim_update alpha_prod_t alpha_prod_t_next noise sample) i j k
       = pow_half alpha_prod_t_next
         * ((at3 sample i j k - pow_half (1 - alpha_prod_t) * at3 noise i j k)
            / pow_half alpha_prod_t)
         + pow_half (1 - alpha_prod_t_next) * at3 noise i j k.
Proof.
  intros Hs. unfold ddim_update, add, sub, smul, divs. cbv zeta.
  set (bn := map_scalar (fun x => pow_half (1 - alpha_prod_t) * x) noise).
  assert (Hbn : shape bn = shape sample)
    by (unfold bn; rewrite shape_map_scalar; exact Hs).
  set (d := lift2 Qminus sample bn).
  assert (Hd : shape d = shape sample)
    by (unfold d; apply shape_lift2; symmetry; exact Hbn).
  set (o := map_scalar (fun x => x / pow_half alpha_prod_t) d).
  assert (Ho : shape o = shape sample)
    by (unfold o; rewrite shape_map_scalar; exact Hd).
  set (so := map_scalar (fun x => pow_half alpha_prod_t_next * x) o).
  assert (Hso : shape so = shape sample)
    by (unfold so; rewrite shape_map_scalar; exact Ho).
  set (dir := map_scalar (fun x => pow_half (1 - alpha_prod_t_next) * x) noise).
  assert (Hdir : shape dir = shape sample)
    by (unfold dir; rewrite shape_map_scalar; exact Hs).
  split.
  - rewrite shape_lift2 by congruence. exact Hso.
  - intros i j k Hin.
    rewrite at3_lift2 by (rewrite ?Hso; congruence || exact Hin).
    unfold so, dir.
    rewrite at3_map_scalar by (rewrite Ho; exact Hin).
    rewrite at3_map_scalar by (rewrite Hs; exact Hin).
    unfold o. rewrite at3_map_scalar by (rewrite Hd; exact Hin).
    unfold d. rewrite at3_lift2 by (congruence || exact Hin).
    unfold bn. rewrite at3_map_scalar by (rewrite Hs; exact Hin).
    reflexivity.
Qed.

(** X13.  The update of [next_step_ddim] (lines 240-244) on a noise
    prediction of the shape of the sample, where the square roots of the
    two cumulative alphas are not zero: it keeps the shape; at every
    position it is
    [sqrt(a_next) * (sample - sqrt(1 - a) * noise) / sqrt(a)
     + sqrt(1 - a_next) * noise];
    the same update with the two alphas exchanged and the same noise
    gives the sample back; and between equal alphas it changes nothing. *)
Theorem ddim_update_is_invertible :
  forall (B : Backend) (alpha_prod_t alpha_prod_t_next : Q) (noise sample : tensor),
    shape noise = shape sample ->
    ~ pow_half alpha_prod_t == 0 ->
    ~ pow_half alpha_prod_t_next == 0 ->
    shape (ddim_update alpha_prod_t alpha_prod_t_next noise sample) = shape sample
    /\ forall i j k, inside (shape sample) i j k ->
         at3 (ddim_update alpha_prod_t alpha_prod_t_next noise sample) i j k
         == pow_half alpha_prod_t_next
            * ((at3 sample i j k - pow_half (1 - alpha_prod_t) * at3 noise i j k)
               / pow_half alpha_prod_t)
            + pow_half (1 - alpha_prod_t_next) * at3 noise i j k
         /\ at3 (ddim_update alpha_prod_t_next alpha_prod_t noise
                   (ddim_update alpha_prod_t alpha_prod_t_next noise sample)) i j k
            == at3 sample i j k
         /\ at3 (ddim_update alpha_prod_t alpha_prod_t noise sample) i j k
            == at3 sample i j k.
Proof.
  intros B a a' noise sample Hs Ha Ha'.
  destruct (@ddim_update_at B a a' noise sample Hs) as [Hshape Hat].
  split; [exact Hshape |].
  intros i j k Hin. split; [rewrite (Hat i j k Hin); reflexivity |]. split.
  - destruct (@ddim_update_at B a' a noise (ddim_update a a' noise sample))
      as [_ Hback]; [congruence |].
    rewrite Hback by (rewrite Hshape; exact Hin).
    rewrite (Hat i j k Hin). field. split; assumption.
  - destruct (@ddim_update_at B a a noise sample Hs) as [_ Hsame].
    rewrite (Hsame i j k Hin). field. exact Ha.
Qed.

Lemma ddim_update_is_invertible_witness :
  at3 (@ddim_update Example.ddim4 (16 # 25) (9 # 25) [[[1; 2]]]
         (@ddim_update Example.ddim4 (9 # 25) (16 # 25) [[[1; 2]]] [[[3; 5]]])) 0 0 1
  == 5.
Proof.
  assert (Ha : ~ @pow_half Example.ddim4 (9 # 25) == 0) by (intros E; discriminate E).
  assert (Ha' : ~ @pow_half Example.ddim4 (16 # 25) == 0) by (intros E; discriminate E).
  destruct (@ddim_update_is_invertible Example.ddim4 (9 # 25) (16 # 25) [[[1; 2]]]
              [[[3; 5]]] eq_refl Ha Ha') as [_ H].
  assert (Hin : inside (shape [[[3; 5]]]) 0 0 1) by (unfold inside; simpl; lia).
  destruct (H 0%nat 0%nat 1%nat Hin) as (_ & Hback & _).
  exact Hback.
Defined.

Lemma tensor_index_nth (xs : list Q) (i : Z) :
  (0 <= i < Py.len xs)%Z -> tensor_index xs i = Ok (nth (Z.to_nat i) xs 0).
Proof.
  unfold Py.len. intros Hi. unfold tensor_index, Py.len.
  destruct (Z.ltb_spec i (- Z.of_nat (length xs))) as [H | _]; [lia |].
  destruct (Z.leb_spec (Z.of_nat (length xs)) i) as [H | _]; [lia |].
  destruct (Z.ltb_spec i 0) as [H | _]; [lia |].
  simpl. apply getitem_nth. lia.
Qed.

Lemma tensor_index_outside (xs : list Q) (i : Z) :
  (i < - Py.len xs \/ Py.len xs <= i)%Z -> tensor_index xs i = Err IndexError.
Proof.
  intros Hi. unfold tensor_index.
  destruct (Z.ltb_spec i (- Py.len xs)) as [_ | H1]; [reflexivity |].
  destruct (Z.leb_spec (Py.len xs) i) as [_ | H2]; [reflexivity | lia].
Qed.

Lemma tensor_index_error (xs : list Q) (i : Z) (e : exn) :
  tensor_index xs i = Err e -> e = IndexError.
Proof.
  unfold tensor_index, Py.getitem.
  destruct (_ || _); [congruence |].
  destruct (nth_error _ _); congruence.
Qed.

Lemma next_step_ddim_ok_aux {B : Backend} (tables : sched -> ddim_tables) (self : SDfu)
    (noise : tensor) (t : Z) (sample : tensor) :
  (0 < num_inference_steps (tables (scheduler self)))%Z ->
  (0 <= num_train_timesteps (tables (scheduler self)))%Z ->
  (0 <= t < Py.len (alphas_cumprod (tables (scheduler self))))%Z ->
  exists lat', next_step_ddim tables self noise t sample = Ok lat'.
Proof.
  intros Hn Ht Hin. unfold next_step_ddim.
  set (tb := tables (scheduler self)) in *. unfold Py.floordiv.
  destruct (Z.eqb_spec (num_inference_steps tb) 0) as [E | _]; [lia |].
  simpl.
  assert (Hk : (0 <= num_train_timesteps tb / num_inference_steps tb)%Z)
    by (apply Z.div_pos; lia).
  set (cur := Z.min (t - num_train_timesteps tb / num_inference_steps tb) 999) in *.
  rewrite Z.geb_leb.
  destruct (Z.leb_spec 0 cur) as [Hc | Hc].
  - rewrite tensor_index_nth by (unfold cur; lia). simpl.
    rewrite (tensor_index_nth Hin). eexists. reflexivity.
  - simpl. rewrite (tensor_index_nth Hin). eexists. reflexivity.
Qed.



Lemma for_ok_in {A S} (body : A -> S -> M S) (xs : list A) :
  (forall x, In x xs -> forall s log, exists s' log', body x s log = Ok (s', log')) ->
  forall s log, exists s' log', for_ xs body s log = Ok (s', log').
Proof.
  induction xs as [| x xs IH]; intros Hbody s log; simpl.
  - do 2 eexists. reflexivity.
  - unfold bind.
    destruct (Hbody x (or_introl eq_refl) s log) as (s1 & log1 & ->).
    apply IH. intros y Hy. apply Hbody. right. exact Hy.
Qed.

Lemma for_first {A S} (body : A -> S -> M S) (x : A) (xs : list A) (s : S)
    (log : list denoise_call) (s' : S) (log' : list denoise_call) :
  for_ (x :: xs) body s log = Ok (s', log') ->
  exists s1 log1,
    body x s log = Ok (s1, log1) /\ for_ xs body s1 log1 = Ok (s', log').
Proof.
  simpl. unfold bind. destruct (body x s log) as [[s1 log1] |]; [eauto | discriminate].
Qed.

Lemma ddim_inv_step_inv {B : Backend} (tables : sched -> ddim_tables) (self : SDfu)
    (cond : tensor) (cimg : option tensor) (t : Z) (lat : tensor) (kw : ukwargs)
    (log : list denoise_call) (st' : tensor * ukwargs) (log' : list denoise_call) :
  ddim_inv_step tables self cond cimg t (lat, kw) log = Ok (st', log') ->
  exists c,
    log' = log ++ [c]
    /\ dc_x c = lat /\ dc_t c = Timestep t /\ dc_cond c = cond
    /\ dc_kw c = control self lat (Timestep t) cond cimg kw
    /\ snd st' = dc_kw c
    /\ next_step_ddim tables self (unet c) t lat = Ok (fst st').
Proof.
  intros H. unfold ddim_inv_step in H. munfold.
  destruct (next_step_ddim _ _ _ _ _) as [lat' |] eqn:Hn; [| discriminate].
  injection H as <- <-. eexists. repeat split. exact Hn.
Qed.



(** ** Encoding an image *)

(** X16.  [img_lat] (lines 246-251) returns the encoded latents, scaled
    by the VAE's scaling factor, once per element of the batch, one copy
    of all rows after the other: row [i] of the result is row
    [i mod n] of the [n] encoded rows.  A batch that is not positive is
    the error of [torch.cat] on an empty list.  In the deterministic
    mode the random state is left as it was. *)
Theorem img_lat_tiles_the_batch :
  forall (B : Backend) (rng : Type) (encode_mean : tensor -> tensor)
         (encode_sample : tensor -> rng -> tensor * rng)
         (self : SDfu) (image : tensor) (deterministic : bool) (g : rng),
    ((a_batch (a self) <= 0)%Z ->
     img_lat encode_mean encode_sample self image deterministic g
     = Err (RuntimeError "torch.cat(): expected a non-empty list of Tensors"))
    /\ ((1 <= a_batch (a self))%Z ->
        exists out,
          img_lat encode_mean encode_sample self image deterministic g
          = Ok (out, snd (if deterministic then (encode_mean image, g)
                          else encode_sample image g))
          /\ length out
             = (Z.to_nat (a_batch (a self))
                * length (fst (if deterministic then (encode_mean image, g)
                               else encode_sample image g)))%nat
          /\ forall i, (i < length out)%nat ->
               nth i out []
               = map (map (fun x => x * vae_scaling_factor))
                   (nth (i mod length (fst (if deterministic
                                            then (encode_mean image, g)
                                            else encode_sample image g)))
                      (fst (if deterministic then (encode_mean image, g)
                            else encode_sample image g)) []))
    /\ (forall out g',
           img_lat encode_mean encode_sample self image true g = Ok (out, g') ->
           g' = g
           /\ forall g2, exists out2,
                img_lat encode_mean encode_sample self image true g2 = Ok (out2, g2)
                /\ out2 = out).
Proof.
  intros B rng encode_mean encode_sample self image deterministic g.
  unfold img_lat.
  destruct (if deterministic then (encode_mean image, g) else encode_sample image g)
    as [lats g1] eqn:Henc.
  split; [| split].
  - intros Hb. rewrite list_mul_singleton.
    replace (Z.to_nat (a_batch (a self))) with 0%nat by lia. reflexivity.
  - intros Hb. rewrite list_mul_singleton.
    destruct (Z.to_nat (a_batch (a self))) as [| n] eqn:Hn; [lia |].
    change (Torch.cat (repeat (muls lats vae_scaling_factor) (S n)))
      with (@Ok tensor (concat (repeat (muls lats vae_scaling_factor) (S n)))).
    exists (concat (repeat (muls lats vae_scaling_factor) (S n))).
    split; [reflexivity |].
    assert (Hlen : length (muls lats vae_scaling_factor) = length lats)
      by (unfold muls, map_scalar; apply length_map).
    simpl fst. split.
    + rewrite length_concat_repeat, Hlen. reflexivity.
    + intros i Hi. rewrite length_concat_repeat, Hlen in Hi.
      pose proof (@nth_repeat0 (muls lats vae_scaling_factor) (Z.of_nat (S n)) i)
        as Hnth.
      unfold repeat0 in Hnth. rewrite Nat2Z.id, Hlen in Hnth.
      rewrite (Hnth Hi). unfold muls, map_scalar.
      change (@nil (list Q))
        with (map (map (fun x => x * vae_scaling_factor)) (@nil (list Q))) at 1.
      apply map_nth.
  - intros out g' H. cbv beta iota zeta in H |- *.
    destruct (Torch.cat _) as [o |] eqn:Hcat; simpl in H; [| discriminate].
    injection H as <- <-. split; [reflexivity |].
    intros g2. exists o. split; reflexivity.
Qed.

Lemma img_lat_tiles_the_batch_witness :
  exists out,
    @img_lat Fixture.ddim nat (fun x => x) (fun x g => (x, S g)) Fixture.batch2_engine
      [[[1; 2]]; [[3; 4]]] false 0%nat = Ok (out, 1%nat)
    /\ length out = 4%nat
    /\ nth 3 out [] = [[3 * 1; 4 * 1]].
Proof.
  destruct (@img_lat_tiles_the_batch Fixture.ddim nat (fun x => x)
              (fun x g => (x, S g)) Fixture.batch2_engine [[[1; 2]]; [[3; 4]]] false
              0%nat) as (_ & H & _).
  assert (Hb : (1 <= a_batch (a Fixture.batch2_engine))%Z) by (simpl; lia).
  destruct (H Hb) as (out & Hrun & Hlen & Hrows).
  exists out. split; [exact Hrun |]. split; [exact Hlen |].
  apply Hrows. rewrite Hlen. simpl. lia.
Defined.

(** ** The depth map *)

Lemma qmin_cases (x y : Q) : (qmin x y = x /\ x <= y) \/ (qmin x y = y /\ y <= x).
Proof.
  unfold qmin. destruct (Qle_bool x y) eqn:E.
  - left. split; [reflexivity | apply Qle_bool_iff; exact E].
  - right. split; [reflexivity |].
    destruct (Qlt_le_dec y x) as [H | H]; [apply Qlt_le_weak; exact H |].
    apply Qle_bool_iff in H. congruence.
Qed.

Lemma qmax_cases (x y : Q) : (qmax x y = y /\ x <= y) \/ (qmax x y = x /\ y <= x).
Proof.
  unfold qmax. destruct (Qle_bool x y) eqn:E.
  - left. split; [reflexivity | apply Qle_bool_iff; exact E].
  - right. split; [reflexivity |].
    destruct (Qlt_le_dec y x) as [H | H]; [apply Qlt_le_weak; exact H |].
    apply Qle_bool_iff in H. congruence.
Qed.

Lemma fold_qmin (xs : list Q) (x : Q) :
  In (fold_left qmin xs x) (x :: xs)
  /\ forall y, In y (x :: xs) -> fold_left qmin xs x <= y.
Proof.
  revert x. induction xs as [| z xs IH]; intros x; simpl.
  - split; [left; reflexivity |]. intros y [<- | []]. apply Qle_refl.
  - destruct (IH (qmin x z)) as [Hin Hle]. split.
    + destruct Hin as [Hin | Hin]; [| right; right; exact Hin].
      destruct (qmin_cases x z) as [[E _] | [E _]]; rewrite E in Hin |- *;
        [left | right; left]; exact Hin.
    + intros y Hy.
      assert (Hm : fold_left qmin xs (qmin x z) <= qmin x z)
        by (apply Hle; left; reflexivity).
      destruct Hy as [<- | [<- | Hy]].
      * eapply Qle_trans; [exact Hm |].
        destruct (qmin_cases x z) as [[E H] | [E H]]; rewrite E;
          [apply Qle_refl | exact H].
      * eapply Qle_trans; [exact Hm |].
        destruct (qmin_cases x z) as [[E H] | [E H]]; rewrite E;
          [exact H | apply Qle_refl].
      * apply Hle. right. exact Hy.
Qed.

Lemma fold_qmax (xs : list Q) (x : Q) :
  In (fold_left qmax xs x) (x :: xs)
  /\ forall y, In y (x :: xs) -> y <= fold_left qmax xs x.
Proof.
  revert x. induction xs as [| z xs IH]; intros x; simpl.
  - split; [left; reflexivity |]. intros y [<- | []]. apply Qle_refl.
  - destruct (IH (qmax x z)) as [Hin Hle]. split.
    + destruct Hin as [Hin | Hin]; [| right; right; exact Hin].
      destruct (qmax_cases x z) as [[E _] | [E _]]; rewrite E in Hin |- *;
        [right; left | left]; exact Hin.
    + intros y Hy.
      assert (Hm : qmax x z <= fold_left qmax xs (qmax x z))
        by (apply Hle; left; reflexivity).
      destruct Hy as [<- | [<- | Hy]].
      * eapply Qle_trans; [| exact Hm].
        destruct (qmax_cases x z) as [[E H] | [E H]]; rewrite E;
          [exact H | apply Qle_refl].
      * eapply Qle_trans; [| exact Hm].
        destruct (qmax_cases x z) as [[E H] | [E H]]; rewrite E;
          [apply Qle_refl | exact H].
      * apply Hle. right. exact Hy.
Qed.

Lemma amin_amax (r : list (list Q)) :
  concat r <> [] ->
  exists mn mx,
    amin r = Ok mn /\ amax r = Ok mx
    /\ In mn (concat r) /\ In mx (concat r)
    /\ forall y, In y (concat r) -> mn <= y /\ y <= mx.
Proof.
  intros Hne. unfold amin, amax.
  destruct (concat r) as [| x xs]; [congruence |].
  destruct (fold_qmin xs x) as [Hin1 Hle1].
  destruct (fold_qmax xs x) as [Hin2 Hle2].
  do 2 eexists. split; [reflexivity |]. split; [reflexivity |].
  split; [exact Hin1 |]. split; [exact Hin2 |].
  intros y Hy. split; [apply Hle1 | apply Hle2]; exact Hy.
Qed.

Lemma in_concat_nth (r : list (list Q)) (j k : nat) :
  (j < length r)%nat -> (k < length (nth j r []))%nat ->
  In (nth k (nth j r []) 0) (concat r).
Proof.
  intros Hj Hk. apply in_concat. exists (nth j r []).
  split; apply nth_In; assumption.
Qed.

Lemma collect_map {A R} (f : A -> result R) (xs : list A) (out : list R) :
  collect (map f xs) = Ok out -> Forall2 (fun x o => f x = Ok o) xs out.
Proof.
  revert out. induction xs as [| x xs IH]; intros out H; simpl in H.
  - injection H as <-. constructor.
  - destruct (f x) as [o |] eqn:Hx; simpl in H; [| discriminate].
    destruct (collect (map f xs)) as [os |]; simpl in H; [| discriminate].
    injection H as <-. constructor; [exact Hx | apply IH; reflexivity].
Qed.

(** X17.  [prep_depth] normalises every row of the estimated depth on
    its own (lines 302-303): a row without scalars is an error; a row
    whose depth is constant becomes a row of nan; any other row keeps
    its shape and is mapped into [[-1, 1]], order preserved, with its
    least depth at -1 and its greatest at 1, and both are reached. *)
Theorem depth_is_normalized :
  (forall (estimate : tensor -> tensor) (init_image : tensor)
          (out : list (option (list (list Q)))),
      prep_depth estimate init_image = Ok out ->
      Forall2 (fun r o => normalize_depth r = Ok o) (estimate init_image) out)
  /\ forall r : list (list Q),
    (concat r = [] -> exists msg, normalize_depth r = Err (RuntimeError msg))
    /\ (concat r <> [] ->
        exists depth_min depth_max,
          amin r = Ok depth_min /\ amax r = Ok depth_max
          /\ In depth_min (concat r) /\ In depth_max (concat r)
          /\ depth_min <= depth_max
          /\ (depth_min == depth_max -> normalize_depth r = Ok None)
          /\ (depth_min < depth_max ->
              exists r',
                normalize_depth r = Ok (Some r')
                /\ map (@length Q) r' = map (@length Q) r
                /\ forall j k, (j < length r)%nat -> (k < length (nth j r []))%nat ->
                     -1 <= nth k (nth j r' []) 0 <= 1
                     /\ (nth k (nth j r []) 0 == depth_min ->
                         nth k (nth j r' []) 0 == -1)
                     /\ (nth k (nth j r []) 0 == depth_max ->
                         nth k (nth j r' []) 0 == 1)
                     /\ forall j2 k2,
                          (j2 < length r)%nat -> (k2 < length (nth j2 r []))%nat ->
                          nth k (nth j r []) 0 <= nth k2 (nth j2 r []) 0 ->
                          nth k (nth j r' []) 0 <= nth k2 (nth j2 r' []) 0)).
Proof.
  split; [intros estimate init_image out H; apply collect_map; exact H |].
  intros r. split.
  - intros He. unfold normalize_depth, amin. rewrite He. simpl. eexists. reflexivity.
  - intros Hne.
    destruct (amin_amax Hne) as (mn & mx & Hmn & Hmx & Hin1 & Hin2 & Hb).
    exists mn, mx. split; [exact Hmn |]. split; [exact Hmx |].
    split; [exact Hin1 |]. split; [exact Hin2 |].
    assert (Hle : mn <= mx) by (apply (Hb mn Hin1)).
    split; [exact Hle |]. split.
    + intros Heq. unfold normalize_depth. rewrite Hmn, Hmx. simpl.
      assert (E : Qeq_bool (mx - mn) 0 = true).
      { apply Qeq_bool_iff. rewrite Heq. ring. }
      rewrite E. reflexivity.
    + intros Hlt. unfold normalize_depth. rewrite Hmn, Hmx. simpl.
      assert (E : Qeq_bool (mx - mn) 0 = false).
      { destruct (Qeq_bool (mx - mn) 0) eqn:E0; [| reflexivity].
        apply Qeq_bool_iff in E0. exfalso.
        assert (mx == mn) by (rewrite <- (Qplus_0_l mn), <- E0; ring).
        rewrite H in Hlt. exact (Qlt_irrefl _ Hlt). }
      rewrite E. eexists. split; [reflexivity |]. split.
      { rewrite map_map. apply map_ext. intros c. apply length_map. }
      assert (Hd : 0 < mx - mn) by (apply (proj1 (Qlt_minus_iff mn mx)); exact Hlt).
      assert (Hval : forall j k, (j < length r)%nat -> (k < length (nth j r []))%nat ->
                nth k (nth j (map (map (fun x => 2 * (x - mn) / (mx - mn) - 1)) r) []) 0
                = 2 * (nth k (nth j r []) 0 - mn) / (mx - mn) - 1).
      { intros j k Hj Hk.
        change (@nil Q)
          with (map (fun x => 2 * (x - mn) / (mx - mn) - 1) (@nil Q)) at 1.
        rewrite map_nth.
        rewrite (nth_indep _ 0 (2 * (0 - mn) / (mx - mn) - 1))
          by (rewrite length_map; exact Hk).
        exact (map_nth (fun x => 2 * (x - mn) / (mx - mn) - 1) (nth j r []) 0 k). }
      assert (Hmono : forall x y, x <= y ->
                2 * (x - mn) / (mx - mn) - 1 <= 2 * (y - mn) / (mx - mn) - 1).
      { intros x y Hxy. apply Qplus_le_l. apply Qmult_le_compat_r.
        - apply Qmult_le_l; [reflexivity |]. apply Qplus_le_l. exact Hxy.
        - apply Qlt_le_weak. apply Qinv_lt_0_compat. exact Hd. }
      assert (Hnz : ~ mx - mn == 0).
      { intros E0. rewrite E0 in Hd. exact (Qlt_irrefl _ Hd). }
      intros j k Hj Hk. rewrite (Hval j k Hj Hk).
      destruct (Hb _ (in_concat_nth Hj Hk)) as [Hlo Hhi].
      split; [| split; [| split]].
      * split.
        -- assert (E1 : -1 == 2 * (mn - mn) / (mx - mn) - 1) by (field; exact Hnz).
           rewrite E1 at 1. apply Hmono. exact Hlo.
        -- assert (E1 : 1 == 2 * (mx - mn) / (mx - mn) - 1) by (field; exact Hnz).
           rewrite E1 at 2. apply Hmono. exact Hhi.
      * intros ->. field. exact Hnz.
      * intros ->. field. exact Hnz.
      * intros j2 k2 Hj2 Hk2 Hxy. rewrite (Hval j2 k2 Hj2 Hk2). apply Hmono. exact Hxy.
Qed.

Lemma depth_is_normalized_witness :
  exists r',
    normalize_depth [[1; 3]; [2; 5]] = Ok (Some r')
    /\ nth 1 (nth 1 r' []) 0 == 1
    /\ -1 <= nth 1 (nth 0 r' []) 0 <= 1.
Proof.
  destruct depth_is_normalized as [_ H].
  destruct (H [[1; 3]; [2; 5]]) as [_ Hrow].
  assert (Hne : concat [[1; 3]; [2; 5]] <> @nil Q) by discriminate.
  destruct (Hrow Hne) as (mn & mx & Hmn & Hmx & _ & _ & _ & _ & Hnorm).
  assert (Emn : mn = 1) by (injection Hmn as <-; reflexivity).
  assert (Emx : mx = 5) by (injection Hmx as <-; reflexivity).
  subst mn mx.
  destruct (Hnorm eq_refl) as (r' & Hr & _ & Hval).
  exists r'. split; [exact Hr |].
  assert (H1 : (1 < length [[1; 3]; [2; 5]])%nat) by (simpl; lia).
  assert (H0 : (0 < length [[1; 3]; [2; 5]])%nat) by (simpl; lia).
  assert (Hk1 : (1 < length (nth 1 [[1; 3]; [2; 5]] []))%nat) by (simpl; lia).
  assert (Hk0 : (1 < length (nth 0 [[1; 3]; [2; 5]] []))%nat) by (simpl; lia).
  split.
  - destruct (Hval 1%nat 1%nat H1 Hk1) as (_ & _ & Hmax & _).
    apply Hmax. reflexivity.
  - destruct (Hval 0%nat 1%nat H0 Hk0) as (Hrange & _). exact Hrange.
Defined.

(** ** The wrapper of the denoiser for k-diffusion *)

Lemma get_pop_other {V : Type} (kw : ModelWrapper.kwargs V) (key other : string) :
  other <> key ->
  ModelWrapper.get (ModelWrapper.pop kw key) other = ModelWrapper.get kw other.
Proof.
  intros Hne. unfold ModelWrapper.get, ModelWrapper.pop.
  induction kw as [| [k v] kw IH]; simpl; [reflexivity |].
  destruct (String.eqb_spec k key) as [-> | Hk]; simpl.
  - destruct (String.eqb_spec key other) as [E | _]; [congruence | exact IH].
  - destruct (String.eqb_spec k other); [reflexivity | exact IH].
Qed.

Lemma has_key_pop {V : Type} (kw : ModelWrapper.kwargs V) (key : string) :
  ModelWrapper.has_key (ModelWrapper.pop kw key) key = false.
Proof.
  unfold ModelWrapper.has_key, ModelWrapper.pop.
  induction kw as [| [k v] kw IH]; simpl; [reflexivity |].
  destruct (String.eqb_spec k key) as [-> | Hk]; simpl; [exact IH |].
  destruct (String.eqb_spec k key); [contradiction | exact IH].
Qed.

(** X18.  The conditioning [apply_model] passes to the wrapped model
    (lines 41-47): a [cond] keyword that is not [None] wins, also over a
    third positional argument, and is taken out of the keyword arguments
    passed on; otherwise the third of exactly three positional arguments
    is the conditioning and the first two are passed on; with neither the
    call ends in [UnboundLocalError].  Every other keyword argument
    reaches the model unchanged. *)
Theorem apply_model_conditioning :
  forall (V : Type) (model : ModelWrapper.model_call V -> V) (args : list (option V))
         (kw : ModelWrapper.kwargs V),
    (forall c, ModelWrapper.get kw "cond" = Some c ->
       ModelWrapper.has_key (ModelWrapper.pop kw "cond") "encoder_hidden_states" = false ->
       ModelWrapper.apply_model model args kw
       = inr (model {| ModelWrapper.mc_args :=
                         if (length args =? 3)%nat then firstn 2 args else args;
                       ModelWrapper.mc_encoder_hidden_states := Some c;
                       ModelWrapper.mc_kwargs := ModelWrapper.pop kw "cond" |})
       /\ ModelWrapper.has_key (ModelWrapper.pop kw "cond") "cond" = false)
    /\ (ModelWrapper.get kw "cond" = None -> length args = 3%nat ->
        ModelWrapper.has_key kw "encoder_hidden_states" = false ->
        ModelWrapper.apply_model model args kw
        = inr (model {| ModelWrapper.mc_args := firstn 2 args;
                        ModelWrapper.mc_encoder_hidden_states := nth 2 args None;
                        ModelWrapper.mc_kwargs := kw |}))
    /\ (ModelWrapper.get kw "cond" = None -> length args <> 3%nat ->
        ModelWrapper.apply_model model args kw = inl ModelWrapper.UnboundLocalError)
    /\ (forall v, ModelWrapper.apply_model model args kw = inr v ->
        exists call,
          v = model call
          /\ (forall key, key <> "cond"%string ->
              ModelWrapper.get (ModelWrapper.mc_kwargs call) key
              = ModelWrapper.get kw key)
          /\ ModelWrapper.mc_args call = firstn (length (ModelWrapper.mc_args call)) args
          /\ (length (ModelWrapper.mc_args call) <= 2
              \/ ModelWrapper.mc_args call = args)%nat).
Proof.
  intros V model args kw. unfold ModelWrapper.apply_model.
  split; [| split; [| split]].
  - intros c Hc Hk. rewrite Hc, Hk. split; [reflexivity | apply has_key_pop].
  - intros Hc Hlen Hk. rewrite Hc, Hlen, Hk. reflexivity.
  - intros Hc Hlen. rewrite Hc.
    destruct (length args =? 3)%nat eqn:E; [| reflexivity].
    apply Nat.eqb_eq in E. contradiction.
  - intros v H.
    assert (Hargs : forall xs : list (option V),
               xs = (if (length args =? 3)%nat then firstn 2 args else args) ->
               xs = firstn (length xs) args /\ ((length xs <= 2)%nat \/ xs = args)).
    { intros xs ->. destruct (length args =? 3)%nat eqn:E.
      - apply Nat.eqb_eq in E. rewrite length_firstn, E. simpl.
        split; [reflexivity | left; lia].
      - rewrite firstn_all. split; [reflexivity | right; reflexivity]. }
    destruct (ModelWrapper.get kw "cond") as [c |] eqn:Hc.
    + destruct (ModelWrapper.has_key _ _); [discriminate |].
      injection H as <-. eexists. split; [reflexivity |]. simpl.
      split; [intros key Hne; apply get_pop_other; exact Hne |].
      apply Hargs. reflexivity.
    + destruct (length args =? 3)%nat eqn:E; [| discriminate].
      destruct (ModelWrapper.has_key _ _); [discriminate |].
      injection H as <-. eexists. split; [reflexivity |]. simpl.
      split; [reflexivity |]. apply Hargs. reflexivity.
Qed.

Lemma apply_model_conditioning_witness :
  ModelWrapper.apply_model (V := nat)
    (fun call => match ModelWrapper.mc_encoder_hidden_states call with
                 | Some c => c
                 | None => 0%nat
                 end)
    [Some 1%nat; Some 2%nat; Some 3%nat]
    [("cond"%string, Some 7%nat); ("mid_block_additional_residual"%string, Some 9%nat)]
  = inr 7%nat.
Proof.
  destruct (@apply_model_conditioning nat
              (fun call => match ModelWrapper.mc_encoder_hidden_states call with
                           | Some c => c
                           | None => 0%nat
                           end)
              [Some 1%nat; Some 2%nat; Some 3%nat]
              [("cond"%string, Some 7%nat);
               ("mid_block_additional_residual"%string, Some 9%nat)]) as [H _].
  destruct (H 7%nat eq_refl eq_refl) as [Hrun _]. exact Hrun.
Defined.

(** ** Loading a model of the table *)

Lemma choose_sampler_none (sampler : string) (vtype : bool) :
  Loader.choose_sampler sampler vtype = None
  <-> ~ In sampler ("uni"%string :: Loader.samplers).
Proof.
  unfold Loader.choose_sampler, Loader.samplers.
  destruct (String.eqb_spec sampler "pndm") as [-> | H1];
    [split; [discriminate | intros H; exfalso; apply H; simpl; auto 10] |].
  destruct (String.eqb_spec sampler "dpm") as [-> | H2];
    [split; [discriminate | intros H; exfalso; apply H; simpl; auto 10] |].
  destruct (String.eqb_spec sampler "uni") as [-> | H3];
    [split; [discriminate | intros H; exfalso; apply H; simpl; auto 10] |].
  destruct (String.eqb_spec sampler "ddim") as [-> | H4];
    [split; [discriminate | intros H; exfalso; apply H; simpl; auto 10] |].
  destruct (String.eqb_spec sampler "klms") as [-> | H5];
    [split; [discriminate | intros H; exfalso; apply H; simpl; auto 10] |].
  destruct (String.eqb_spec sampler "euler") as [-> | H6];
    [split; [discriminate | intros H; exfalso; apply H; simpl; auto 10] |].
  destruct (String.eqb_spec sampler "euler_a") as [-> | H7];
    [split; [discriminate | intros H; exfalso; apply H; simpl; auto 10] |].
  destruct (String.eqb_spec sampler "dpm2_a") as [-> | H8];
    [split; [discriminate | intros H; exfalso; apply H; simpl; auto 10] |].
  split; [| reflexivity]. intros _ Hin. simpl in Hin.
  destruct Hin as [E | [E | [E | [E | [E | [E | [E | [E | []]]]]]]]]; congruence.
Qed.

(** X19.  The sampler names of the command line against the loader
    (args.py line 3, sdsetup.py lines 157-182): every name the command
    line offers is known to [load_model_custom], which leaves through
    [exit()] exactly for the names outside that list and ["uni"].  The
    k-diffusion wrapper and sampler are set up exactly for [klms],
    [euler], [euler_a] and [dpm2_a], always on the LMS scheduler, with
    the v-prediction wrapper exactly for a v-model; [eta] is passed to
    the scheduler for [ddim] alone.  A model of the table with a sampler
    of the list is loaded, given xformers for the v-model. *)
Theorem listed_samplers_are_loaded :
  (forall sampler vtype,
      In sampler Loader.samplers -> Loader.choose_sampler sampler vtype <> None)
  /\ (forall sampler vtype,
         Loader.choose_sampler sampler vtype = None
         <-> ~ In sampler ("uni"%string :: Loader.samplers))
  /\ (forall sampler vtype cls eta k,
         Loader.choose_sampler sampler vtype = Some (cls, eta, k) ->
         (k <> None <-> In sampler ["klms"; "euler"; "euler_a"; "dpm2_a"]%string)
         /\ (k <> None -> cls = Loader.LMSDiscreteScheduler)
         /\ (eta = true <-> sampler = "ddim"%string)
         /\ (forall d f, k = Some (d, f) ->
             (d = Loader.CompVisVDenoiser <-> vtype = true)))
  /\ (forall model vae sampler isxf,
         In model Loader.models -> In sampler Loader.samplers ->
         (model = "21v"%string -> isxf = true) ->
         exists loaded,
           Loader.load_model_custom model vae sampler isxf = Loader.Returns loaded).
Proof.
  split; [| split; [| split]].
  - intros sampler vtype Hin Hnone.
    apply (proj1 (choose_sampler_none sampler vtype)) in Hnone.
    apply Hnone. right. exact Hin.
  - exact choose_sampler_none.
  - intros sampler vtype cls eta k. unfold Loader.choose_sampler.
    destruct (String.eqb_spec sampler "pndm") as [-> | H1].
    { intros [= <- <- <-]. repeat split; try congruence; try discriminate.
      simpl. intros [E | [E | [E | [E | []]]]]; discriminate E. }
    destruct (String.eqb_spec sampler "dpm") as [-> | H2].
    { intros [= <- <- <-]. repeat split; try congruence; try discriminate.
      simpl. intros [E | [E | [E | [E | []]]]]; discriminate E. }
    destruct (String.eqb_spec sampler "uni") as [-> | H3].
    { intros [= <- <- <-]. repeat split; try congruence; try discriminate.
      simpl. intros [E | [E | [E | [E | []]]]]; discriminate E. }
    destruct (String.eqb_spec sampler "ddim") as [-> | H4].
    { intros [= <- <- <-]. repeat split; try congruence; try discriminate.
      simpl. intros [E | [E | [E | [E | []]]]]; discriminate E. }
    destruct (String.eqb_spec sampler "klms") as [-> | H5].
    { intros [= <- <- <-]. repeat split; try congruence; try discriminate;
        try (simpl; auto; fail);
        intros; destruct vtype; congruence. }
    destruct (String.eqb_spec sampler "euler") as [-> | H6].
    { intros [= <- <- <-]. repeat split; try congruence; try discriminate;
        try (simpl; auto; fail);
        intros; destruct vtype; congruence. }
    destruct (String.eqb_spec sampler "euler_a") as [-> | H7].
    { intros [= <- <- <-]. repeat split; try congruence; try discriminate;
        try (simpl; auto; fail);
        intros; destruct vtype; congruence. }
    destruct (String.eqb_spec sampler "dpm2_a") as [-> | H8].
    { intros [= <- <- <-]. repeat split; try congruence; try discriminate;
        try (simpl; auto; fail);
        intros; destruct vtype; congruence. }
    discriminate.
  - intros model vae sampler isxf Hm Hs Hx.
    assert (Hsome : forall vtype, exists c,
               Loader.choose_sampler sampler vtype = Some c).
    { intros vtype.
      destruct (Loader.choose_sampler sampler vtype) as [c |] eqn:Hc; [eauto |].
      apply choose_sampler_none in Hc. exfalso. apply Hc. right. exact Hs. }
    destruct (Hsome false) as ([[cls eta] k] & Hc).
    destruct (Hsome true) as ([[cls' eta'] k'] & Hc').
    unfold Loader.models in Hm. simpl in Hm.
    destruct Hm as [<- | [<- | [<- | [<- | [<- | [<- | []]]]]]];
      unfold Loader.load_model_custom; simpl;
      try (rewrite Hc; eexists; reflexivity).
    rewrite (Hx eq_refl). simpl. rewrite Hc'. eexists. reflexivity.
Qed.

Lemma listed_samplers_are_loaded_witness :
  exists loaded,
    Loader.load_model_custom "21v" "ema" "euler_a" true = Loader.Returns loaded.
Proof.
  destruct listed_samplers_are_loaded as (_ & _ & _ & H).
  apply H.
  - unfold Loader.models. simpl. auto 10.
  - unfold Loader.samplers. simpl. auto 10.
  - intros _. reflexivity.
Defined.

(** X20.  The models of the table against the loader (args.py line 4,
    sdsetup.py lines 119-151): for every model name of the table
    [load_model_custom] never picks the three-dimensional denoiser nor a
    text encoder other than [text]; the names [15] and [15i] are loaded
    from [v1], [2i], [2d] and [21] from [v2] and [21v] from [v2v], which
    needs xformers; the denoiser is read from [unet] followed by the
    name; and only the models of [v1] use a fine-tuned VAE, the [mse]
    one for [vae = mse], none for [vae = orig] and the [ema] one for any
    other value.  An empty model name is an [IndexError]. *)
Theorem listed_models_resolve :
  (forall model vae sampler isxf loaded,
      In model Loader.models ->
      Loader.load_model_custom model vae sampler isxf = Loader.Returns loaded ->
      Loader.unet_3d loaded = false
      /\ Loader.txtenc_dir loaded = "text"%string
      /\ Loader.unet_dir loaded = ("unet" ++ model)%string
      /\ (In model ["15"; "15i"]%string -> Loader.subdir loaded = "v1"%string)
      /\ (In model ["2i"; "2d"; "21"]%string -> Loader.subdir loaded = "v2"%string)
      /\ (model = "21v"%string ->
          Loader.subdir loaded = "v2v"%string /\ isxf = true)
      /\ (Loader.subdir loaded <> "v1"%string -> Loader.vae_dir loaded = "vae"%string)
      /\ (Loader.subdir loaded = "v1"%string ->
          (vae = "orig"%string -> Loader.vae_dir loaded = "vae"%string)
          /\ (vae = "mse"%string -> Loader.vae_dir loaded = "vae-ft-mse"%string)
          /\ (vae <> "orig"%string -> vae <> "mse"%string ->
              Loader.vae_dir loaded = "vae-ft-ema"%string)))
  /\ (forall vae sampler isxf,
         Loader.load_model_custom "" vae sampler isxf = Loader.Raises IndexError).
Proof.
  split; [| reflexivity].
  intros model vae sampler isxf loaded Hm Hl.
  unfold Loader.models in Hm. simpl in Hm.
  destruct Hm as [<- | [<- | [<- | [<- | [<- | [<- | []]]]]]];
    unfold Loader.load_model_custom in Hl; simpl in Hl.
  1, 2:
    destruct (Loader.choose_sampler sampler false) as [[[cls eta] k] |];
    [| discriminate];
    injection Hl as <-; simpl;
    repeat split; try reflexivity; try congruence;
    try (intros [E | [E | [E | []]]]; discriminate E);
    try (intros E; discriminate E);
    try (intros E; exfalso; apply E; reflexivity);
    try (intros ->; reflexivity);
    intros Ho Hmse;
    destruct (String.eqb_spec vae "orig"); [contradiction |];
    destruct (String.eqb_spec vae "mse"); [contradiction | reflexivity].
  1, 2, 3:
    destruct (Loader.choose_sampler sampler false) as [[[cls eta] k] |];
    [| discriminate];
    injection Hl as <-; simpl;
    repeat split; try reflexivity; try congruence;
    try (intros [E | [E | []]]; discriminate E);
    try (intros E; discriminate E).
  destruct isxf; simpl in Hl; [| discriminate].
  destruct (Loader.choose_sampler sampler true) as [[[cls eta] k] |];
    [| discriminate].
  injection Hl as <-. simpl.
  repeat split; try reflexivity; try congruence;
    try (intros [E | [E | [E | []]]]; discriminate E);
    try (intros [E | [E | []]]; discriminate E);
    try (intros E; discriminate E).
Qed.

Lemma listed_models_resolve_witness :
  exists loaded,
    Loader.load_model_custom "15i" "msee" "ddim" false = Loader.Returns loaded
    /\ Loader.subdir loaded = "v1"%string
    /\ Loader.vae_dir loaded = "vae-ft-ema"%string.
Proof.
  destruct listed_models_resolve as [H _].
  eexists. split; [reflexivity |].
  assert (Hin : In "15i"%string Loader.models)
    by (unfold Loader.models; simpl; auto).
  destruct (H "15i"%string "msee"%string "ddim"%string false _ Hin eq_refl)
    as (_ & _ & _ & Hv1 & _ & _ & _ & Hvae).
  assert (Hsub : In "15i"%string ["15"; "15i"]%string) by (simpl; auto).
  split; [exact (Hv1 Hsub) |].
  destruct (Hvae (Hv1 Hsub)) as (_ & _ & Hema).
  apply Hema; discriminate.
Defined.

(** ** The rows of a batch *)

Lemma split_blocks (b : nat) :
  (1 <= b)%nat ->
  forall (n : nat) (t : tensor) (fuel : nat),
    length t = (n * b)%nat -> (n <= fuel)%nat ->
    split fuel b t = map (fun i => firstn b (skipn (i * b) t)) (seq 0 n).
Proof.
  intros Hb. induction n as [| n IH]; intros t fuel Hlen Hfuel.
  - destruct t; [| discriminate]. destruct fuel; reflexivity.
  - destruct fuel as [| fuel]; [lia |].
    destruct t as [| r t]; [simpl in Hlen; lia |].
    change (split (S fuel) b (r :: t))
      with (firstn b (r :: t) :: split fuel b (skipn b (r :: t))).
    rewrite (IH (skipn b (r :: t)) fuel) by (rewrite ?length_skipn, ?Hlen; lia).
    change (seq 0 (S n)) with (0%nat :: seq 1 n).
    rewrite <- seq_shift. cbn [map]. rewrite map_map.
    f_equal. apply map_ext. intros i.
    rewrite skipn_skipn. f_equal. f_equal. lia.
Qed.

Lemma chunk_blocks (t : tensor) (n b : nat) :
  (1 <= n)%nat -> (1 <= b)%nat -> length t = (n * b)%nat ->
  chunk t (Z.of_nat n)
  = Ok (map (fun i => firstn b (skipn (i * b) t)) (seq 0 n)).
Proof.
  intros Hn Hb Hlen. unfold chunk.
  destruct (Z.leb_spec (Z.of_nat n) 0) as [H | _]; [lia |].
  destruct t as [| r t'] eqn:Ht; [simpl in Hlen; nia |].
  rewrite <- Ht in *. clear Ht.
  assert (Hsize : Z.to_nat ((Py.len t + Z.of_nat n - 1) / Z.of_nat n) = b).
  { unfold Py.len. rewrite Hlen.
    replace (Z.of_nat (n * b) + Z.of_nat n - 1)%Z
      with (Z.of_nat b * Z.of_nat n + (Z.of_nat n - 1))%Z by lia.
    rewrite Z.div_add_l by lia.
    rewrite (Z.div_small (Z.of_nat n - 1)) by lia. lia. }
  rewrite Hsize. f_equal. apply split_blocks; [exact Hb | exact Hlen | nia].
Qed.

(** X21.  What [.chunk(bs)] gives the guidance loops of [generate]
    (lines 348, 381, 386): for an unconditional embedding of one row,
    [N >= 1] prompts and a denoiser that returns one row for every row of
    the conditioning, the prediction is cut into [bs] pieces of [batch]
    rows each, in order, so that [noises[0]] holds the unconditional
    predictions of the batch and every later piece those of one prompt;
    put together again the pieces are the prediction. *)
Theorem chunks_are_conditioning_blocks :
  forall (B : Backend) (self : SDfu) (cs uc : tensor) (cfg_scale : option Q)
         (mask masked_lat depth : option tensor) (cws : option (list Q))
         (cimg ilat : option tensor) (r : run) (out : tensor),
    prepare self cs uc cfg_scale mask masked_lat depth cws cimg ilat = Ok r ->
    length uc = 1%nat -> cs <> [] -> (1 <= a_batch (a self))%Z ->
    Torch.len out = Torch.len (r_conds r) ->
    exists noises,
      chunk out (r_bs r) = Ok noises
      /\ Py.len noises = r_bs r
      /\ (forall i, (i < length noises)%nat ->
          nth i noises []
          = firstn (Z.to_nat (a_batch (a self)))
              (skipn (i * Z.to_nat (a_batch (a self))) out))
      /\ concat noises = out.
Proof.
  intros B self cs uc cfg_scale mask masked_lat depth cws cimg ilat r out Hp Huc Hcs
    Hb Hout.
  destruct (prepare_inv Hp) as (_ & Hconds & _ & Hbs & _).
  rewrite Hconds in Hout, Hbs.
  rewrite (@len_conds_of B self _ uc cs ilat Huc Hcs Hb) in Hout, Hbs.
  unfold Py.floordiv in Hbs.
  destruct (Z.eqb_spec (a_batch (a self)) 0) as [H0 | Hne]; [lia |].
  rewrite Z.div_mul in Hbs by exact Hne.
  assert (Hbs' : (if Py.in_0_1 (match cfg_scale with
                                | None => a_cfg_scale (a self)
                                | Some c => c
                                end)
                  then 1
                  else match ilat with
                       | None => 1 + Torch.len cs
                       | Some _ => 2 + Torch.len cs
                       end)%Z = r_bs r) by congruence.
  clear Hbs. rename Hbs' into Hbs.
  assert (Hpos : (1 <= r_bs r)%Z).
  { rewrite <- Hbs. unfold Torch.len, Py.len.
    destruct (Py.in_0_1 _); [lia |]. destruct ilat; lia. }
  rewrite Hbs in Hout.
  set (n := Z.to_nat (r_bs r)). set (b := Z.to_nat (a_batch (a self))).
  assert (Hlen : length out = (n * b)%nat).
  { unfold Torch.len, Py.len in Hout. unfold n, b. nia. }
  assert (Hn : (1 <= n)%nat) by (unfold n; lia).
  assert (Hb' : (1 <= b)%nat) by (unfold b; lia).
  pose proof (chunk_blocks Hn Hb' Hlen) as Hchunk.
  unfold n in Hchunk at 1. rewrite Z2Nat.id in Hchunk by lia.
  eexists. split; [exact Hchunk |].
  split; [unfold Py.len; rewrite length_map, length_seq; unfold n; lia |].
  split.
  - intros i Hi. rewrite length_map, length_seq in Hi.
    rewrite (nth_indep _ [] (firstn b (skipn (n * b) out)))
      by (rewrite length_map, length_seq; exact Hi).
    rewrite (map_nth (fun i => firstn b (skipn (i * b) out)) (seq 0 n) n i).
    rewrite seq_nth by exact Hi. reflexivity.
  - clear - Hlen Hb'. revert out Hlen. induction n as [| n IH]; intros out Hlen.
    + destruct out; [reflexivity | discriminate].
    + change (seq 0 (S n)) with (0%nat :: seq 1 n).
      rewrite <- seq_shift. cbn [map concat]. rewrite map_map.
      change (skipn (0 * b) out) with out.
      transitivity (firstn b out ++ skipn b out); [| apply firstn_skipn]. f_equal.
      rewrite <- (IH (skipn b out)) by (rewrite length_skipn, Hlen; lia).
      f_equal. apply map_ext. intros i. rewrite skipn_skipn.
      f_equal. f_equal. lia.
Qed.

Lemma chunks_are_conditioning_blocks_witness :
  exists r noises,
    prepare Fixture.batch2_engine [[[1]]; [[2]]] [[[0]]] None None None None None None
      None = Ok r
    /\ chunk Fixture.six_rows (r_bs r) = Ok noises
    /\ nth 1 noises [] = [[[10]]; [[20]]].
Proof.
  assert (Hb : (1 <= a_batch (a Fixture.batch2_engine))%Z) by (simpl; lia).
  assert (Huc : [[[0]]] <> @nil (list (list Q))) by discriminate.
  assert (Hcs : [[[1]]; [[2]]] <> @nil (list (list Q))) by discriminate.
  assert (Hci : forall ci : tensor, @None tensor = Some ci -> ci <> []) by discriminate.
  destruct (@prepare_ok Fixture.ddim Fixture.batch2_engine [[[1]]; [[2]]]
              [[[0]]] None None None None None None Hb Huc Hcs Hci) as (r & Hr & _).
  assert (Hlen : Torch.len Fixture.six_rows = Torch.len (r_conds r)).
  { destruct (prepare_inv Hr) as (_ & -> & _). reflexivity. }
  destruct (@chunks_are_conditioning_blocks Fixture.ddim _ _ _ _ _ _ _ _ _ _ r
              Fixture.six_rows Hr eq_refl Hcs Hb Hlen)
    as (noises & Hchunk & Hn & Hrows & _).
  exists r, noises. split; [exact Hr |]. split; [exact Hchunk |].
  assert (Hbs : r_bs r = 3%Z).
  { destruct (prepare_inv Hr) as (_ & Hc & _ & Hdiv & _). rewrite Hc in Hdiv.
    injection Hdiv as <-. reflexivity. }
  rewrite Hrows by (unfold Py.len in Hn; lia). reflexivity.
Defined.

Lemma cat_list_mul_eq (x : tensor) (n : Z) (y : tensor) :
  Torch.cat (Py.list_mul [x] n) = Ok y -> (1 <= n)%Z /\ y = repeat0 x n.
Proof.
  rewrite list_mul_singleton. unfold repeat0.
  destruct (Z.to_nat n) as [| k] eqn:Hk; simpl; [discriminate |].
  intros [= <-]. split; [lia | reflexivity].
Qed.

Lemma expand_to_rows (conds : tensor) (x : tensor) (x' : option tensor) :
  expand_to conds (Some x) = Ok x' ->
  x <> []
  /\ exists rows,
       x' = Some rows
       /\ length rows
          = (length x * Z.to_nat (Torch.len conds / Torch.len x))%nat
       /\ forall j, (j < length rows)%nat ->
            nth j rows [] = nth (j / Z.to_nat (Torch.len conds / Torch.len x)) x [].
Proof.
  unfold expand_to, Py.floordiv. intros H.
  destruct (Z.eqb_spec (Torch.len x) 0) as [E | Hne]; simpl in H; [discriminate |].
  injection H as <-. split.
  - intros ->. apply Hne. reflexivity.
  - eexists. split; [reflexivity |]. split; [apply length_repeat_interleave |].
    intros j Hj. rewrite length_repeat_interleave in Hj.
    apply nth_repeat_interleave. exact Hj.
Qed.

(** X22.  How [generate] lays out the rows of a batch (lines 316-319,
    330, 366): the latent is expanded by putting [bs] copies of all its
    rows one after the other, so that row [j] of the expanded latent is
    row [j mod n] of its [n] rows, whereas a control image and an edit
    latent are expanded by repeating every row [k = len(conds) // len(x)]
    times in a row, so that row [j] of the expanded input is row [j / k]
    of the given one; the input must have a row. *)
Theorem batch_row_layout :
  forall (B : Backend) (self : SDfu) (cs uc : tensor) (cfg_scale : option Q)
         (mask masked_lat depth : option tensor) (cws : option (list Q))
         (cimg ilat : option tensor) (r : run),
    prepare self cs uc cfg_scale mask masked_lat depth cws cimg ilat = Ok r ->
    (forall x x_in,
        Torch.cat (Py.list_mul [x] (r_bs r)) = Ok x_in ->
        length x_in = (Z.to_nat (r_bs r) * length x)%nat
        /\ forall j, (j < length x_in)%nat -> nth j x_in [] = nth (j mod length x) x [])
    /\ (forall il, ilat = Some il ->
        il <> []
        /\ exists rows,
             r_ilat r = Some rows
             /\ length rows
                = (length il * Z.to_nat (Torch.len (r_conds r) / Torch.len il))%nat
             /\ forall j, (j < length rows)%nat ->
                  nth j rows []
                  = nth (j / Z.to_nat (Torch.len (r_conds r) / Torch.len il)) il [])
    /\ (forall ci, cimg = Some ci ->
        ci <> []
        /\ exists rows,
             r_cimg r = Some rows
             /\ length rows
                = (length ci * Z.to_nat (Torch.len (r_conds r) / Torch.len ci))%nat
             /\ forall j, (j < length rows)%nat ->
                  nth j rows []
                  = nth (j / Z.to_nat (Torch.len (r_conds r) / Torch.len ci)) ci []).
Proof.
  intros B self cs uc cfg_scale mask masked_lat depth cws cimg ilat r Hp.
  destruct (prepare_inv Hp) as (_ & _ & _ & _ & Hci & Hil & _).
  split; [| split].
  - intros x x_in Hcat. destruct (cat_list_mul_eq Hcat) as [Hbs ->].
    assert (Hlen : length (repeat0 x (r_bs r)) = (Z.to_nat (r_bs r) * length x)%nat)
      by (unfold repeat0; apply length_concat_repeat).
    split; [exact Hlen |].
    intros j Hj. apply nth_repeat0. rewrite <- Hlen. exact Hj.
  - intros il ->. exact (expand_to_rows Hil).
  - intros ci ->. exact (expand_to_rows Hci).
Qed.

Lemma batch_row_layout_witness :
  exists r rows x_in,
    prepare Fixture.batch2_engine [[[1]]] [[[0]]] None None None None None None
      (Some [[[5]]; [[6]]]) = Ok r
    /\ r_ilat r = Some rows
    /\ Torch.cat (Py.list_mul [[[[7]]; [[8]]]] (r_bs r)) = Ok x_in
    /\ nth 1 rows [] = [[5]]
    /\ nth 1 x_in [] = [[8]].
Proof.
  destruct (prepare Fixture.batch2_engine [[[1]]] [[[0]]] None None None None None None
              (Some [[[5]]; [[6]]])) as [r |] eqn:Hr; [| discriminate Hr].
  destruct (@batch_row_layout Fixture.ddim _ _ _ _ _ _ _ _ _ _ r Hr)
    as (Hlat & Hil & _).
  destruct (Hil _ eq_refl) as (_ & rows & Hrows & Hlen & Hnth).
  assert (Hconds : Torch.len (r_conds r) = 6%Z).
  { destruct (prepare_inv Hr) as (_ & -> & _). reflexivity. }
  assert (Hbs : r_bs r = 3%Z).
  { destruct (prepare_inv Hr) as (_ & Hc & _ & Hdiv & _). rewrite Hc in Hdiv.
    injection Hdiv as <-. reflexivity. }
  rewrite Hconds in Hlen, Hnth.
  exists r, rows, (repeat0 [[[7]]; [[8]]] 3).
  split; [reflexivity |]. split; [exact Hrows |].
  split; [rewrite Hbs; reflexivity |].
  split.
  - rewrite Hnth by (rewrite Hlen; simpl; lia). reflexivity.
  - destruct (Hlat [[[7]]; [[8]]] (repeat0 [[[7]]; [[8]]] 3)) as [Hl Hn];
      [rewrite Hbs; reflexivity |].
    rewrite Hn by (rewrite Hl, Hbs; simpl; lia). reflexivity.
Defined.

(** ** Pixel-edit guidance on the k-diffusion family *)

Lemma sigma_at_ok (sg : list Q) (t0 s : Q) :
  sigma_at sg t0 = Ok s -> In s sg /\ s == t0.
Proof.
  unfold sigma_at. destruct (filter _ sg) as [| s1 [| s2 rest]] eqn:Hf; try discriminate.
  intros [= <-].
  assert (Hin : In s1 (filter (fun x => Qeq_bool x t0) sg))
    by (rewrite Hf; left; reflexivity).
  apply filter_In in Hin. destruct Hin as [Hin Heq].
  split; [exact Hin | apply Qeq_bool_iff; exact Heq].
Qed.

Lemma sigma_at_absent (sg : list Q) (t0 : Q) :
  (forall s, In s sg -> ~ s == t0) ->
  sigma_at sg t0
  = Err (RuntimeError "only one element tensors can be converted to Python scalars").
Proof.
  intros Hno. unfold sigma_at.
  destruct (filter _ sg) as [| s1 rest] eqn:Hf; [reflexivity |].
  assert (Hin : In s1 (filter (fun x => Qeq_bool x t0) sg))
    by (rewrite Hf; left; reflexivity).
  apply filter_In in Hin. destruct Hin as [Hin Heq].
  apply Qeq_bool_iff in Heq. exfalso. exact (Hno s1 Hin Heq).
Qed.

Lemma cat_1d_list_mul (t : list Q) (n : Z) :
  (1 <= n)%Z -> cat_1d (Py.list_mul [t] n) = Ok (concat (repeat t (Z.to_nat n))).
Proof.
  intros Hn. rewrite list_mul_singleton.
  destruct (Z.to_nat n) as [| k] eqn:Hk; [lia | reflexivity].
Qed.

(** X23.  The pixel-edit branch of [model_fn] (lines 340-346) looks the
    time of the call up in the stored sigmas.  For a time that is none of
    them the call ends in an error before the denoiser is called.  A call
    that returns was made at a sigma of the stored schedule, and the
    denoiser has seen the expanded latent divided by
    [sqrt(sigma^2 + 1)], with the edit latent attached and without
    keyword arguments. *)
Theorem pix2pix_needs_schedule_sigma :
  forall (B : Backend) (self : SDfu) (r : run) (x : tensor) (t0 : Q) (rest : list Q)
         (ilat : tensor) (img_scale : Q) (log : list denoise_call),
    Py.in_0_1 (r_cfg_scale r) = false ->
    r_ilat r = Some ilat ->
    a_img_scale (a self) = Some img_scale ->
    ((1 <= r_bs r)%Z ->
     (forall s, In s (sigmas self) -> ~ s == t0) ->
     exists msg, model_fn self r x (t0 :: rest) log = Err (RuntimeError msg))
    /\ (forall noise_pred log',
           model_fn self r x (t0 :: rest) log = Ok (noise_pred, log') ->
           exists sigma c,
             In sigma (sigmas self) /\ sigma == t0
             /\ log' = log ++ [c]
             /\ dc_x c
                = cat1 [divs (repeat0 (inject self (r_mask r) (r_masked_lat r)
                                         (r_depth r) x) (r_bs r))
                          (pow_half (sigma * sigma + 1));
                        ilat]
             /\ dc_kw c = None).
Proof.
  intros B self r x t0 rest ilat img_scale log Hc Hil Him. split.
  - intros Hbs Hno. unfold model_fn. munfold.
    destruct (cat_list_mul_ok
                (inject self (r_mask r) (r_masked_lat r) (r_depth r) x) Hbs)
      as (x_in & ->).
    rewrite (cat_1d_list_mul (t0 :: rest) Hbs).
    rewrite Hc, Hil, Him.
    destruct (Z.to_nat (r_bs r)) as [| k] eqn:Hk; [lia |].
    simpl. rewrite (sigma_at_absent Hno). eexists. reflexivity.
  - intros np log' Hm.
    destruct (model_fn_kw Hm) as (x1 & t1 & c1 & Hlog1 & _ & Hkw).
    destruct (model_fn_inv Hm)
      as (x_in & t_in & c & Hcat & Hcat_t & Hlog & _ & _ & Hcase).
    assert (Ec : c1 = c).
    { rewrite Hlog in Hlog1. apply app_inv_head in Hlog1. congruence. }
    subst c1.
    destruct (cat_list_mul_eq Hcat) as [Hbs ->].
    rewrite (cat_1d_list_mul (t0 :: rest) Hbs) in Hcat_t. injection Hcat_t as <-.
    destruct Hcase as [(Hin & _) | [(_ & il & s & t & sigma & Hil' & _ & Ht & Hs & Hx & _)
                                   | (_ & [Hnone | Hnone] & _)]];
      try congruence.
    assert (Et : t = t0).
    { destruct (Z.to_nat (r_bs r)) as [| k] eqn:Hk; [lia |].
      simpl in Ht. unfold Py.getitem in Ht. simpl in Ht. congruence. }
    subst t. destruct (sigma_at_ok Hs) as [Hsin Hseq].
    exists sigma, c. split; [exact Hsin |]. split; [exact Hseq |].
    split; [exact Hlog |]. split; [congruence |].
    apply Hkw; congruence.
Qed.

Lemma pix2pix_needs_schedule_sigma_witness :
  exists msg,
    model_fn Example.pix2pix_k_engine Example.pix2pix_run [[[1]]; [[1]]]
      [3 # 2; 3 # 2] []
    = Err (RuntimeError msg).
Proof.
  destruct (@pix2pix_needs_schedule_sigma Fixture.euler_six Example.pix2pix_k_engine
              Example.pix2pix_run [[[1]]; [[1]]] (3 # 2) [3 # 2]
              [[[5]]; [[5]]; [[5]]; [[5]]; [[5]]; [[5]]] (3 # 2) []
              eq_refl eq_refl eq_refl) as [H _].
  apply H.
  - simpl. lia.
  - intros s Hin E. simpl in Hin.
    destruct Hin as [<- | [<- | [<- | []]]]; discriminate E.
Defined.

(** ** The set-up of a model without pixel-edit guidance *)

(** X24.  What [final_setup] leaves in the engine when no [img_scale] is
    configured (lines 187-208), for [a.steps], [a.strength] and their
    product below [2^53] in magnitude: the namespace as it was, strength
    included; the scale of the VAE, two to the number of its blocks less
    one, and the resolution, the sample size of the denoiser times that
    scale; the inpainting variant for nine input channels and the depth
    variant for five, never both; and the schedule of [a.steps] steps cut
    down by [a.strength] with a warm-up of one, the product
    [steps * strength] being rounded to the nearest double before it is
    truncated. *)
Theorem final_setup_stores_schedule :
  forall (B : Backend) (self self' : SDfu),
    a_img_scale (a self) = None ->
    Py.in_double_range (a_steps (a self)) (a_strength (a self)) = true ->
    final_setup self = Ok self' ->
    a self' = a self
    /\ vae_scale self' = Qpower 2 (Py.len vae_block_out_channels - 1)
    /\ res self' = inject_Z unet_sample_size * vae_scale self'
    /\ inpaintmod self' = (unet_in_channels =? 9)%Z
    /\ depthmod self' = (unet_in_channels =? 5)%Z
    /\ inpaintmod self' && depthmod self' = false
    /\ (inpaintmod self' = true -> a_mask (a self) <> None)
    /\ (use_kdiff self = true ->
        sigmas self'
        = Py.slice_from
            (- Z.min (Py.int (Py.mul_int_float (a_steps (a self)) (a_strength (a self))))
                 (a_steps (a self)) - 1)
            (full_sigmas self (a_steps (a self))))
    /\ (use_kdiff self = false ->
        timesteps self'
        = Py.slice_from
            (- Z.min (Py.int (Py.mul_int_float (a_steps (a self)) (a_strength (a self))))
                 (a_steps (a self)) - 1)
            (full_timesteps self (a_steps (a self)))).
Proof.
  intros B self self' Himg _ H.
  assert (Hmask : (unet_in_channels =? 9)%Z = true -> a_mask (a self) <> None).
  { intros E Hnone. unfold final_setup in H. rewrite E, Hnone in H. discriminate H. }
  destruct (final_setup_variant H) as [Hin Hdep].
  destruct (final_setup_inv H)
    as (a1 & self2 & Ha1 & Hs & Hlow & _ & _ & _ & _ & Hv & Hr & Ha).
  assert (Ea1 : a1 = a self).
  { destruct Ha1 as [E | E]; [exact E |].
    unfold final_setup in H.
    destruct (assert (negb ((unet_in_channels =? 9)%Z && negb (isset (a_mask (a self)))))
                _) as [[] |]; simpl in H; [| discriminate].
    rewrite Himg in H. simpl in H.
    destruct (set_steps _ _ _ _) as [s2 |] eqn:Hs2; simpl in H; [| discriminate].
    destruct (set_steps_keeps Hs) as (_ & _ & _ & _ & _ & _ & _ & Ha2).
    destruct (set_steps_keeps Hs2) as (_ & _ & _ & _ & _ & _ & _ & Ha3).
    simpl in Ha2, Ha3.
    assert (Es : a self' = a s2).
    { destruct (a_lowmem (a self)); [| congruence].
      destruct (assert accelerate_ok _) as [[] |]; simpl in H; [| discriminate].
      injection H as <-. reflexivity. }
    congruence. }
  subst a1.
  destruct (set_steps_keeps Hs) as (_ & _ & _ & _ & _ & Hv2 & Hr2 & Ha2).
  destruct (set_steps_schedule_eq Hs) as (_ & _ & _ & _ & Hsig & Hts).
  simpl in Hv2, Hr2, Ha2, Hsig, Hts.
  assert (Esig : sigmas self' = sigmas self2 /\ timesteps self' = timesteps self2).
  { destruct Hlow as [(Hl & _ & _) | (_ & ->)]; [| split; reflexivity].
    unfold final_setup in H.
    destruct (assert (negb ((unet_in_channels =? 9)%Z && negb (isset (a_mask (a self)))))
                _) as [[] |]; simpl in H; [| discriminate].
    rewrite Himg in H. simpl in H. rewrite Hs in H. simpl in H. rewrite Hl in H.
    destruct (assert accelerate_ok _) as [[] |]; simpl in H; [| discriminate].
    injection H as <-. split; reflexivity. }
  destruct Esig as [Esig Ets].
  split; [congruence |]. split; [congruence |].
  split; [rewrite Hr, Hr2, Hv, Hv2; reflexivity |].
  split; [exact Hin |]. split; [exact Hdep |].
  split.
  { rewrite Hin, Hdep. destruct (Z.eqb_spec unet_in_channels 9) as [-> | _];
      reflexivity. }
  split; [rewrite Hin; exact Hmask |].
  split; intros Hk; [rewrite Esig; exact (Hsig Hk) | rewrite Ets; exact (Hts Hk)].
Qed.

Lemma final_setup_stores_schedule_witness :
  exists self',
    final_setup (Fixture.ddim_engine (3 # 5)) = Ok self'
    /\ vae_scale self' = 8
    /\ Py.len (timesteps self') = 31%Z.
Proof.
  destruct (final_setup (Fixture.ddim_engine (3 # 5))) as [self' |] eqn:Hf;
    [| discriminate Hf].
  exists self'. split; [reflexivity |].
  assert (Hrange : Py.in_double_range (a_steps (a (Fixture.ddim_engine (3 # 5))))
                     (a_strength (a (Fixture.ddim_engine (3 # 5)))) = true)
    by (vm_compute; reflexivity).
  destruct (@final_setup_stores_schedule Fixture.ddim (Fixture.ddim_engine (3 # 5))
              self' eq_refl Hrange Hf) as (_ & Hv & _ & _ & _ & _ & _ & _ & Hts).
  split; [rewrite Hv; reflexivity |].
  rewrite (Hts eq_refl). vm_compute. reflexivity.
Defined.
